(** * Analytics event ingestion pipeline: batch queue, retry wrapper, uid generator

    A shallow embedding of
    - [src/lib/utils/batch-queue.ts]  (class [BatchQueue], [initializeQueues],
      [addView], [addClick]) and
    - [src/lib/supabase/queries.ts]   ([retryWithBackoff], [uidAlphabet],
      [generateUid], the uid loop of [createLinktree]).

    Conventions of the embedding.
    - A JavaScript string is a Rocq [string]; a character is one code unit in
      the range 0..255.
    - A thrown JavaScript value is a [JsValue]: only what the two error
      classifiers of the source inspect is kept ([instanceof Error],
      [message], the presence and the string form of [code]).
    - An [async] function is cut at its [await]: the part that runs
      synchronously up to the pending call, and the part that runs when the
      awaited promise settles.  The outcome of the awaited call is supplied by
      the environment.
    - JavaScript numbers that hold counts, sizes and delays are integers
      ([Z]) or lengths ([nat]). *)

From Stdlib Require Import ZArith Lia Bool Ascii String DecimalString.
From stdpp Require Import base tactics list strings.

Local Open Scope Z_scope.

(** ** JavaScript strings *)

Module JsString.

(** [s.startsWith(p)], used to define [includes]. *)
Fixpoint startsWith (s p : string) {struct p} : bool :=
  match p, s with
  | EmptyString, _ => true
  | String _ _, EmptyString => false
  | String a p', String b s' => if Ascii.eqb a b then startsWith s' p' else false
  end.

(** [s.includes(search)]: [search] occurs in [s] as a contiguous substring. *)
Fixpoint includes (s search : string) : bool :=
  startsWith s search ||
  match s with
  | EmptyString => false
  | String _ s' => includes s' search
  end.

(** White space and line terminators of ECMAScript that fit one 8-bit code
    unit: TAB, LF, VT, FF, CR, SPACE, NBSP. *)
Definition isWhiteSpace (c : ascii) : bool :=
  match N_of_ascii c with
  | 9%N | 10%N | 11%N | 12%N | 13%N | 32%N | 160%N => true
  | _ => false
  end.

Fixpoint trimStart (s : string) : string :=
  match s with
  | EmptyString => EmptyString
  | String c s' => if isWhiteSpace c then trimStart s' else s
  end.

Fixpoint trimEnd (s : string) : string :=
  match s with
  | EmptyString => EmptyString
  | String c s' =>
      match trimEnd s' with
      | EmptyString => if isWhiteSpace c then EmptyString else String c EmptyString
      | r => String c r
      end
  end.

(** [s.trim()] *)
Definition trim (s : string) : string := trimEnd (trimStart s).

(** Truthiness of a string value: the empty string is the only falsy one. *)
Definition truthy (s : string) : bool :=
  match s with
  | EmptyString => false
  | String _ _ => true
  end.

(** [c] lower-cased, for the letters A..Z. *)
Definition toLowerChar (c : ascii) : ascii :=
  let n := N_of_ascii c in
  if ((65 <=? n) && (n <=? 90))%N then ascii_of_N (n + 32) else c.

Fixpoint toLowerCase (s : string) : string :=
  match s with
  | EmptyString => EmptyString
  | String c s' => String (toLowerChar c) (toLowerCase s')
  end.

(** Some character of [s] is not white space. *)
Fixpoint hasInk (s : string) : bool :=
  match s with
  | EmptyString => false
  | String c s' => negb (isWhiteSpace c) || hasInk s'
  end.

End JsString.

(** ** Thrown values *)

(** A value caught by a [catch] clause.  [JsUndefined] is the value of an
    unassigned variable; [JsPrimitive] stands for any other value that is not
    an object ([null], a string, a number, a boolean); for an object,
    [instanceofError] is [error instanceof Error], [message] is
    [error.message] and [code] is [Some (String(error.code))] exactly when
    ['code' in error]. *)
Inductive JsValue : Type :=
| JsUndefined
| JsPrimitive (repr : string)
| JsObject (instanceofError : bool) (message : string) (code : option string).

(** What a pending promise settles to. *)
Inductive Settled (A : Type) : Type :=
| Fulfilled (v : A)
| Rejected (error : JsValue).
Arguments Fulfilled {A} v.
Arguments Rejected {A} error.

(** ** The batch queue ([class BatchQueue<T>]) *)

Module BatchQueue.
Section Queue.
Context {T : Type}.

(** The fields of a queue object that change or are read after
    construction.  [flushInterval] is [true] while the interval timer is
    armed ([this.flushInterval !== null]). *)
Record t : Type := mk {
  queue : list T;
  maxBatchSize : Z;
  isProcessing : bool;
  flushInterval : bool
}.

Definition set_queue (l : list T) (q : t) : t :=
  mk l (maxBatchSize q) (isProcessing q) (flushInterval q).
Definition set_isProcessing (b : bool) (q : t) : t :=
  mk (queue q) (maxBatchSize q) b (flushInterval q).
Definition set_flushInterval (b : bool) (q : t) : t :=
  mk (queue q) (maxBatchSize q) (isProcessing q) b.

(** [new BatchQueue(insertFn, maxBatchSize)]: the constructor arms the
    timer. *)
Definition new (maxBatchSize : Z) : t := mk [] maxBatchSize false true.

(** The classifier written out twice in the source (in [flush] and in the
    timer callback):
    [error && typeof error === 'object' && 'code' in error &&
     (String(error.code).includes('23505') || String(error.code).includes('23503'))]. *)
Definition isIgnorableError (error : JsValue) : bool :=
  match error with
  | JsObject _ _ (Some code) =>
      JsString.includes code "23505" || JsString.includes code "23503"
  | _ => false
  end.

Definition maxQueueSize : nat := 2000.

(** [flush], from its entry to [await this.insertFn(itemsToInsert)].
    [Some items] is the batch handed to [insertFn]; [None] means that
    [flush] returned without calling it. *)
Definition flush_begin (q : t) : t * option (list T) :=
  if isProcessing q || (length (queue q) =? 0)%nat then (q, None)
  else
    let q1 := set_isProcessing true q in
    let itemsToInsert := queue q1 in
    let q2 := set_queue [] q1 in
    if (length itemsToInsert =? 0)%nat then (set_isProcessing false q2, None)
    else (q2, Some itemsToInsert).

(** The lines of [console.error] output, by their fixed first argument. *)
Definition Console : Type := list string.

(** [flush], from the moment the promise of [insertFn(itemsToInsert)]
    settles: the [catch] clause, then [finally].  The second component is
    what the promise returned by [flush()] settles to. *)
Definition flush_settle (q : t) (itemsToInsert : list T) (outcome : Settled unit)
  : t * Settled unit * Console :=
  match outcome with
  | Fulfilled _ => (set_isProcessing false q, Fulfilled tt, [])
  | Rejected error =>
      if negb (isIgnorableError error) then
        if (length (queue q) <? maxQueueSize)%nat then
          (set_isProcessing false (set_queue (itemsToInsert ++ queue q) q),
           Rejected error,
           ["Batch insert error:"%string])
        else
          (set_isProcessing false (set_queue (take 1000 itemsToInsert ++ queue q) q),
           Rejected error,
           ["Batch insert error:"%string;
            "Queue too large, items will be retried on next flush"%string])
      else (set_isProcessing false q, Fulfilled tt, [])
  end.

(** What a call of [add] did besides pushing: nothing, or one call of
    [this.flush()], which handed [pending] to [insertFn] or was a no-op. *)
Inductive Triggered : Type :=
| NoFlush
| FlushCalled (pending : option (list T)).

(** [add(item)].  The promise of the triggered flush gets an empty
    [catch] handler, so [add] itself has no failure outcome. *)
Definition add (q : t) (item : T) : t * Triggered :=
  let q1 := set_queue (queue q ++ [item]) q in
  if (Z.of_nat (length (queue q1)) >=? maxBatchSize q1) then
    let '(q2, pending) := flush_begin q1 in (q2, FlushCalled pending)
  else (q1, NoFlush).

(** The callback given to [setInterval] in [startFlushInterval]. *)
Definition tick (q : t) : t * Triggered :=
  if (0 <? length (queue q))%nat then
    let '(q1, pending) := flush_begin q in (q1, FlushCalled pending)
  else (q, NoFlush).

(** [destroy()] *)
Definition destroy (q : t) : t * Triggered :=
  let q1 := if flushInterval q then set_flushInterval false q else q in
  if (0 <? length (queue q1))%nat then
    let '(q2, pending) := flush_begin q1 in (q2, FlushCalled pending)
  else (q1, NoFlush).

(** *** A queue together with its pending [insertFn] calls *)

(** Who called [flush()], which decides what happens to a rejection:
    [add] and [destroy] attach an empty [catch] handler, the timer callback
    one that logs, and any other caller receives the rejection. *)
Inductive Origin : Type := ByAdd | ByTimer | ByDestroy | ByCaller.

(** [inflight] lists the batches whose [insertFn] promise has not settled,
    oldest first, each with the origin of its [flush()] call; [submitted]
    logs every batch ever handed to [insertFn]; [flushCalls] counts the
    calls of [flush()]; [raised] collects the rejections delivered to
    outside callers of [flush()] and [console] what was written with
    [console.error]. *)
Record Sys : Type := mkSys {
  obj : t;
  inflight : list (Origin * list T);
  submitted : list (list T);
  flushCalls : nat;
  raised : list JsValue;
  console : Console
}.

Definition boot (maxBatchSize : Z) : Sys := mkSys (new maxBatchSize) [] [] 0 [] [].

(** One thing that can happen to a queue between two suspension points. *)
Inductive Op : Type :=
| Enqueue (item : T)               (* [add(item)] *)
| Flush                            (* [flush()] called from outside *)
| Tick                             (* the interval timer fires *)
| Settle (outcome : Settled unit)  (* the oldest pending [insertFn] settles *)
| Destroy.                         (* [destroy()] *)

Definition record (s : Sys) (by_ : Origin) (r : t * Triggered) : Sys :=
  match r with
  | (q, NoFlush) =>
      mkSys q (inflight s) (submitted s) (flushCalls s) (raised s) (console s)
  | (q, FlushCalled None) =>
      mkSys q (inflight s) (submitted s) (S (flushCalls s)) (raised s) (console s)
  | (q, FlushCalled (Some items)) =>
      mkSys q (inflight s ++ [(by_, items)]) (submitted s ++ [items])
        (S (flushCalls s)) (raised s) (console s)
  end.

(** The rejection handler of the timer callback. *)
Definition autoFlushLog (error : JsValue) : Console :=
  if negb (isIgnorableError error) then ["Auto-flush error:"%string] else [].

(** Where the settled promise of a [flush()] call goes. *)
Definition deliver (by_ : Origin) (result : Settled unit) : list JsValue * Console :=
  match result, by_ with
  | Fulfilled _, _ => ([], [])
  | Rejected error, ByCaller => ([error], [])
  | Rejected error, ByTimer => ([], autoFlushLog error)
  | Rejected error, (ByAdd | ByDestroy) => ([], [])
  end.

Definition step (s : Sys) (op : Op) : Sys :=
  match op with
  | Enqueue item => record s ByAdd (add (obj s) item)
  | Flush =>
      let '(q, pending) := flush_begin (obj s) in
      record s ByCaller (q, FlushCalled pending)
  | Tick => if flushInterval (obj s) then record s ByTimer (tick (obj s)) else s
  | Destroy => record s ByDestroy (destroy (obj s))
  | Settle outcome =>
      match inflight s with
      | [] => s
      | (by_, items) :: rest =>
          let '(q, result, out) := flush_settle (obj s) items outcome in
          let '(errors, logged) := deliver by_ result in
          mkSys q rest (submitted s) (flushCalls s)
            (raised s ++ errors) (console s ++ out ++ logged)
      end
  end.

Definition run (s : Sys) (ops : list Op) : Sys := fold_left step ops s.

(** [flush()] awaited by its caller while nothing else runs: [insertFn]
    settles to [outcome] and [during] is what was enqueued meanwhile by the
    thin entry points (each of which pushes and may call [flush], a no-op
    while the flag is set). *)
Definition flush_await (q : t) (during : list T) (outcome : Settled unit)
  : t * Settled unit :=
  match flush_begin q with
  | (q1, None) => (q1, Fulfilled tt)
  | (q1, Some items) =>
      let q2 := fold_left (fun q x => fst (add q x)) during q1 in
      let '(q3, result, _) := flush_settle q2 items outcome in
      (q3, result)
  end.

End Queue.
Arguments t : clear implicits.
Arguments Sys : clear implicits.
Arguments Op : clear implicits.
Arguments Triggered : clear implicits.
End BatchQueue.

(** ** The module-level queues and the enqueue entry points *)

Module Pipeline.

(** [interface ViewRecord].  The declared type of [linktree_id] and
    [ip_address] is [string], but [addView] tests them for being absent, so
    a field is [None] when it is [undefined] or [null]. *)
Record ViewRecord : Type := mkView {
  v_linktree_id : option string;
  v_ip_address : option string;
  v_session_id : option string;
  viewed_at : string
}.

(** [interface ClickRecord] *)
Record ClickRecord : Type := mkClick {
  c_link_id : option string;
  c_linktree_id : option string;
  c_ip_address : option string;
  c_session_id : option string;
  clicked_at : string
}.

(** [!x || !x.trim()] for a field [x]. *)
Definition blank (x : option string) : bool :=
  match x with
  | None => true
  | Some s => negb (JsString.truthy s) || negb (JsString.truthy (JsString.trim s))
  end.

(** The guard of [addView]:
    [!view || !view.linktree_id || !view.linktree_id.trim() ||
     !view.ip_address || !view.ip_address.trim()]. *)
Definition viewSkipped (view : option ViewRecord) : bool :=
  match view with
  | None => true
  | Some v => blank (v_linktree_id v) || blank (v_ip_address v)
  end.

(** The guard of [addClick]. *)
Definition clickSkipped (click : option ClickRecord) : bool :=
  match click with
  | None => true
  | Some c => blank (c_link_id c) || blank (c_linktree_id c) || blank (c_ip_address c)
  end.

(** The two module-level variables.  [serverSide] is
    [typeof window === 'undefined']. *)
Record Globals : Type := mkGlobals {
  serverSide : bool;
  viewQueue : option (BatchQueue.Sys ViewRecord);
  clickQueue : option (BatchQueue.Sys ClickRecord)
}.

(** [initializeQueues()]: both queues are built with batch size 1000. *)
Definition initializeQueues (g : Globals) : Globals :=
  if negb (serverSide g) then g
  else
    mkGlobals (serverSide g)
      (match viewQueue g with
       | None => Some (BatchQueue.boot 1000)
       | Some s => Some s
       end)
      (match clickQueue g with
       | None => Some (BatchQueue.boot 1000)
       | Some s => Some s
       end).

(** How the promise of an entry point ends. *)
Inductive Returned : Type :=
| Normally
| Raising (error : JsValue).

(** [addView(view)].  The guard runs before anything else; the [await] of
    [initializeQueues()] that may follow it touches neither the argument nor
    the verdict of the guard, so the call is taken in one piece. *)
Definition addView (g : Globals) (view : option ViewRecord) : Globals * Returned :=
  match view with
  | None => (g, Normally)
  | Some v =>
      if viewSkipped (Some v) then (g, Normally)
      else
        let g1 := match viewQueue g with
                  | None => initializeQueues g
                  | Some _ => g
                  end in
        match viewQueue g1 with
        | Some s =>
            (mkGlobals (serverSide g1)
               (Some (BatchQueue.step s (BatchQueue.Enqueue v))) (clickQueue g1),
             Normally)
        | None => (g1, Normally)
        end
  end.

(** [addClick(click)] *)
Definition addClick (g : Globals) (click : option ClickRecord) : Globals * Returned :=
  match click with
  | None => (g, Normally)
  | Some c =>
      if clickSkipped (Some c) then (g, Normally)
      else
        let g1 := match clickQueue g with
                  | None => initializeQueues g
                  | Some _ => g
                  end in
        match clickQueue g1 with
        | Some s =>
            (mkGlobals (serverSide g1) (viewQueue g1)
               (Some (BatchQueue.step s (BatchQueue.Enqueue c))),
             Normally)
        | None => (g1, Normally)
        end
  end.

(** Everything that touches the two queues: the entry points, the calls of
    [flush()] made by [flushAllQueues] and at shutdown, the timers, the
    settling of the pending inserts, [destroy()] and [initializeQueues()]. *)
Inductive Event : Type :=
| AddView (view : option ViewRecord)
| AddClick (click : option ClickRecord)
| Initialize
| OnViews (op : BatchQueue.Op ViewRecord)
| OnClicks (op : BatchQueue.Op ClickRecord).

(** An operation applied from outside to a queue: everything but [add],
    which only the entry points call. *)
Definition external {T : Type} (op : BatchQueue.Op T) : bool :=
  match op with
  | BatchQueue.Enqueue _ => false
  | _ => true
  end.

Definition react (g : Globals) (e : Event) : Globals :=
  match e with
  | AddView view => fst (addView g view)
  | AddClick click => fst (addClick g click)
  | Initialize => initializeQueues g
  | OnViews op =>
      if external op then
        mkGlobals (serverSide g)
          (option_map (fun s => BatchQueue.step s op) (viewQueue g)) (clickQueue g)
      else g
  | OnClicks op =>
      if external op then
        mkGlobals (serverSide g) (viewQueue g)
          (option_map (fun s => BatchQueue.step s op) (clickQueue g))
      else g
  end.

(** The state at module load, before [initializeQueues] has run. *)
Definition loaded (server : bool) : Globals := mkGlobals server None None.

Definition history (server : bool) (es : list Event) : Globals :=
  fold_left react es (loaded server).

(** Every event a queue holds or has handed to [insertFn]. *)
Definition held {T : Type} (s : option (BatchQueue.Sys T)) : list T :=
  match s with
  | None => []
  | Some s =>
      BatchQueue.queue (BatchQueue.obj s) ++ concat (BatchQueue.submitted s)
  end.

End Pipeline.

(** ** [retryWithBackoff] *)

Module Retry.
Section Wrapper.
Context {A : Type}.

(** [isTimeoutError] of the [catch] clause. *)
Definition isTimeoutError (error : JsValue) : bool :=
  match error with
  | JsObject true message _ =>
      JsString.includes message "timeout" ||
      JsString.includes message "TIMEOUT" ||
      JsString.includes message "Connect Timeout" ||
      JsString.includes message "fetch failed"
  | _ => false
  end.

(** A finished call of the wrapper: what its promise settled to, the
    arguments of the [setTimeout] sleeps in the order they were made, and
    the number of calls of [fn]. *)
Record Run : Type := mkRun {
  outcome : Settled A;
  delays : list Z;
  calls : nat
}.

(** The [for] loop.  [fn k] is what the [k]-th call of [fn()] settles to
    (counting from 0), [attempt] and [lastError] are the loop variables,
    [slept] the sleeps made so far.  [fuel] bounds the iterations; [None]
    means it ran out before the loop ended. *)
Fixpoint loop (fn : nat -> Settled A) (maxRetries initialDelay : Z)
    (fuel : nat) (attempt : Z) (lastError : JsValue) (slept : list Z) (called : nat)
  : option Run :=
  if attempt <=? maxRetries then
    match fuel with
    | O => None
    | S fuel' =>
        match fn called with
        | Fulfilled v => Some (mkRun (Fulfilled v) slept (S called))
        | Rejected error =>
            if isTimeoutError error && (attempt <? maxRetries) then
              let delay := initialDelay * 2 ^ attempt in
              loop fn maxRetries initialDelay fuel' (attempt + 1) error
                (slept ++ [delay]) (S called)
            else Some (mkRun (Rejected error) slept (S called))
        end
    end
  else Some (mkRun (Rejected lastError) slept called).

(** [retryWithBackoff(fn, maxRetries, initialDelay)].  The loop makes at
    most [maxRetries + 1] iterations. *)
Definition retryWithBackoff (fn : nat -> Settled A) (maxRetries initialDelay : Z)
  : option Run :=
  loop fn maxRetries initialDelay (Z.to_nat (maxRetries + 1)) 0 JsUndefined [] 0.

(** The classification as the specification words it: the message contains
    "timeout" in any letter case, or "connect timeout", or "fetch failed". *)
Definition spec_retryable (message : string) : bool :=
  JsString.includes (JsString.toLowerCase message) "timeout" ||
  JsString.includes message "connect timeout" ||
  JsString.includes message "fetch failed".

End Wrapper.
Arguments Run : clear implicits.
End Retry.

(** ** [generateUid] and the uid loop of [createLinktree] *)

Module Uid.

Definition uidAlphabet : string := "abcdefghijklmnopqrstuvwxyz0123456789-".

(** Where the random indices come from.  [CryptoRandom rv]: the branch with
    [crypto.getRandomValues], element [i] of the [Uint32Array] being
    [rv i mod 2^32].  [MathRandom d]: the fallback branch, the [i]-th call of
    [Math.random()] returning the double [(d i mod 2^53) / 2^53]. *)
Inductive RandomSource : Type :=
| CryptoRandom (randomValues : nat -> N)
| MathRandom (draws : nat -> N).

(** Numbers of the fallback branch are doubles, written here as multiples of
    [2^-53]: [n] stands for [n / 2^53].  [roundToDouble n] is the double
    nearest to [n / 2^53], which is what a floating-point operation with that
    exact result returns: [n] itself when it has at most 53 significant bits,
    otherwise [n] rounded to 53 significant bits, a tie going to the even
    significand. *)
Definition roundToDouble (n : N) : N :=
  if (n <? 2 ^ 53)%N then n
  else
    let e := (N.log2 n - 52)%N in
    let q := (n / 2 ^ e)%N in
    let r := (n mod 2 ^ e)%N in
    let half := (2 ^ (e - 1))%N in
    let q' := if (half <? r)%N || ((r =? half)%N && N.odd q) then (q + 1)%N else q in
    (q' * 2 ^ e)%N.

(** [Math.random() * uidAlphabet.length] for the draw [d / 2^53]: the
    double nearest to the exact product. *)
Definition timesLength (d : N) : N :=
  roundToDouble (d * N.of_nat (String.length uidAlphabet)).

(** [Math.floor(x)] for the double [x / 2^53]. *)
Definition floor (x : N) : N := (x / 2 ^ 53)%N.

Definition pick (src : RandomSource) (i : nat) : nat :=
  match src with
  | CryptoRandom randomValues =>
      N.to_nat ((randomValues i mod 2 ^ 32) mod N.of_nat (String.length uidAlphabet))
  | MathRandom draws =>
      N.to_nat (floor (timesLength (draws i mod 2 ^ 53)))
  end.

(** [result += uidAlphabet[k]]; an index outside the string reads
    [undefined], which [+=] appends as text. *)
Definition appendAt (result : string) (k : nat) : string :=
  match String.get k uidAlphabet with
  | Some c => result +:+ String c EmptyString
  | None => result +:+ "undefined"
  end.

Fixpoint fill (src : RandomSource) (i n : nat) (result : string) : string :=
  match n with
  | O => result
  | S n' => fill src (S i) n' (appendAt result (pick src i))
  end.

(** [generateUid(length)] *)
Definition generateUid (src : RandomSource) (length : nat) : string :=
  fill src 0 length EmptyString.

(** [query("SELECT id FROM linktrees WHERE uid = $1", [uid])]: it throws,
    or it returns a result whose [rows] may be missing. *)
Inductive QueryOutcome : Type :=
| QueryRows (rows : option (list string))
| QueryThrows (error : JsValue).

(** [!existingResult.rows || existingResult.rows.length === 0] *)
Definition noRows (rows : option (list string)) : bool :=
  match rows with
  | None => true
  | Some l => (length l =? 0)%nat
  end.

Definition maxAttempts : nat := 10.

(** The error thrown after the loop; the specification calls it
    [GenerationExhausted]. *)
Definition GenerationExhausted : JsValue :=
  JsObject true "Failed to generate unique identifier after multiple attempts" None.

(** How the [while] loop ends: it exits with the loop variables [uid] and
    [attempts], or the query throws.  [generated] counts the calls of
    [generateUid()]. *)
Inductive LoopEnd : Type :=
| Exited (uid : option string) (attempts generated : nat)
| Threw (error : JsValue) (generated : nat).

(** The [while] loop.  [rng k] feeds the [k]-th call of [generateUid()] and
    [lookup k] answers the [k]-th query, counting from 0.  [fuel] bounds the
    iterations; [None] means it ran out before the loop ended. *)
Fixpoint rolling (rng : nat -> RandomSource) (lookup : nat -> string -> QueryOutcome)
    (fuel : nat) (attempts generated : nat) : option LoopEnd :=
  if (attempts <? maxAttempts)%nat then
    match fuel with
    | O => None
    | S fuel' =>
        let uid := generateUid (rng generated) 21 in
        match lookup generated uid with
        | QueryThrows error => Some (Threw error (S generated))
        | QueryRows rows =>
            if noRows rows then Some (Exited (Some uid) attempts (S generated))
            else rolling rng lookup fuel' (S attempts) (S generated)
        end
    end
  else Some (Exited None attempts generated).

(** [createLinktree] up to the value of [uid] that it goes on to insert (or
    the error it throws before that), paired with the number of calls of
    [generateUid()]. *)
Definition createLinktree_uid (rng : nat -> RandomSource)
    (lookup : nat -> string -> QueryOutcome) : option (Settled string * nat) :=
  match rolling rng lookup maxAttempts 0 0 with
  | None => None
  | Some (Threw error generated) => Some (Rejected error, generated)
  | Some (Exited uid attempts generated) =>
      match uid with
      | Some u =>
          if negb (JsString.truthy u) || (maxAttempts <=? attempts)%nat
          then Some (Rejected GenerationExhausted, generated)
          else Some (Fulfilled u, generated)
      | None => Some (Rejected GenerationExhausted, generated)
      end
  end.

(** A lowercase letter, a digit or the hyphen. *)
Definition lowerDigitHyphen (c : ascii) : bool :=
  let n := N_of_ascii c in
  ((97 <=? n) && (n <=? 122) || (48 <=? n) && (n <=? 57) || (n =? 45))%N.

(** A character of an identifier: one of the alphabet, which makes it a
    lowercase letter, a digit or the hyphen. *)
Definition uidChar (c : ascii) : Prop :=
  c ∈ list_ascii_of_string uidAlphabet /\ lowerDigitHyphen c = true.

(** The [j]-th lookup finds the [j]-th generated identifier taken. *)
Definition collides (rng : nat -> RandomSource) (lookup : nat -> string -> QueryOutcome)
    (j : nat) : Prop :=
  exists rows, lookup j (generateUid (rng j) 21) = QueryRows rows /\ noRows rows = false.

(** The [j]-th lookup finds the [j]-th generated identifier free. *)
Definition unique (rng : nat -> RandomSource) (lookup : nat -> string -> QueryOutcome)
    (j : nat) : Prop :=
  exists rows, lookup j (generateUid (rng j) 21) = QueryRows rows /\ noRows rows = true.

(** A lookup stub that reports a collision on the first [n] queries and no
    row afterwards. *)
Definition collidingFirst (n : nat) : nat -> string -> QueryOutcome :=
  fun j uid => if (j <? n)%nat then QueryRows (Some [uid]) else QueryRows (Some []).

End Uid.

(** ** Invariants and sample data *)

Module Inv.
Section Inv.
Import BatchQueue.
Context {T : Type}.

(** The flag is set exactly while one [insertFn] call is pending. *)
Definition Exclusive (s : Sys T) : Prop :=
  if isProcessing (obj s) then exists b, inflight s = [b] else inflight s = [].

(** The events of the pending batches, oldest batch first. *)
Definition pending (s : Sys T) : list T := concat (map snd (inflight s)).

(** Every event the queue holds, has pending or has ever submitted
    satisfies [P]. *)
Definition Clean (P : T -> Prop) (s : Sys T) : Prop :=
  Forall P (queue (obj s)) /\ Forall P (pending s) /\ Forall P (concat (submitted s)).

(** The events passed to [add] by a sequence of operations. *)
Fixpoint enqueued (ops : list (Op T)) : list T :=
  match ops with
  | [] => []
  | Enqueue x :: ops' => x :: enqueued ops'
  | _ :: ops' => enqueued ops'
  end.

(** No event is twice among the pending and the buffered ones, and all of
    them are among [seen]. *)
Definition Apart (seen : list T) (s : Sys T) : Prop :=
  NoDup (pending s ++ queue (obj s)) /\
  forall x, x ∈ pending s ++ queue (obj s) -> x ∈ seen.

(** A step that calls [flush()] on the object [q]. *)
Definition flushing (s : Sys T) (by_ : Origin) (q : BatchQueue.t T) : Sys T :=
  let '(q', pending) := flush_begin q in record s by_ (q', FlushCalled pending).

(** The state after enqueueing [items] without any flush. *)
Definition pushed (s : Sys T) (items : list T) : Sys T :=
  mkSys (set_queue (queue (obj s) ++ items) (obj s))
    (inflight s) (submitted s) (flushCalls s) (raised s) (console s).

End Inv.
End Inv.

Module Valid.
Import Pipeline.

(** A required reference field that is there and not empty after trimming. *)
Definition present (x : option string) : Prop :=
  exists s, x = Some s /\ JsString.trim s <> EmptyString.

Definition validView (v : ViewRecord) : Prop :=
  present (v_linktree_id v) /\ present (v_ip_address v).

Definition validClick (c : ClickRecord) : Prop :=
  present (c_link_id c) /\ present (c_linktree_id c) /\ present (c_ip_address c).

(** Both queues, where they exist, hold and have submitted valid events only. *)
Definition Tidy (g : Globals) : Prop :=
  (forall s, viewQueue g = Some s -> Inv.Clean validView s)
  /\ (forall s, clickQueue g = Some s -> Inv.Clean validClick s).

End Valid.

Module Schedule.

(** The sleeps before retries [0 .. k-1]: [initialDelay * 2^n] for retry [n]. *)
Definition backoff (initialDelay : Z) (from k : nat) : list Z :=
  map (fun n => initialDelay * 2 ^ Z.of_nat n) (seq from k).

(** An operation that fails with [errors], one call after the other, and
    succeeds with [v] from then on. *)
Definition flaky {A : Type} (errors : list JsValue) (v : A) : nat -> Settled A :=
  fun k => match errors !! k with
           | Some error => Rejected error
           | None => Fulfilled v
           end.

(** The calls [from .. from+k-1] of [fn] all fail with a timeout-classified
    error. *)
Definition timeouts {A : Type} (fn : nat -> Settled A) (from k : nat) : Prop :=
  forall j, (from <= j < from + k)%nat ->
    exists error, fn j = Rejected error /\ Retry.isTimeoutError error = true.

End Schedule.

Module Sample.

(** [count] events numbered from [from]. *)
Definition ids (from count : nat) : list N := map N.of_nat (seq from count).

Definition networkError : JsValue := JsObject true "fetch failed" None.
Definition timeoutError : JsValue := JsObject true "Connect Timeout Error" None.
Definition duplicateKey : JsValue :=
  JsObject true "duplicate key value violates unique constraint" (Some "23505"%string).

(** A fresh queue with batch size 1000 receives 1000 events, which starts a
    flush, and 1500 more while that flush is pending. *)
Definition burst : list (BatchQueue.Op N) := map BatchQueue.Enqueue (ids 0 2500).

End Sample.

(** ** The [insertFn] closures built by [initializeQueues] *)

Module Insert.
Import Pipeline.

(** A value bound to a statement parameter. *)
Inductive SqlValue : Type :=
| SqlText (s : string)
| SqlNull.

(** A call of [query(text, values)]. *)
Record QueryCall : Type := mkCall {
  text : string;
  values : list SqlValue
}.

(** [a.join(sep)] *)
Fixpoint join (sep : string) (l : list string) : string :=
  match l with
  | [] => EmptyString
  | [x] => x
  | x :: rest => x +:+ sep +:+ join sep rest
  end.

(** The text of [`$${i}`]. *)
Definition dollar (i : nat) : string :=
  "$" +:+ NilZero.string_of_uint (Nat.to_uint i).

(** One entry of [placeholders]: the template literal
    [`($${paramIndex++}, ..., $${paramIndex++})`] with [width] parameters,
    [paramIndex] being [start] before it is evaluated. *)
Definition tuple (start width : nat) : string :=
  "(" +:+ join ", " (map dollar (seq start width)) +:+ ")".

(** A field as a parameter value. *)
Definition ofField (x : option string) : SqlValue :=
  match x with
  | Some s => SqlText s
  | None => SqlNull
  end.

(** [x || null] for an optional string [x]. *)
Definition orNull (x : option string) : SqlValue :=
  match x with
  | Some s => if JsString.truthy s then SqlText s else SqlNull
  | None => SqlNull
  end.

(** [x && x.trim()] as a condition, for a field [x]. *)
Definition filled (x : option string) : bool :=
  match x with
  | Some s => JsString.truthy s && JsString.truthy (JsString.trim s)
  | None => false
  end.

(** The predicate of [items.filter] in the view closure. *)
Definition viewKept (item : ViewRecord) : bool :=
  filled (v_linktree_id item) && filled (v_ip_address item).

(** The predicate of [items.filter] in the click closure. *)
Definition clickKept (item : ClickRecord) : bool :=
  filled (c_link_id item) && filled (c_linktree_id item) && filled (c_ip_address item).

(** What [values.push(...)] appends for one view. *)
Definition viewValues (item : ViewRecord) : list SqlValue :=
  [ofField (v_linktree_id item); ofField (v_ip_address item);
   orNull (v_session_id item); SqlText (viewed_at item)].

(** What [values.push(...)] appends for one click. *)
Definition clickValues (item : ClickRecord) : list SqlValue :=
  [ofField (c_link_id item); ofField (c_linktree_id item); ofField (c_ip_address item);
   orNull (c_session_id item); SqlText (clicked_at item)].

(** The [for (const item of validItems)] loop: [width] parameters per item,
    [paramIndex], [placeholders] and [values] being the loop variables. *)
Fixpoint collect {T : Type} (width : nat) (row : T -> list SqlValue) (validItems : list T)
    (paramIndex : nat) (placeholders : list string) (values : list SqlValue)
  : list string * list SqlValue :=
  match validItems with
  | [] => (placeholders, values)
  | item :: rest =>
      collect width row rest (paramIndex + width)
        (placeholders ++ [tuple paramIndex width]) (values ++ row item)
  end.

(** The statement text around [placeholders.join(', ')]; line breaks and
    indentation of the template literal are written as single spaces. *)
Definition statement (head : string) (placeholders : list string) : string :=
  head +:+ " VALUES " +:+ join ", " placeholders +:+ " ON CONFLICT DO NOTHING".

Definition viewHead : string :=
  "INSERT INTO page_views (linktree_id, ip_address, session_id, viewed_at)".
Definition clickHead : string :=
  "INSERT INTO link_clicks (link_id, linktree_id, ip_address, session_id, clicked_at)".

(** [error && typeof error === 'object' && 'code' in error ? String(error.code) : ''] *)
Definition errorCode (error : JsValue) : string :=
  match error with
  | JsObject _ _ (Some code) => code
  | _ => EmptyString
  end.

(** The [catch] clause of a closure: what its promise settles to when the
    promise of [query] settles to [db]. *)
Definition caught (db : Settled unit) : Settled unit :=
  match db with
  | Fulfilled _ => Fulfilled tt
  | Rejected error =>
      if negb (JsString.includes (errorCode error) "23505")
         && negb (JsString.includes (errorCode error) "23503")
      then Rejected error
      else Fulfilled tt
  end.

(** A closure: the call of [query] it makes, if any, and what its promise
    settles to when the promise of that call settles to [db]. *)
Definition insertFn {T : Type} (kept : T -> bool) (width : nat) (row : T -> list SqlValue)
    (head : string) (items : list T) (db : Settled unit)
  : option QueryCall * Settled unit :=
  if (length items =? 0)%nat then (None, Fulfilled tt)
  else
    let validItems := List.filter kept items in
    if (length validItems =? 0)%nat then (None, Fulfilled tt)
    else
      let '(placeholders, values) := collect width row validItems 1 [] [] in
      (Some (mkCall (statement head placeholders) values), caught db).

(** The closure given to [new BatchQueue<ViewRecord>]. *)
Definition viewInsertFn : list ViewRecord -> Settled unit -> option QueryCall * Settled unit :=
  insertFn viewKept 4 viewValues viewHead.

(** The closure given to [new BatchQueue<ClickRecord>]. *)
Definition clickInsertFn : list ClickRecord -> Settled unit -> option QueryCall * Settled unit :=
  insertFn clickKept 5 clickValues clickHead.

End Insert.

Module Lift.
Import Pipeline.

(** [Iv] holds of the view queue and [Ic] of the click queue, where they
    exist. *)
Definition Both (Iv : BatchQueue.Sys ViewRecord -> Prop)
    (Ic : BatchQueue.Sys ClickRecord -> Prop) (g : Globals) : Prop :=
  (forall s, viewQueue g = Some s -> Iv s) /\ (forall s, clickQueue g = Some s -> Ic s).

End Lift.

(** ** [flushAllQueues] and the shutdown handlers *)

Module Drain.
Import Pipeline.

(** Not the firing of the interval timer. *)
Definition notTick {T : Type} (op : BatchQueue.Op T) : bool :=
  match op with
  | BatchQueue.Tick => false
  | _ => true
  end.

(** [flushAllQueues()] up to [await Promise.all(flushPromises)]: both calls of
    [flush()] are made before anything is awaited.  Their rejections are
    delivered when the pending inserts settle. *)
Definition flushAllQueues (g : Globals) : Globals :=
  if negb (serverSide g) then g
  else
    let g1 := initializeQueues g in
    mkGlobals (serverSide g1)
      (option_map (fun s => BatchQueue.step s BatchQueue.Flush) (viewQueue g1))
      (option_map (fun s => BatchQueue.step s BatchQueue.Flush) (clickQueue g1)).

(** [await queue.flush()] with nothing else running meanwhile: the queue
    afterwards and what the awaited promise settled to, [outcome] being what
    the insert settles to if one is started. *)
Definition awaited {T : Type} (s : BatchQueue.Sys T) (outcome : Settled unit)
  : BatchQueue.Sys T * Settled unit :=
  match BatchQueue.flush_begin (BatchQueue.obj s) with
  | (_, None) => (BatchQueue.step s BatchQueue.Flush, Fulfilled tt)
  | (_, Some items) =>
      let s1 := BatchQueue.step s BatchQueue.Flush in
      (BatchQueue.step s1 (BatchQueue.Settle outcome),
       snd (fst (BatchQueue.flush_settle (BatchQueue.obj s1) items outcome)))
  end.

(** One [if (queue) { await queue.flush(); queue.destroy(); }] of [flushAll]:
    a rejected flush ends [flushAll] before [destroy()]. *)
Definition drainOne {T : Type} (s : option (BatchQueue.Sys T)) (outcome : Settled unit)
  : option (BatchQueue.Sys T) * Settled unit :=
  match s with
  | None => (None, Fulfilled tt)
  | Some s =>
      match awaited s outcome with
      | (s1, Rejected error) => (Some s1, Rejected error)
      | (s1, Fulfilled _) => (Some (BatchQueue.step s1 BatchQueue.Destroy), Fulfilled tt)
      end
  end.

(** [flushAll()] of the shutdown handlers, [views] and [clicks] being what
    the inserts of the two queues settle to. *)
Definition flushAll (g : Globals) (views clicks : Settled unit) : Globals * Settled unit :=
  match drainOne (viewQueue g) views with
  | (v1, Rejected error) => (mkGlobals (serverSide g) v1 (clickQueue g), Rejected error)
  | (v1, Fulfilled _) =>
      let '(c1, result) := drainOne (clickQueue g) clicks in
      (mkGlobals (serverSide g) v1 c1, result)
  end.

(** The handler of [SIGTERM] and [SIGINT]: [true] when [process.exit(0)] is
    reached. *)
Definition onSignal (g : Globals) (views clicks : Settled unit) : Globals * bool :=
  match flushAll g views clicks with
  | (g1, Fulfilled _) => (g1, true)
  | (g1, Rejected _) => (g1, false)
  end.

(** Sample events. *)
Definition sampleView (ip : string) : ViewRecord :=
  mkView (Some "page-1"%string) (Some ip) None "2024-01-01T00:00:00.000Z".
Definition sampleClick (ip : string) : ClickRecord :=
  mkClick (Some "link-1"%string) (Some "page-1"%string) (Some ip) None
    "2024-01-01T00:00:00.000Z".

End Drain.

(** ** Callers of [retryWithBackoff] *)

Module Reads.
Section Reads.
Context {Link : Type}.

(** [result.rows || []] *)
Definition rowsOrEmpty (rows : option (list Link)) : list Link :=
  match rows with
  | Some l => l
  | None => []
  end.

(** [getLinksByLinktreeId(linktreeId)]: the wrapped operation runs the
    query and returns its rows; [db k] is what the [k]-th call of [query]
    settles to.  The wrapper is called with its default arguments. *)
Definition getLinksByLinktreeId (db : nat -> Settled (option (list Link)))
  : option (Retry.Run (list Link)) :=
  Retry.retryWithBackoff
    (fun k => match db k with
              | Fulfilled rows => Fulfilled (rowsOrEmpty rows)
              | Rejected error => Rejected error
              end)
    3 1000.

End Reads.

(** The sum of the sleeps. *)
Definition total (delays : list Z) : Z := fold_right Z.add 0 delays.

End Reads.

(** ** Default messages of links *)

Module Messages.

Definition messagingPlatforms : list string := ["whatsapp"; "telegram"; "viber"]%string.

(** [messagingPlatforms.includes(platform)] *)
Definition isMessaging (platform : string) : bool :=
  existsb (String.eqb platform) messagingPlatforms.

(** Truthiness of an optional string: absent and empty are falsy. *)
Definition given (x : option string) : bool :=
  match x with
  | Some s => JsString.truthy s
  | None => false
  end.

(** [getDefaultMessageForPlatform(platform, customMessage)]; [None] is
    [null]. *)
Definition getDefaultMessageForPlatform (platform : string) (customMessage : option string)
  : option string :=
  if given customMessage then customMessage
  else if isMessaging platform then Some EmptyString
  else None.

(** [finalDefaultMessage] of [createLink]:
    [defaultMessage || (messagingPlatforms.includes(platform) ? "" : null)]. *)
Definition createLink_defaultMessage (platform : string) (defaultMessage : option string)
  : option string :=
  if given defaultMessage then defaultMessage
  else if isMessaging platform then Some EmptyString else None.

(** A link given to [batchCreateLinks]; [metadata] is the JSON text of the
    object when there is one. *)
Record NewLink : Type := mkNewLink {
  linktree_id : string;
  platform : string;
  url : string;
  display_order : Z;
  display_name : option string;
  description : option string;
  default_message : option string;
  metadata : option string
}.

(** A value bound to a statement parameter of these statements. *)
Inductive Param : Type :=
| PText (s : string)
| PNum (n : Z)
| PNull.

(** [x || null] *)
Definition orNull (x : option string) : Param :=
  if given x then match x with Some s => PText s | None => PNull end else PNull.

(** [JSON.stringify(metadata || {})] *)
Definition stringified (metadata : option string) : Param :=
  match metadata with
  | Some json => PText json
  | None => PText "{}"
  end.

(** The element of [linksToInsert] made from [link]: only [default_message]
    and [metadata] are replaced. *)
Definition prepared (link : NewLink) : NewLink :=
  mkNewLink (linktree_id link) (platform link) (url link) (display_order link)
    (display_name link) (description link)
    (createLink_defaultMessage (platform link) (default_message link))
    (Some (match metadata link with Some json => json | None => "{}"%string end)).

(** What [values.push(...)] appends for one element of [linksToInsert]. *)
Definition row (link : NewLink) : list Param :=
  [PText (linktree_id link); PText (platform link); PText (url link);
   orNull (display_name link); orNull (description link); orNull (default_message link);
   PNum (display_order link); PNum 0; stringified (metadata link)].

(** One entry of [placeholders]: nine parameters, the last cast to [jsonb]. *)
Definition tuple9 (start : nat) : string :=
  "(" +:+ Insert.join ", " (map Insert.dollar (seq start 9)) +:+ "::jsonb)".

(** The [for (const link of linksToInsert)] loop. *)
Fixpoint collect (links : list NewLink) (paramIndex : nat)
    (placeholders : list string) (values : list Param) : list string * list Param :=
  match links with
  | [] => (placeholders, values)
  | link :: rest =>
      collect rest (paramIndex + 9) (placeholders ++ [tuple9 paramIndex]) (values ++ row link)
  end.

(** [batchCreateLinks(links)] up to its call of [query]: [None] when it
    returns [[]] without calling it, else the placeholder groups and the
    values of the call. *)
Definition batchCreateLinks (links : list NewLink) : option (list string * list Param) :=
  if (length links =? 0)%nat then None
  else Some (collect (map prepared links) 1 [] []).

End Messages.

(** ** Identifier checks before deleting links *)

Module Uuid.

(** [[0-9a-f]] under the [i] flag. *)
Definition isHex (c : ascii) : bool :=
  let n := N_of_ascii c in
  ((48 <=? n) && (n <=? 57) || (97 <=? n) && (n <=? 102) || (65 <=? n) && (n <=? 70))%N.

(** [[0-9a-f]{n}]: what is left of [s] after [n] hexadecimal digits. *)
Fixpoint hexRun (n : nat) (s : string) : option string :=
  match n with
  | O => Some s
  | S n' =>
      match s with
      | String c s' => if isHex c then hexRun n' s' else None
      | EmptyString => None
      end
  end.

(** [-]: what is left of [s] after a hyphen. *)
Definition dash (s : string) : option string :=
  match s with
  | String c s' => if Ascii.eqb c "-" then Some s' else None
  | EmptyString => None
  end.

(** [uuidRegex.test(s)] for
    [/^[0-9a-f]{8}-[0-9a-f]{4}-[0-9a-f]{4}-[0-9a-f]{4}-[0-9a-f]{12}$/i]. *)
Definition test (s : string) : bool :=
  match ((((((((hexRun 8 s ≫= dash) ≫= hexRun 4) ≫= dash) ≫= hexRun 4) ≫= dash)
            ≫= hexRun 4) ≫= dash) ≫= hexRun 12) with
  | Some EmptyString => true
  | _ => false
  end.

(** What [query("DELETE ...")] settles to: a result with its [rowCount], or
    an error. *)
Inductive Deletion : Type :=
| Deleted (rowCount : nat)
| DeleteThrows (error : JsValue).

Definition linkNotFound : JsValue := JsObject true "Link not found" None.



(** [deleteLink(id)] *)
Definition deleteLink (id : string) (db : Deletion) : option string * Settled unit :=
  (Some id,
   match db with
   | DeleteThrows error => Rejected error
   | Deleted rowCount => if (rowCount =? 0)%nat then Rejected linkNotFound else Fulfilled tt
   end).


End Uuid.

(** ** The dynamic [UPDATE] statements *)

Module Update.

Inductive Value : Type :=
| VText (s : string)
| VBool (b : bool)
| VNum (n : Z)
| VNull.

(** One [if (data.x !== undefined) { updateFields.push(...); updateValues.push(...) }]:
    the column, the text after the placeholder, and the value pushed, [None]
    when [data.x] is [undefined]. *)
Record Slot : Type := mkSlot {
  column : string;
  cast : string;
  pushed : option Value
}.

(** The text of [`column = $${paramIndex}cast`]. *)
Definition assignment (sl : Slot) (paramIndex : nat) : string :=
  column sl +:+ " = " +:+ Insert.dollar paramIndex +:+ cast sl.

(** The sequence of [if]s, [paramIndex], [updateFields] and [updateValues]
    being the variables they update. *)
Fixpoint assign (slots : list Slot) (paramIndex : nat)
    (updateFields : list string) (updateValues : list Value)
  : nat * list string * list Value :=
  match slots with
  | [] => (paramIndex, updateFields, updateValues)
  | sl :: rest =>
      match pushed sl with
      | None => assign rest paramIndex updateFields updateValues
      | Some v =>
          assign rest (S paramIndex) (updateFields ++ [assignment sl paramIndex])
            (updateValues ++ [v])
      end
  end.

(** The [UPDATE] that is sent: the entries of [SET], the parameter number in
    [WHERE id = $n], and the bound values. *)
Record Statement : Type := mkStatement {
  sets : list string;
  whereIndex : nat;
  values : list Value
}.

(** [data] of [updateLinktree]; the outer [None] is [undefined], an inner
    [None] is [null]; [template_config] is the JSON text of the object. *)
Record UpdateLinktreeData : Type := mkLinktreeData {
  name : option string;
  subtitle : option string;
  slug : option string;
  image : option (option string);
  background_color : option string;
  template_config : option (option string);
  footer_text : option (option string);
  footer_phone : option (option string);
  footer_hidden : option bool
}.

(** The subtitle used when an empty one is given. *)
Definition defaultSubtitle : string :=
  "بۆ پەیوەندی کردن, کلیک لەم لینکانەی خوارەوە بکە".

(** [x ?? null] *)
Definition nullish (x : option string) : Value :=
  match x with
  | Some s => VText s
  | None => VNull
  end.

(** [JSON.stringify(x || {})] *)
Definition stringified (x : option string) : Value :=
  match x with
  | Some json => VText json
  | None => VText "{}"
  end.

Definition linktreeSlots (data : UpdateLinktreeData) : list Slot :=
  [mkSlot "name" "::varchar" (option_map VText (name data));
   mkSlot "subtitle" "::text"
     (option_map (fun s => VText (if JsString.truthy s then s else defaultSubtitle))
        (subtitle data));
   mkSlot "seo_name" "::varchar" (option_map VText (slug data));
   mkSlot "image" "::text" (option_map nullish (image data));
   mkSlot "background_color" "::varchar" (option_map VText (background_color data));
   mkSlot "template_config" "::jsonb" (option_map stringified (template_config data));
   mkSlot "footer_text" "::text" (option_map nullish (footer_text data));
   mkSlot "footer_phone" "::text" (option_map nullish (footer_phone data));
   mkSlot "footer_hidden" "::boolean" (option_map VBool (footer_hidden data))].

(** What [query("SELECT image FROM linktrees WHERE id = $1", [id])] settles
    to: it throws, or it returns a result, given by the [image] of its rows;
    [rows] is [None] when the result has no [rows]. *)
Inductive ImageLookup : Type :=
| ImageRows (rows : option (list (option string)))
| ImageThrows (error : JsValue).

(** The [TypeError] of [existingResult.rows.length] when [rows] is
    [undefined]. *)
Definition rowsUndefined : JsValue :=
  JsObject true "Cannot read properties of undefined (reading 'length')" None.

(** The first [if]: what it throws, if it throws.  The query is made only
    when [data.image] is given; [oldImagePath], which it sets, is not read
    afterwards. *)
Definition readOldImage (data : UpdateLinktreeData) (existing : ImageLookup)
  : option JsValue :=
  match image data with
  | None => None
  | Some _ =>
      match existing with
      | ImageThrows error => Some error
      | ImageRows None => Some rowsUndefined
      | ImageRows (Some _) => None
      end
  end.

(** How far [updateLinktree] gets: it throws before the statement is built,
    it finds no field to update and only reads the row, or it calls [query]
    with the [UPDATE]. *)
Inductive Sent : Type :=
| Raised (error : JsValue)
| ReadOnly
| Updates (st : Statement).

(** [updateLinktree(id, data)] up to its call of [query] with the [UPDATE];
    [existing] is what the query for the old image settles to if it is made. *)
Definition updateLinktree (id : string) (data : UpdateLinktreeData)
    (existing : ImageLookup) : Sent :=
  match readOldImage data existing with
  | Some error => Raised error
  | None =>
      let '(paramIndex, updateFields, updateValues) :=
        assign (linktreeSlots data) 1 [] [] in
      if (length updateFields =? 0)%nat then ReadOnly
      else
        Updates (mkStatement (updateFields ++ ["updated_at = NOW()"%string]) paramIndex
                   (updateValues ++ [VText id]))
  end.

(** [data] of [updateLink]. *)
Record UpdateLinkData : Type := mkLinkData {
  l_platform : option string;
  l_url : option string;
  l_display_name : option (option string);
  l_description : option (option string);
  l_default_message : option (option string);
  l_display_order : option Z;
  l_metadata : option (option string)
}.

Definition linkSlots (data : UpdateLinkData) : list Slot :=
  [mkSlot "platform" "" (option_map VText (l_platform data));
   mkSlot "url" "" (option_map VText (l_url data));
   mkSlot "display_name" "" (option_map nullish (l_display_name data));
   mkSlot "description" "" (option_map nullish (l_description data));
   mkSlot "default_message" "" (option_map nullish (l_default_message data));
   mkSlot "display_order" "" (option_map VNum (l_display_order data));
   mkSlot "metadata" "::jsonb" (option_map stringified (l_metadata data))].

(** [updateLink(id, data)] likewise; here [paramIndex++] follows
    [updateValues.push(id)]. *)
Definition updateLink (id : string) (data : UpdateLinkData) : option Statement :=
  let '(paramIndex, updateFields, updateValues) := assign (linkSlots data) 1 [] [] in
  if (length updateFields =? 0)%nat then None
  else
    Some (mkStatement (updateFields ++ ["updated_at = NOW()"%string]) (S paramIndex)
            (updateValues ++ [VText id])).

(** The slots whose field is given. *)
Definition givenSlots (slots : list Slot) : list Slot :=
  List.filter (fun sl => match pushed sl with Some _ => true | None => false end) slots.

(** The values of the slots whose field is given. *)
Definition givenValues (slots : list Slot) : list Value :=
  omap pushed slots.

End Update.

(** ** The uid-to-id cache of [getLinktreeIdByUid] *)

Module Cache.

(** A value of [uidToIdCache]. *)
Record Entry : Type := mkEntry {
  id : string;
  timestamp : Z
}.

(** The [Map]: its entries in insertion order, no key twice. *)
Definition t : Type := list (string * Entry).

(** [cache.get(key)] *)
Fixpoint get (cache : t) (key : string) : option Entry :=
  match cache with
  | [] => None
  | (k, e) :: rest => if String.eqb k key then Some e else get rest key
  end.

(** [cache.set(key, e)]: a key that is present keeps its place. *)
Fixpoint set (cache : t) (key : string) (e : Entry) : t :=
  match cache with
  | [] => [(key, e)]
  | (k, e') :: rest =>
      if String.eqb k key then (k, e) :: rest else (k, e') :: set rest key e
  end.

(** [cache.delete(key)] *)
Definition delete (cache : t) (key : string) : t :=
  List.filter (fun p => negb (String.eqb (fst p) key)) cache.

(** [24 * 60 * 60 * 1000] *)
Definition CACHE_TTL : Z := 24 * 60 * 60 * 1000.

(** The size limit after [set]: when more than 1000 entries are held, the
    first key is deleted, unless it is falsy. *)
Definition limit (cache : t) : t :=
  if (1000 <? length cache)%nat then
    match cache with
    | (firstKey, _) :: _ => if JsString.truthy firstKey then delete cache firstKey else cache
    | [] => cache
    end
  else cache.

(** A finished call: the cache afterwards, what the promise settled to
    ([None] is [null]), and whether [query] was called. *)
Record Call : Type := mkCall {
  after : t;
  result : Settled (option string);
  queried : bool
}.

(** [getLinktreeIdByUid(uid)]: [now] and [later] are the values of the two
    calls of [Date.now()], [db] is what the query settles to if it is made,
    its rows given by their [id]. *)
Definition getLinktreeIdByUid (cache : t) (uid : string) (now later : Z)
    (db : Uid.QueryOutcome) : Call :=
  let miss :=
    match db with
    | Uid.QueryThrows error => mkCall cache (Rejected error) true
    | Uid.QueryRows rows =>
        match rows with
        | Some (rowId :: _) =>
            mkCall (limit (set cache uid (mkEntry rowId later))) (Fulfilled (Some rowId)) true
        | _ => mkCall cache (Fulfilled None) true
        end
    end in
  match get cache uid with
  | Some cached =>
      if now - timestamp cached <? CACHE_TTL
      then mkCall cache (Fulfilled (Some (id cached))) false
      else miss
  | None => miss
  end.

(** The keys. *)
Definition keys (cache : t) : list string := map fst cache.

(** No key twice, at most 1000 entries, and no empty key. *)
Definition Bounded (cache : t) : Prop :=
  NoDup (keys cache) /\ (length cache <= 1000)%nat /\ EmptyString ∉ keys cache.

(** The cache after [n] lookups that found the uids [u0 .. u(n-1)], in that
    order, all at time 0. *)
Definition warmed (n : nat) : t :=
  map (fun k => ("u" +:+ NilZero.string_of_uint (Nat.to_uint k), mkEntry "id" 0)) (seq 0 n).

End Cache.

(** ** The links of a new linktree *)

Module NewLinks.

(** An element of [data.linkMetadata[platform]]; [metadata] is the JSON text
    of the object. *)
Record LinkMetadata : Type := mkMeta {
  display_name : option string;
  default_message : option string;
  metadata : option string
}.

(** [{}] *)
Definition noMetadata : LinkMetadata := mkMeta None None None.

(** An element of [linksToInsert]. *)
Record Row : Type := mkRow {
  r_platform : string;
  r_url : string;
  r_display_name : option string;
  r_default_message : option string;
  r_metadata : string;
  r_display_order : nat
}.

(** [!url || typeof url !== 'string' || url.trim().length === 0] for a
    string [url]. *)
Definition skipped (url : string) : bool :=
  negb (JsString.truthy url) || (String.length (JsString.trim url) =? 0)%nat.

(** The callback of [urls.forEach] for the element [url] at [index]. *)
Definition visit (platform : string) (metadataArray : list LinkMetadata)
    (acc : list Row * nat) (index : nat) (url : string) : list Row * nat :=
  let '(linksToInsert, displayOrder) := acc in
  if skipped url then acc
  else
    let metadata := default noMetadata (metadataArray !! index) in
    let defaultMessage :=
      Messages.getDefaultMessageForPlatform platform (default_message metadata) in
    (linksToInsert ++
       [mkRow platform (JsString.trim url)
          (if Messages.given (display_name metadata) then display_name metadata else None)
          defaultMessage
          (match NewLinks.metadata metadata with Some json => json | None => "{}"%string end)
          displayOrder],
     S displayOrder).

(** [urls.forEach(...)] from [index] on. *)
Fixpoint forEach (platform : string) (metadataArray : list LinkMetadata)
    (urls : list string) (index : nat) (acc : list Row * nat) : list Row * nat :=
  match urls with
  | [] => acc
  | url :: rest =>
      forEach platform metadataArray rest (S index)
        (visit platform metadataArray acc index url)
  end.

(** The [for (const [platform, urls] of Object.entries(data.links))] loop;
    [linkMetadata platform] is [data.linkMetadata?.[platform] || []]. *)
Fixpoint entries (linkMetadata : string -> list LinkMetadata)
    (links : list (string * list string)) (acc : list Row * nat) : list Row * nat :=
  match links with
  | [] => acc
  | (platform, urls) :: rest =>
      if (length urls =? 0)%nat then entries linkMetadata rest acc
      else entries linkMetadata rest (forEach platform (linkMetadata platform) urls 0 acc)
  end.

Definition noLinks : JsValue := JsObject true "No links provided" None.
Definition noValidLinks : JsValue :=
  JsObject true "No valid links provided - all links were empty" None.

(** The link part of [createLinktree] up to the inserts: the rows it goes on
    to insert, or the error it throws; [links] is [Object.entries(data.links)],
    [None] when [data.links] is missing. *)
Definition linksToInsert (linkMetadata : string -> list LinkMetadata)
    (links : option (list (string * list string))) : Settled (list Row) :=
  match links with
  | None => Rejected noLinks
  | Some l =>
      if (0 <? length l)%nat then
        let rows := fst (entries linkMetadata l ([], 0%nat)) in
        if (0 <? length rows)%nat then Fulfilled rows else Rejected noValidLinks
      else Rejected noLinks
  end.

(** All urls of all platforms, in the order they are visited. *)
Definition allUrls (links : list (string * list string)) : list string :=
  concat (map snd links).

End NewLinks.

(** ** The click route *)

Module ClickRoute.

(** What [extractAnalyticsData(request)] resolves to. *)
Record Analytics : Type := mkAnalytics {
  ip_address : option string;
  session_id : option string
}.

(** [x && x.trim()] as a condition. *)
Definition filled (x : option string) : bool := Insert.filled x.

(** [analyticsData.session_id?.trim() || null] *)
Definition sessionOf (x : option string) : option string :=
  match x with
  | Some s => if JsString.truthy (JsString.trim s) then Some (JsString.trim s) else None
  | None => None
  end.

(** The record the handler passes to [addClick], if it calls it.  [id] is
    the route parameter, [bodyLinktreeId] the [linktree_id] of the request
    body, [rows] the [linktree_id] of the rows of the fallback query (read
    only when the body gives none), [now] the text of [new Date().toISOString()]. *)
Definition clickOf (id : string) (bodyLinktreeId : option string)
    (rows : option (list (option string))) (analytics : Analytics) (now : string)
  : option Pipeline.ClickRecord :=
  if negb (JsString.truthy id) || negb (JsString.truthy (JsString.trim id)) then None
  else if negb (Uuid.test (JsString.trim id)) then None
  else
    let linktreeId :=
      match bodyLinktreeId with
      | Some s => if JsString.truthy s then Some s else None
      | None => None
      end in
    let build (linktree_id : string) (ip : string) :=
      Pipeline.mkClick (Some (JsString.trim id)) (Some (JsString.trim linktree_id))
        (Some (JsString.trim ip)) (sessionOf (session_id analytics)) now in
    if filled linktreeId then
      match linktreeId, ip_address analytics with
      | Some l, Some ip => if filled (Some ip) then Some (build l ip) else None
      | _, _ => None
      end
    else
      match rows with
      | Some (Some l :: _) =>
          if filled (Some l) && filled (ip_address analytics) then
            match ip_address analytics with
            | Some ip => Some (build l ip)
            | None => None
            end
          else None
      | _ => None
      end.

End ClickRoute.

(** * Properties *)

(** ** Strings *)

Section StringFacts.
Import JsString.

Lemma startsWith_iff (s p : string) :
  startsWith s p = true <-> exists r, s = p +:+ r.
Proof.
  revert s. induction p as [|a p IH]; intros s; simpl.
  - split; [intros _; exists s; reflexivity | reflexivity].
  - destruct s as [|b s].
    + split; [discriminate | intros [r Hr]; discriminate].
    + destruct (Ascii.eqb_spec a b) as [->|Hab].
      * rewrite IH. split; intros [r Hr]; exists r.
        -- simpl. now rewrite Hr.
        -- simpl in Hr. now injection Hr.
      * split; [discriminate | intros [r Hr]; simpl in Hr].
        injection Hr as Hba _. congruence.
Qed.

(** [includes] is the substring test. *)
Lemma includes_iff (s t : string) :
  includes s t = true <-> exists a b, s = a +:+ t +:+ b.
Proof.
  induction s as [|c s IH]; simpl.
  - rewrite orb_false_r, startsWith_iff. split.
    + intros [r Hr]. exists EmptyString, r. exact Hr.
    + intros [a [b Hab]]. destruct a; simpl in Hab.
      * now exists b.
      * discriminate.
  - rewrite orb_true_iff, startsWith_iff, IH. split.
    + intros [[r Hr] | [a [b Hab]]].
      * exists EmptyString, r. exact Hr.
      * exists (String c a), b. simpl. now rewrite Hab.
    + intros [a [b Hab]]. destruct a as [|c' a]; simpl in Hab.
      * left. now exists b.
      * right. injection Hab as _ Hs. now exists a, b.
Qed.

Lemma truthy_trimEnd (s : string) : truthy (trimEnd s) = hasInk s.
Proof.
  induction s as [|c s IH]; simpl; [reflexivity|].
  destruct (trimEnd s); simpl in *; rewrite <- IH.
  - destruct (isWhiteSpace c); reflexivity.
  - now rewrite orb_true_r.
Qed.

Lemma hasInk_trimStart (s : string) : hasInk (trimStart s) = hasInk s.
Proof.
  induction s as [|c s IH]; simpl; [reflexivity|].
  destruct (isWhiteSpace c) eqn:E; simpl; [exact IH | now rewrite E].
Qed.

(** A trimmed string is non-empty exactly when the string has a character
    that is not white space. *)
Lemma truthy_trim (s : string) : truthy (trim s) = hasInk s.
Proof. unfold trim. now rewrite truthy_trimEnd, hasInk_trimStart. Qed.

Lemma hasInk_truthy (s : string) : hasInk s = true -> truthy s = true.
Proof. destruct s; [discriminate | reflexivity]. Qed.

Lemma trim_nonempty_iff (s : string) :
  trim s <> EmptyString <->
  exists a c b, s = a +:+ String c b /\ isWhiteSpace c = false.
Proof.
  assert (Ht : forall r, r <> EmptyString <-> truthy r = true).
  { intros [|? ?]; simpl; split; congruence. }
  rewrite Ht, truthy_trim. clear Ht.
  induction s as [|c s IH]; simpl.
  - split; [discriminate | intros [a [c [b [H _]]]]; destruct a; discriminate].
  - rewrite orb_true_iff, negb_true_iff, IH. split.
    + intros [Hc | [a [c' [b [Hs Hc']]]]].
      * exists EmptyString, c, s. auto.
      * exists (String c a), c', b. simpl. now rewrite Hs.
    + intros [a [c' [b [Hs Hc']]]]. destruct a as [|x a]; simpl in Hs.
      * injection Hs as -> _. now left.
      * injection Hs as _ Hs. right. now exists a, c', b.
Qed.

End StringFacts.

(** ** The batch queue: one flush *)

Section FlushFacts.
Import BatchQueue.
Context {T : Type}.
Implicit Types (q : BatchQueue.t T) (items during : list T) (x : T).

Lemma length_zero_eqb (l : list T) : (length l =? 0)%nat = true <-> l = [].
Proof. destruct l; simpl; split; congruence. Qed.

Lemma flush_begin_noop q :
  isProcessing q = true \/ queue q = [] -> flush_begin q = (q, None).
Proof.
  unfold flush_begin. intros [-> | ->]; [reflexivity|].
  simpl. now rewrite orb_true_r.
Qed.

Lemma flush_begin_takes q :
  isProcessing q = false -> queue q <> [] ->
  flush_begin q = (mk [] (maxBatchSize q) true (flushInterval q), Some (queue q)).
Proof.
  intros Hp Hq. unfold flush_begin. rewrite Hp. simpl.
  destruct (queue q) eqn:E; [congruence | reflexivity].
Qed.

(** While the flag is set, [add] only pushes. *)
Lemma add_while_processing q x :
  isProcessing q = true ->
  fst (add q x) = set_queue (queue q ++ [x]) q.
Proof.
  intros Hp. unfold add.
  destruct (_ >=? _); [|reflexivity].
  rewrite flush_begin_noop; [reflexivity | now left].
Qed.

Lemma adds_while_processing during q :
  isProcessing q = true ->
  fold_left (fun q x => fst (add q x)) during q = set_queue (queue q ++ during) q.
Proof.
  revert q. induction during as [|x during IH]; intros q Hp; simpl.
  - rewrite app_nil_r. now destruct q.
  - rewrite add_while_processing by exact Hp.
    rewrite IH by exact Hp. unfold set_queue. simpl.
    now rewrite <- app_assoc.
Qed.

(** An awaited flush of a non-empty buffer, unfolded. *)
Lemma flush_await_unfold q during outcome :
  isProcessing q = false -> queue q <> [] ->
  flush_await q during outcome =
  (let '(q3, result, _) :=
     flush_settle (mk during (maxBatchSize q) true (flushInterval q)) (queue q) outcome
   in (q3, result)).
Proof.
  intros Hp Hq. unfold flush_await. rewrite flush_begin_takes by assumption.
  rewrite adds_while_processing by reflexivity. reflexivity.
Qed.

Lemma flush_settle_clears q items outcome :
  isProcessing (fst (fst (flush_settle q items outcome))) = false.
Proof.
  unfold flush_settle. destruct outcome as [v|error]; [reflexivity|].
  destruct (negb _); [|reflexivity].
  destruct (_ <? _)%nat; reflexivity.
Qed.

Lemma isIgnorableError_iff (error : JsValue) :
  isIgnorableError error = true <->
  exists b message code,
    error = JsObject b message (Some code) /\
    (JsString.includes code "23505" = true \/ JsString.includes code "23503" = true).
Proof.
  unfold isIgnorableError. split.
  - destruct error as [| |b m [code|]]; try discriminate.
    rewrite orb_true_iff. intros H. now exists b, m, code.
  - intros [b [m [code [-> H]]]]. now rewrite orb_true_iff.
Qed.

End FlushFacts.

Section FlushOutcomes.
Import BatchQueue.
Context {T : Type}.
Implicit Types (q : BatchQueue.t T) (items during : list T) (s : Sys T).

(** What a rejected, not ignorable flush leaves behind. *)
Lemma flush_settle_retryable q items error :
  isIgnorableError error = false ->
  flush_settle q items (Rejected error) =
  (mk ((if (length (queue q) <? maxQueueSize)%nat then items else take 1000 items)
         ++ queue q) (maxBatchSize q) false (flushInterval q),
   Rejected error,
   if (length (queue q) <? maxQueueSize)%nat
   then ["Batch insert error:"%string]
   else ["Batch insert error:"%string;
         "Queue too large, items will be retried on next flush"%string]).
Proof.
  intros He. unfold flush_settle. rewrite He. simpl.
  destruct (_ <? _)%nat; reflexivity.
Qed.

Lemma flush_settle_ignorable q items error :
  isIgnorableError error = true ->
  flush_settle q items (Rejected error) = flush_settle q items (Fulfilled tt).
Proof. intros He. unfold flush_settle. now rewrite He. Qed.

(** The length of the buffer after a rejected, not ignorable flush: the
    whole batch comes back when the live buffer is below [maxQueueSize],
    otherwise at most 1000 of its events do. *)
Lemma flush_settle_retryable_length q items error :
  isIgnorableError error = false ->
  length (queue (fst (fst (flush_settle q items (Rejected error))))) =
  if (length (queue q) <? maxQueueSize)%nat
  then (length items + length (queue q))%nat
  else (1000 `min` length items + length (queue q))%nat.
Proof.
  intros He. rewrite flush_settle_retryable by exact He. simpl.
  destruct (_ <? _)%nat; rewrite length_app; [reflexivity|].
  now rewrite length_take.
Qed.

End FlushOutcomes.

(** ** Claims about one flush *)

Section FlushClaims.
Import BatchQueue.
Context {T : Type}.
Implicit Types (q : BatchQueue.t T) (items during : list T) (s : Sys T).

(** C3.  A flush whose [insertFn] call is rejected with an error that
    carries a [code] containing 23505 or 23503 does not re-raise it: the
    promise of [flush()] is fulfilled, the batch is not put back, the buffer
    holds only what was enqueued during the flush (nothing, if nothing was),
    and the result is the one of a successful flush. *)
Theorem flush_ignorable_swallowed q during (b : bool) (message code : string) :
  isProcessing q = false ->
  queue q <> [] ->
  (exists pre post, code = pre +:+ "23505" +:+ post \/ code = pre +:+ "23503" +:+ post) ->
  let error := JsObject b message (Some code) in
  flush_await q during (Rejected error)
    = (mk during (maxBatchSize q) false (flushInterval q), Fulfilled tt)
  /\ flush_await q during (Rejected error) = flush_await q during (Fulfilled tt)
  /\ (during = [] -> queue (fst (flush_await q during (Rejected error))) = []).
Proof.
  intros Hp Hq [pre [post Hcode]] error.
  assert (He : isIgnorableError error = true).
  { apply isIgnorableError_iff. exists b, message, code. split; [reflexivity|].
    destruct Hcode as [H | H]; [left | right];
      apply includes_iff; now exists pre, post. }
  assert (Hrun : flush_await q during (Rejected error)
                 = (mk during (maxBatchSize q) false (flushInterval q), Fulfilled tt)).
  { rewrite flush_await_unfold by assumption.
    rewrite flush_settle_ignorable by exact He. reflexivity. }
  split; [exact Hrun|]. split.
  - rewrite Hrun. rewrite flush_await_unfold by assumption. reflexivity.
  - intros ->. now rewrite Hrun.
Qed.

(** C2, as the code has it.  A flush whose [insertFn] call is rejected with
    an error that is not ignorable puts its batch back in front of what was
    enqueued meanwhile, in the original order, and rejects the promise of
    [flush()] with the same error; the whole batch comes back when fewer than
    [maxQueueSize] events were enqueued meanwhile, and its first 1000 events
    otherwise.  An outside caller of [flush()] receives the rejection. *)
Theorem flush_retryable_reinserts q during (error : JsValue) :
  isProcessing q = false ->
  queue q <> [] ->
  isIgnorableError error = false ->
  flush_await q during (Rejected error)
    = (mk ((if (length during <? maxQueueSize)%nat then queue q else take 1000 (queue q))
             ++ during) (maxBatchSize q) false (flushInterval q),
       Rejected error)
  /\ deliver ByCaller (snd (flush_await q during (Rejected error))) = ([error], []).
Proof.
  intros Hp Hq He.
  assert (Hrun : flush_await q during (Rejected error)
    = (mk ((if (length during <? maxQueueSize)%nat then queue q else take 1000 (queue q))
             ++ during) (maxBatchSize q) false (flushInterval q),
       Rejected error)).
  { rewrite flush_await_unfold by assumption.
    rewrite flush_settle_retryable by exact He. reflexivity. }
  split; [exact Hrun | now rewrite Hrun].
Qed.

End FlushClaims.

Lemma flush_ignorable_swallowed_witness :
  BatchQueue.flush_await (BatchQueue.mk [1%N; 2%N] 1000 false true) []
    (Rejected Sample.duplicateKey)
  = (BatchQueue.mk [] 1000 false true, Fulfilled tt).
Proof.
  apply (flush_ignorable_swallowed (BatchQueue.mk [1%N; 2%N] 1000 false true) [] true
           "duplicate key value violates unique constraint" "23505").
  - reflexivity.
  - discriminate.
  - exists EmptyString, EmptyString. left. reflexivity.
Defined.

Lemma flush_retryable_reinserts_witness :
  BatchQueue.flush_await (BatchQueue.mk [1%N; 2%N] 1000 false true) [3%N]
    (Rejected Sample.networkError)
  = (BatchQueue.mk [1%N; 2%N; 3%N] 1000 false true, Rejected Sample.networkError).
Proof.
  apply (flush_retryable_reinserts (BatchQueue.mk [1%N; 2%N] 1000 false true) [3%N]
           Sample.networkError).
  - reflexivity.
  - discriminate.
  - reflexivity.
Defined.

(** ** Reinsertion and the cap *)

Section Reinsertion.
Import BatchQueue Sample.

(** C1, evaluated.  A fresh queue with batch size 1000 receives 2500
    events: the first 1000 start a flush, the rest arrive while it is
    pending.  The pending insert then fails with a network error: the whole
    batch of 1000 is put back in front of the 1500 newer events and the
    buffer holds 2500 events, more than [maxQueueSize]. *)
Theorem reinsertion_exceeds_maxQueueSize :
  let s := run (boot 1000) burst in
  let s' := step s (Settle (Rejected networkError)) in
  inflight s = [(ByAdd, ids 0 1000)]
  /\ queue (obj s) = ids 1000 1500
  /\ isIgnorableError networkError = false
  /\ queue (obj s') = ids 0 2500
  /\ length (queue (obj s')) = 2500%nat
  /\ (maxQueueSize < length (queue (obj s')))%nat.
Proof.
  vm_compute.
  do 5 (split; [reflexivity|]). lia.
Qed.

(** A buffer that already holds [maxQueueSize] events still grows when a
    batch is put back. *)
Example reinsertion_above_cap_grows :
  let q := mk (ids 1000 2000) 1000 true true in
  length (queue (fst (fst (flush_settle q (ids 0 1000) (Rejected networkError)))))
  = 3000%nat.
Proof. vm_compute; reflexivity. Qed.

(** The state used below is one the queue reaches: a first batch of 1000
    fails while 500 more events arrive, which leaves 1500 events. *)
Example buffer_of_1500_reached :
  obj (run (boot 1000)
         (map Enqueue (ids 0 1500) ++ [Settle (Rejected networkError)]))
  = mk (ids 0 1500) 1000 false true.
Proof. vm_compute; reflexivity. Qed.

(** C2 as stated fails: a batch of 1500 events fails with a network error
    while 2000 events were enqueued during the flush; only its first 1000
    events are put back, so the buffer is not the batch followed by the
    newer events. *)
Lemma reinsertion_truncates_batch :
  let q := mk (ids 0 1500) 1000 false true in
  let during := ids 1500 2000 in
  isProcessing q = false
  /\ queue q <> []
  /\ isIgnorableError networkError = false
  /\ queue (fst (flush_await q during (Rejected networkError))) <> queue q ++ during
  /\ queue (fst (flush_await q during (Rejected networkError)))
     = ids 0 1000 ++ during.
Proof.
  intros q during.
  split; [reflexivity|].
  split; [vm_compute; discriminate|].
  split; [reflexivity|].
  split.
  - intros H.
    assert (Hl : length (queue (fst (flush_await q during (Rejected networkError))))
                 = 3000%nat) by (vm_compute; reflexivity).
    assert (Hr : length (queue q ++ during) = 3500%nat) by (vm_compute; reflexivity).
    rewrite H, Hr in Hl. discriminate Hl.
  - vm_compute; reflexivity.
Qed.

End Reinsertion.

(** ** The batch queue over time *)

Section SysFacts.
Import BatchQueue Inv.
Context {T : Type}.
Implicit Types (q : BatchQueue.t T) (items : list T) (s : Sys T) (op : Op T).

Lemma flush_begin_cases q :
  flush_begin q = (q, None) \/
  (isProcessing q = false /\ queue q <> [] /\
   flush_begin q = (mk [] (maxBatchSize q) true (flushInterval q), Some (queue q))).
Proof.
  destruct (isProcessing q) eqn:Hp.
  - left. apply flush_begin_noop. now left.
  - destruct (queue q) eqn:Hq.
    + left. apply flush_begin_noop. now right.
    + right. rewrite <- Hq. repeat split; [congruence|].
      apply flush_begin_takes; congruence.
Qed.

(** The buffer after the pending insert settles: some prefix of the batch,
    followed by the live buffer. *)
Lemma flush_settle_queue q items (outcome : Settled unit) :
  exists k, queue (fst (fst (flush_settle q items outcome))) = take k items ++ queue q.
Proof.
  unfold flush_settle. destruct outcome as [v|error].
  - exists 0%nat. reflexivity.
  - destruct (negb _).
    + destruct (_ <? _)%nat; simpl.
      * exists (length items). now rewrite take_ge.
      * now exists 1000%nat.
    + exists 0%nat. reflexivity.
Qed.

Lemma step_shape s op :
  (exists by_ q, step s op = flushing s by_ q
                 /\ isProcessing q = isProcessing (obj s)
                 /\ (queue q = queue (obj s)
                     \/ exists x, op = Enqueue x /\ queue q = queue (obj s) ++ [x]))
  \/ (exists q, step s op = record s ByAdd (q, NoFlush)
                /\ isProcessing q = isProcessing (obj s)
                /\ (queue q = queue (obj s)
                    \/ exists x, op = Enqueue x /\ queue q = queue (obj s) ++ [x]))
  \/ step s op = s
  \/ (exists outcome by_ items rest,
        op = Settle outcome /\ inflight s = (by_, items) :: rest /\
        inflight (step s op) = rest /\
        submitted (step s op) = submitted s /\
        flushCalls (step s op) = flushCalls s /\
        obj (step s op) = fst (fst (flush_settle (obj s) items outcome))).
Proof.
  destruct op as [x| | |outcome|]; simpl.
  - unfold add. simpl. destruct (_ >=? _).
    + left. exists ByAdd, (set_queue (queue (obj s) ++ [x]) (obj s)).
      unfold flushing. split; [now destruct (flush_begin _)|].
      split; [reflexivity|]. right. now exists x.
    + right; left. exists (set_queue (queue (obj s) ++ [x]) (obj s)).
      split; [reflexivity|]. split; [reflexivity|]. right. now exists x.
  - left. exists ByCaller, (obj s). unfold flushing.
    split; [now destruct (flush_begin _)|]. split; [reflexivity | now left].
  - destruct (flushInterval (obj s)); [|right; right; now left].
    unfold tick. destruct (0 <? _)%nat.
    + left. exists ByTimer, (obj s). unfold flushing.
      split; [now destruct (flush_begin _)|]. split; [reflexivity | now left].
    + right; left. exists (obj s). split; [reflexivity|].
      split; [reflexivity | now left].
  - destruct (inflight s) as [|[by_ items] rest] eqn:Hin; [right; right; now left|].
    right; right; right. exists outcome, by_, items, rest.
    destruct (flush_settle (obj s) items outcome) as [[q r] c].
    destruct (deliver by_ r) as [errors logged]. simpl. auto 10.
  - unfold destroy.
    set (q1 := if flushInterval (obj s) then set_flushInterval false (obj s) else obj s).
    assert (Hq1 : isProcessing q1 = isProcessing (obj s) /\ queue q1 = queue (obj s)).
    { unfold q1. destruct (flushInterval (obj s)); auto. }
    destruct Hq1 as [Hp Hq]. destruct (0 <? _)%nat.
    + left. exists ByDestroy, q1. unfold flushing.
      split; [now destruct (flush_begin _)|]. auto.
    + right; left. exists q1. split; [|auto].
      (* [destroy] is not [add], but a step without a flush records the same. *)
      reflexivity.
Qed.

End SysFacts.

Section Invariants.
Import BatchQueue Inv.
Context {T : Type}.
Implicit Types (q : BatchQueue.t T) (items : list T) (s : Sys T) (op : Op T).

Lemma flushing_Exclusive s by_ q :
  isProcessing q = isProcessing (obj s) -> Exclusive s -> Exclusive (flushing s by_ q).
Proof.
  intros Hp He. unfold flushing, Exclusive in *.
  destruct (flush_begin_cases q) as [H | (Hf & _ & H)]; rewrite H; simpl.
  - now rewrite Hp.
  - rewrite <- Hp, Hf in He. rewrite He. now eexists.
Qed.

Lemma step_Exclusive s op : Exclusive s -> Exclusive (step s op).
Proof.
  intros He.
  destruct (step_shape s op) as
    [(by_ & q & -> & Hp & _) | [(q & -> & Hp & _) | [-> | H]]].
  - now apply flushing_Exclusive.
  - unfold Exclusive in *. simpl. now rewrite Hp.
  - exact He.
  - destruct H as (outcome & by_ & items & rest & _ & Hin & Hrest & _ & _ & Hobj).
    unfold Exclusive in *. rewrite Hobj, flush_settle_clears, Hrest.
    destruct (isProcessing (obj s)).
    + destruct He as [b Hb]. rewrite Hb in Hin. now injection Hin.
    + rewrite He in Hin. discriminate.
Qed.

Lemma run_Exclusive s (ops : list (Op T)) : Exclusive s -> Exclusive (run s ops).
Proof.
  revert s. induction ops as [|op ops IH]; intros s He; simpl; [exact He|].
  apply IH. now apply step_Exclusive.
Qed.

Lemma boot_Exclusive (n : Z) : Exclusive (boot (T:=T) n).
Proof. reflexivity. Qed.

Lemma Exclusive_length s : Exclusive s -> (length (inflight s) <= 1)%nat.
Proof.
  unfold Exclusive. destruct (isProcessing (obj s)).
  - intros [b ->]. simpl. lia.
  - intros ->. simpl. lia.
Qed.

(** What a flushing step holds and has submitted. *)
Lemma flushing_content s by_ q :
  pending (flushing s by_ q) ++ queue (obj (flushing s by_ q)) = pending s ++ queue q
  /\ (concat (submitted (flushing s by_ q)) = concat (submitted s)
      \/ concat (submitted (flushing s by_ q)) = concat (submitted s) ++ queue q)
  /\ (forall x, x ∈ queue (obj (flushing s by_ q)) -> x ∈ queue q)
  /\ (forall x, x ∈ pending (flushing s by_ q) -> x ∈ pending s \/ x ∈ queue q).
Proof.
  unfold flushing, pending.
  destruct (flush_begin_cases q) as [H | (_ & _ & H)]; rewrite H; simpl.
  - repeat split; auto.
  - rewrite map_app, !concat_app. simpl. rewrite !app_nil_r.
    repeat split; auto.
    + intros x Hx. inversion Hx.
    + intros x Hx. now apply elem_of_app in Hx.
Qed.

Lemma step_Clean (P : T -> Prop) s op :
  (forall x, op = Enqueue x -> P x) -> Clean P s -> Clean P (step s op).
Proof.
  intros Hop (Hq & Hp & Hs). unfold Clean. rewrite !Forall_forall in *.
  destruct (step_shape s op) as
    [(by_ & q & -> & _ & Hqq) | [(q & -> & _ & Hqq) | [-> | H]]].
  - assert (HPq : forall x, x ∈ queue q -> P x).
    { destruct Hqq as [-> | (x & -> & ->)]; [exact Hq|].
      intros y Hy. apply elem_of_app in Hy as [Hy | Hy]; [now apply Hq|].
      apply list_elem_of_singleton in Hy as ->. now apply Hop. }
    destruct (flushing_content s by_ q) as (_ & Hsub & Hin1 & Hin2).
    split; [intros x Hx; apply HPq, Hin1, Hx|]. split.
    + intros x Hx. destruct (Hin2 x Hx); auto.
    + destruct Hsub as [-> | ->]; [exact Hs|].
      intros x Hx. apply elem_of_app in Hx as [Hx | Hx]; auto.
  - simpl. split; [|split; assumption].
    destruct Hqq as [-> | (x & -> & ->)]; [exact Hq|].
    intros y Hy. apply elem_of_app in Hy as [Hy | Hy]; [now apply Hq|].
    apply list_elem_of_singleton in Hy as ->. now apply Hop.
  - auto.
  - destruct H as (outcome & by_ & items & rest & _ & Hin & Hrest & Hsub & _ & Hobj).
    unfold pending in *. rewrite Hin in Hp. simpl in Hp.
    rewrite Hrest, Hsub, Hobj.
    destruct (flush_settle_queue (obj s) items outcome) as [k ->].
    split; [|split].
    + intros x Hx. apply elem_of_app in Hx as [Hx | Hx]; [|now apply Hq].
      apply Hp, elem_of_app. left. now apply (subseteq_take k).
    + intros x Hx. apply Hp, elem_of_app. now right.
    + exact Hs.
Qed.

Lemma run_Clean (P : T -> Prop) (ops : list (Op T)) s :
  Forall P (enqueued ops) -> Clean P s -> Clean P (run s ops).
Proof.
  revert s. induction ops as [|op ops IH]; intros s Hops Hc; simpl; [exact Hc|].
  apply IH.
  - destruct op; simpl in Hops; try exact Hops. now inversion Hops.
  - apply step_Clean; [|exact Hc].
    intros x ->. simpl in Hops. now inversion Hops.
Qed.

End Invariants.

Section Overlap.
Import BatchQueue Inv.
Context {T : Type}.
Implicit Types (q : BatchQueue.t T) (items : list T) (s : Sys T) (op : Op T).

Lemma NoDup_requeue (batch rest live : list T) (k : nat) :
  NoDup (batch ++ rest ++ live) ->
  NoDup (rest ++ take k batch ++ live)
  /\ forall x, x ∈ rest ++ take k batch ++ live -> x ∈ batch ++ rest ++ live.
Proof.
  intros Hnd. split.
  - rewrite Permutation_app_swap_app.
    apply (sublist_NoDup _ _ Hnd).
    apply sublist_app; [apply sublist_take | reflexivity].
  - intros x. rewrite !elem_of_app. intros [H | [H | H]]; auto.
    left. now apply (subseteq_take k).
Qed.

Lemma enqueued_cons op (ops : list (Op T)) :
  enqueued (op :: ops) = enqueued [op] ++ enqueued ops.
Proof. destruct op; reflexivity. Qed.

Lemma Apart_push (seen : list T) s q op :
  Apart seen s ->
  (forall x, op = Enqueue x -> x ∉ seen) ->
  (queue q = queue (obj s) \/ exists x, op = Enqueue x /\ queue q = queue (obj s) ++ [x]) ->
  NoDup (pending s ++ queue q)
  /\ forall x, x ∈ pending s ++ queue q -> x ∈ seen ++ enqueued [op].
Proof.
  intros [Hnd Hin] Hfresh [-> | (x & -> & ->)].
  - split; [exact Hnd|]. intros y Hy. apply elem_of_app. left. now apply Hin.
  - rewrite app_assoc. split.
    + apply NoDup_app. split; [exact Hnd|]. split; [|apply NoDup_singleton].
      intros y Hy Hyx. apply list_elem_of_singleton in Hyx as ->.
      apply (Hfresh x eq_refl). now apply Hin.
    + intros y Hy. simpl. apply elem_of_app in Hy as [Hy | Hy]; apply elem_of_app.
      * left. now apply Hin.
      * now right.
Qed.

Lemma step_Apart (seen : list T) s op :
  Apart seen s ->
  (forall x, op = Enqueue x -> x ∉ seen) ->
  Apart (seen ++ enqueued [op]) (step s op).
Proof.
  intros Ha Hfresh.
  destruct (step_shape s op) as
    [(by_ & q & -> & _ & Hqq) | [(q & -> & _ & Hqq) | [-> | H]]].
  - unfold Apart. destruct (flushing_content s by_ q) as (-> & _).
    now apply Apart_push.
  - unfold Apart. simpl. fold (pending s). now apply (Apart_push seen s q op).
  - destruct Ha as [Hnd Hin]. split; [exact Hnd|].
    intros y Hy. apply elem_of_app. left. now apply Hin.
  - destruct H as (outcome & by_ & items & rest & -> & Hin & Hrest & _ & _ & Hobj).
    destruct Ha as [Hnd Hsub]. unfold Apart, pending in *.
    rewrite Hin in Hnd, Hsub. simpl in Hnd, Hsub.
    rewrite Hrest, Hobj.
    destruct (flush_settle_queue (obj s) items outcome) as [k ->].
    rewrite <- app_assoc in Hnd, Hsub.
    destruct (NoDup_requeue _ _ _ k Hnd) as [Hnd' Hsub']. simpl. rewrite app_nil_r.
    split; [exact Hnd'|]. intros y Hy. now apply Hsub, Hsub'.
Qed.

Lemma run_Apart (ops : list (Op T)) (seen : list T) s :
  Apart seen s ->
  NoDup (seen ++ enqueued ops) ->
  Apart (seen ++ enqueued ops) (run s ops).
Proof.
  revert seen s. induction ops as [|op ops IH]; intros seen s Ha Hnd.
  - simpl. now rewrite app_nil_r.
  - rewrite enqueued_cons, app_assoc.
    change (run s (op :: ops)) with (run (step s op) ops). apply IH.
    + apply step_Apart; [exact Ha|].
      intros x -> Hx. simpl in Hnd.
      apply NoDup_app in Hnd as (_ & Hd & _). apply (Hd x Hx). left.
    + now rewrite <- app_assoc, <- enqueued_cons.
Qed.

(** C4.  [flush()] changes nothing and calls nothing when the flag is set
    or the buffer is empty.  Whatever happens to a fresh queue, at most one
    [insertFn] call is pending; while one is, the flag is set and a further
    [flush()] submits nothing and leaves buffer and pending batch as they
    are; and when the enqueued events are pairwise distinct, no event is
    twice among the pending batch and the buffer. *)
Theorem at_most_one_flush_in_flight (n : Z) (ops : list (Op T)) q :
  (isProcessing q = true \/ queue q = [] -> flush_begin q = (q, None))
  /\ let s := run (boot n) ops in
     (length (inflight s) <= 1)%nat
     /\ (inflight s <> [] ->
         isProcessing (obj s) = true
         /\ obj (step s Flush) = obj s
         /\ inflight (step s Flush) = inflight s
         /\ submitted (step s Flush) = submitted s)
     /\ (NoDup (enqueued ops) -> NoDup (pending s ++ queue (obj s))).
Proof.
  split; [apply flush_begin_noop|].
  pose proof (run_Exclusive (boot n) ops (boot_Exclusive n)) as He.
  intros s. fold s in He. split; [now apply Exclusive_length|]. split.
  - intros Hne. unfold Exclusive in He.
    destruct (isProcessing (obj s)) eqn:Hp; [|congruence].
    split; [reflexivity|]. simpl.
    rewrite flush_begin_noop by now left. simpl. auto.
  - intros Hnd. apply (run_Apart ops [] (boot n)); [|exact Hnd].
    split; [apply NoDup_nil_2 | intros x Hx; inversion Hx].
Qed.

End Overlap.

Lemma at_most_one_flush_in_flight_witness :
  let q := BatchQueue.mk [1%N] 2 true true in
  let s := BatchQueue.run (BatchQueue.boot 2)
             [BatchQueue.Enqueue 1%N; BatchQueue.Enqueue 2%N; BatchQueue.Enqueue 3%N;
              BatchQueue.Flush] in
  BatchQueue.flush_begin q = (q, None)
  /\ BatchQueue.inflight s = [(BatchQueue.ByAdd, [1%N; 2%N])]
  /\ BatchQueue.submitted (BatchQueue.step s BatchQueue.Flush) = [[1%N; 2%N]]
  /\ NoDup (Inv.pending s ++ BatchQueue.queue (BatchQueue.obj s)).
Proof.
  intros q s.
  destruct (at_most_one_flush_in_flight 2
              [BatchQueue.Enqueue 1%N; BatchQueue.Enqueue 2%N; BatchQueue.Enqueue 3%N;
               BatchQueue.Flush] q) as (Hnoop & _ & Hbusy & Hapart).
  split; [apply Hnoop; left; reflexivity|].
  split; [reflexivity|].
  split.
  - destruct Hbusy as (_ & _ & _ & H); [discriminate|].
    unfold s. rewrite H. reflexivity.
  - apply Hapart. simpl.
    repeat constructor; intros H;
      repeat (apply elem_of_cons in H as [H | H]; [discriminate|]); inversion H.
Defined.

(** ** The flag after a flush *)

Section Unlocking.
Import BatchQueue Inv.
Context {T : Type}.
Implicit Types (q : BatchQueue.t T) (items during : list T) (s : Sys T).

(** C10.  When the [insertFn] promise settles, whatever it settles to and
    whatever state the queue is in, the flag is cleared.  After an awaited
    flush the flag is clear, and a following [flush()] on a non-empty buffer
    hands the whole buffer to [insertFn].  Whatever happens to a fresh queue,
    the flag is never set while no [insertFn] call is pending. *)
Theorem flush_always_clears_flag q during (outcome : Settled unit) :
  isProcessing q = false ->
  queue q <> [] ->
  (forall q0 items, isProcessing (fst (fst (flush_settle q0 items outcome))) = false)
  /\ (let q' := fst (flush_await q during outcome) in
      isProcessing q' = false
      /\ (queue q' <> [] -> snd (flush_begin q') = Some (queue q')))
  /\ (forall (n : Z) (ops : list (Op T)),
        let s := run (boot n) ops in
        inflight s = [] -> isProcessing (obj s) = false).
Proof.
  intros Hp Hq. split; [intros; apply flush_settle_clears|]. split.
  - assert (Hc : isProcessing (fst (flush_await q during outcome)) = false).
    { rewrite flush_await_unfold by assumption.
      pose proof (flush_settle_clears
        (mk during (maxBatchSize q) true (flushInterval q)) (queue q) outcome) as H.
      destruct (flush_settle _ _ _) as [[q3 r] c]. exact H. }
    cbv zeta. split; [exact Hc|].
    intros Hne. now rewrite flush_begin_takes.
  - intros n ops s Hin.
    pose proof (run_Exclusive (boot n) ops (boot_Exclusive n)) as He.
    fold s in He. unfold Exclusive in He.
    destruct (isProcessing (obj s)); [|reflexivity].
    destruct He as [b Hb]. rewrite Hb in Hin. discriminate.
Qed.

End Unlocking.

Lemma flush_always_clears_flag_witness :
  BatchQueue.isProcessing
    (fst (BatchQueue.flush_await (BatchQueue.mk [1%N; 2%N] 1000 false true) [3%N]
            (Rejected Sample.networkError))) = false.
Proof.
  apply (flush_always_clears_flag (BatchQueue.mk [1%N; 2%N] 1000 false true) [3%N]
           (Rejected Sample.networkError)).
  - reflexivity.
  - discriminate.
Defined.

(** ** Enqueueing and the size threshold *)

Section Threshold.
Import BatchQueue Inv.
Context {T : Type}.
Implicit Types (q : BatchQueue.t T) (items : list T) (s : Sys T) (x : T).

Lemma pushed_nil s : pushed s [] = s.
Proof.
  unfold pushed, set_queue. rewrite app_nil_r. destruct s as [[? ? ? ?] ? ? ? ? ?].
  reflexivity.
Qed.

Lemma pushed_pushed s items x : pushed (pushed s [x]) items = pushed s (x :: items).
Proof. unfold pushed, set_queue. simpl. now rewrite <- app_assoc. Qed.

Lemma enqueue_below s x :
  Z.of_nat (length (queue (obj s))) + 1 < maxBatchSize (obj s) ->
  step s (Enqueue x) = pushed s [x].
Proof.
  intros Hlt. simpl. unfold add. simpl. rewrite length_app. simpl.
  rewrite Z.geb_leb. destruct (Z.leb_spec (maxBatchSize (obj s))
    (Z.of_nat (length (queue (obj s)) + 1))) as [Hle | _]; [lia | reflexivity].
Qed.

Lemma enqueue_many_below items s :
  Z.of_nat (length (queue (obj s)) + length items) < maxBatchSize (obj s) ->
  run s (map Enqueue items) = pushed s items.
Proof.
  revert s. induction items as [|x items IH]; intros s Hlt; simpl.
  - now rewrite pushed_nil.
  - simpl in Hlt. fold (step s (Enqueue x)).
    rewrite enqueue_below by lia.
    fold (run (pushed s [x]) (map Enqueue items)).
    rewrite IH; [apply pushed_pushed|].
    simpl. rewrite length_app. simpl. lia.
Qed.

Lemma enqueue_reaching s x :
  Z.of_nat (length (queue (obj s))) + 1 = maxBatchSize (obj s) ->
  step s (Enqueue x) =
  flushing s ByAdd (set_queue (queue (obj s) ++ [x]) (obj s)).
Proof.
  intros Heq. simpl. unfold add, flushing. simpl. rewrite length_app. simpl.
  rewrite Z.geb_leb. destruct (Z.leb_spec (maxBatchSize (obj s))
    (Z.of_nat (length (queue (obj s)) + 1))) as [_ | Hlt]; [|lia].
  now destruct (flush_begin _).
Qed.

Lemma run_snoc s (ops : list (Op T)) (op : Op T) :
  run s (ops ++ [op]) = step (run s ops) op.
Proof. unfold run. now rewrite fold_left_app. Qed.

(** C5.  While the buffer stays below [maxBatchSize], enqueueing calls
    neither [flush()] nor [insertFn] and only appends.  The [add] that makes
    the buffer reach [maxBatchSize] calls [flush()] exactly once, which, no
    flush being pending, hands the whole buffer to [insertFn] in one call;
    whatever that flush settles to reaches no caller.  A fresh queue that
    receives exactly [maxBatchSize] events has called [flush()] once and
    [insertFn] once, with all of them. *)
Theorem enqueue_flush_threshold s items s1 x (batch : list T) (n : nat) :
  (Z.of_nat (length (queue (obj s)) + length items) < maxBatchSize (obj s) ->
   let s' := run s (map Enqueue items) in
   flushCalls s' = flushCalls s /\ submitted s' = submitted s
   /\ inflight s' = inflight s /\ queue (obj s') = queue (obj s) ++ items)
  /\ (Z.of_nat (length (queue (obj s1))) + 1 = maxBatchSize (obj s1) ->
      let s' := step s1 (Enqueue x) in
      flushCalls s' = S (flushCalls s1)
      /\ (isProcessing (obj s1) = false ->
          submitted s' = submitted s1 ++ [queue (obj s1) ++ [x]]
          /\ inflight s' = inflight s1 ++ [(ByAdd, queue (obj s1) ++ [x])]
          /\ queue (obj s') = []))
  /\ (forall result : Settled unit, deliver ByAdd result = ([], []))
  /\ (length batch = S n ->
      let s' := run (boot (Z.of_nat (S n))) (map Enqueue batch) in
      flushCalls s' = 1%nat /\ submitted s' = [batch]).
Proof.
  split; [|split; [|split]].
  - intros Hlt. cbv zeta. rewrite enqueue_many_below by exact Hlt. simpl. auto.
  - intros Heq. cbv zeta. rewrite enqueue_reaching by exact Heq.
    unfold flushing. split.
    + now destruct (flush_begin_cases (set_queue (queue (obj s1) ++ [x]) (obj s1)))
        as [-> | (_ & _ & ->)].
    + intros Hp. rewrite flush_begin_takes; [simpl; auto | exact Hp |].
      simpl. now destruct (queue (obj s1)).
  - intros [v|error]; reflexivity.
  - intros Hlen.
    destruct (exists_last (l:=batch)) as (init & y & ->).
    { intros ->. discriminate. }
    rewrite length_app in Hlen. simpl in Hlen. cbv zeta.
    rewrite map_app. change (map Enqueue [y]) with [Enqueue y]. rewrite run_snoc.
    rewrite enqueue_many_below by (simpl; lia).
    rewrite enqueue_reaching by (simpl; lia).
    unfold flushing. rewrite flush_begin_takes; [simpl; auto | reflexivity |].
    simpl. now destruct init.
Qed.

End Threshold.

Lemma enqueue_flush_threshold_witness :
  BatchQueue.queue (BatchQueue.obj
    (BatchQueue.run (BatchQueue.boot 3) (map BatchQueue.Enqueue [1%N; 2%N])))
  = [1%N; 2%N]
  /\ BatchQueue.flushCalls
       (BatchQueue.step (Inv.pushed (BatchQueue.boot 3) [1%N; 2%N]) (BatchQueue.Enqueue 3%N))
     = 1%nat
  /\ BatchQueue.submitted
       (BatchQueue.run (BatchQueue.boot 3) (map BatchQueue.Enqueue [1%N; 2%N; 3%N]))
     = [[1%N; 2%N; 3%N]].
Proof.
  destruct (enqueue_flush_threshold (BatchQueue.boot 3) [1%N; 2%N]
              (Inv.pushed (BatchQueue.boot 3) [1%N; 2%N]) 3%N [1%N; 2%N; 3%N] 2)
    as (Hbelow & Hreach & _ & Hfresh).
  split; [apply Hbelow; simpl; lia|].
  split; [apply Hreach; simpl; lia|].
  apply Hfresh. reflexivity.
Defined.

(** ** The enqueue entry points *)

Section Boundary.
Import Pipeline Valid.

Lemma truthy_iff (s : string) : JsString.truthy s = true <-> s <> EmptyString.
Proof. destruct s; simpl; split; congruence. Qed.

Lemma blank_false_iff (x : option string) : blank x = false <-> present x.
Proof.
  unfold blank, present. destruct x as [s|].
  - rewrite orb_false_iff, !negb_false_iff, !truthy_iff. split.
    + intros [_ Ht]. now exists s.
    + intros (s' & [= <-] & Ht). split; [|exact Ht].
      apply truthy_iff, hasInk_truthy. rewrite <- truthy_trim. now apply truthy_iff.
  - split; [discriminate | intros (s & [=] & _)].
Qed.

Lemma viewSkipped_false_iff (v : ViewRecord) :
  viewSkipped (Some v) = false <-> validView v.
Proof.
  unfold viewSkipped, validView. now rewrite orb_false_iff, !blank_false_iff.
Qed.

Lemma clickSkipped_false_iff (c : ClickRecord) :
  clickSkipped (Some c) = false <-> validClick c.
Proof.
  unfold clickSkipped, validClick.
  rewrite !orb_false_iff, !blank_false_iff. tauto.
Qed.

Lemma boot_Clean {T : Type} (P : T -> Prop) (n : Z) : Inv.Clean P (BatchQueue.boot n).
Proof. repeat split; constructor. Qed.

Lemma initializeQueues_Tidy (g : Globals) : Tidy g -> Tidy (initializeQueues g).
Proof.
  intros [Hv Hc]. unfold initializeQueues.
  destruct (serverSide g); simpl; [|now split].
  split; simpl.
  - destruct (viewQueue g) as [s0|]; intros s [= <-]; [now apply Hv | apply boot_Clean].
  - destruct (clickQueue g) as [s0|]; intros s [= <-]; [now apply Hc | apply boot_Clean].
Qed.

Lemma addView_Tidy (g : Globals) (view : option ViewRecord) :
  Tidy g -> Tidy (fst (addView g view)).
Proof.
  intros Ht. unfold addView. destruct view as [v|]; [|exact Ht].
  destruct (viewSkipped (Some v)) eqn:Hskip; [exact Ht|].
  apply viewSkipped_false_iff in Hskip.
  set (g1 := match viewQueue g with None => initializeQueues g | Some _ => g end).
  assert (Ht1 : Tidy g1).
  { unfold g1. destruct (viewQueue g); [exact Ht | now apply initializeQueues_Tidy]. }
  destruct (viewQueue g1) as [s|] eqn:Hq; [|exact Ht1].
  destruct Ht1 as [Hv Hc]. split; simpl; [|exact Hc].
  intros s' [= <-]. apply (step_Clean validView s (BatchQueue.Enqueue v)); [|now apply Hv].
  now intros x [= <-].
Qed.

Lemma addClick_Tidy (g : Globals) (click : option ClickRecord) :
  Tidy g -> Tidy (fst (addClick g click)).
Proof.
  intros Ht. unfold addClick. destruct click as [c|]; [|exact Ht].
  destruct (clickSkipped (Some c)) eqn:Hskip; [exact Ht|].
  apply clickSkipped_false_iff in Hskip.
  set (g1 := match clickQueue g with None => initializeQueues g | Some _ => g end).
  assert (Ht1 : Tidy g1).
  { unfold g1. destruct (clickQueue g); [exact Ht | now apply initializeQueues_Tidy]. }
  destruct (clickQueue g1) as [s|] eqn:Hq; [|exact Ht1].
  destruct Ht1 as [Hv Hc]. split; simpl; [exact Hv|].
  intros s' [= <-]. apply (step_Clean validClick s (BatchQueue.Enqueue c)); [|now apply Hc].
  now intros x [= <-].
Qed.

Lemma react_Tidy (g : Globals) (e : Event) : Tidy g -> Tidy (react g e).
Proof.
  intros Ht. destruct e as [view|click| |op|op]; simpl.
  - now apply addView_Tidy.
  - now apply addClick_Tidy.
  - now apply initializeQueues_Tidy.
  - destruct (external op) eqn:Hext; [|exact Ht].
    destruct Ht as [Hv Hc]. split; simpl; [|exact Hc].
    destruct (viewQueue g) as [s0|]; simpl; intros s [= <-].
    apply (step_Clean validView s0 op); [|now apply Hv]. intros x ->. discriminate.
  - destruct (external op) eqn:Hext; [|exact Ht].
    destruct Ht as [Hv Hc]. split; simpl; [exact Hv|].
    destruct (clickQueue g) as [s0|]; simpl; intros s [= <-].
    apply (step_Clean validClick s0 op); [|now apply Hc]. intros x ->. discriminate.
Qed.

Lemma history_Tidy (server : bool) (es : list Event) : Tidy (history server es).
Proof.
  unfold history.
  assert (H0 : Tidy (loaded server)) by (split; intros s [=]).
  revert H0. generalize (loaded server).
  induction es as [|e es IH]; intros g Hg; simpl; [exact Hg|].
  apply IH. now apply react_Tidy.
Qed.

Lemma Clean_held {T : Type} (P : T -> Prop) (q : option (BatchQueue.Sys T)) :
  (forall s, q = Some s -> Inv.Clean P s) -> Forall P (held q).
Proof.
  intros H. destruct q as [s|]; simpl; [|constructor].
  destruct (H s eq_refl) as (Hq & _ & Hs). apply Forall_app. now split.
Qed.

(** C9.  [addView] and [addClick] return normally on every input.  An
    argument that is absent, or one of whose required fields is absent or
    empty after trimming, leaves both queues exactly as they were.  The guard
    lets through exactly the events whose required fields are all present and
    not empty after trimming, and whatever is done with the queues, every
    event a queue holds or has handed to [insertFn] is such an event. *)
Theorem boundary_skips_invalid (g : Globals)
    (view : option ViewRecord) (click : option ClickRecord) :
  (viewSkipped view = true -> addView g view = (g, Normally))
  /\ (clickSkipped click = true -> addClick g click = (g, Normally))
  /\ snd (addView g view) = Normally
  /\ snd (addClick g click) = Normally
  /\ (forall v, viewSkipped (Some v) = false <-> validView v)
  /\ (forall c, clickSkipped (Some c) = false <-> validClick c)
  /\ (forall server es,
        Forall validView (held (viewQueue (history server es)))
        /\ Forall validClick (held (clickQueue (history server es)))).
Proof.
  split; [|split; [|split; [|split; [|split; [|split]]]]].
  - intros Hs. unfold addView. destruct view; [now rewrite Hs | reflexivity].
  - intros Hs. unfold addClick. destruct click; [now rewrite Hs | reflexivity].
  - unfold addView. destruct view as [v|]; [|reflexivity].
    destruct (viewSkipped _); [reflexivity|].
    now destruct (viewQueue match viewQueue g with
                            | None => initializeQueues g | Some _ => g end).
  - unfold addClick. destruct click as [c|]; [|reflexivity].
    destruct (clickSkipped _); [reflexivity|].
    now destruct (clickQueue match clickQueue g with
                             | None => initializeQueues g | Some _ => g end).
  - apply viewSkipped_false_iff.
  - apply clickSkipped_false_iff.
  - intros server es. destruct (history_Tidy server es) as [Hv Hc].
    split; now apply Clean_held.
Qed.

End Boundary.

Lemma boundary_skips_invalid_witness :
  let g := Pipeline.initializeQueues (Pipeline.loaded true) in
  Pipeline.addView g
    (Some (Pipeline.mkView (Some "   "%string) (Some "10.0.0.1"%string) None "t0"))
  = (g, Pipeline.Normally)
  /\ Pipeline.addClick g
       (Some (Pipeline.mkClick None (Some "page"%string) (Some "10.0.0.1"%string) None "t0"))
     = (g, Pipeline.Normally).
Proof.
  intros g.
  destruct (boundary_skips_invalid g
    (Some (Pipeline.mkView (Some "   "%string) (Some "10.0.0.1"%string) None "t0"))
    (Some (Pipeline.mkClick None (Some "page"%string) (Some "10.0.0.1"%string) None "t0")))
    as (Hv & Hc & _).
  split; [apply Hv; reflexivity | apply Hc; reflexivity].
Defined.

(** ** The retry wrapper *)

Section RetryFacts.
Import Retry Schedule.
Context {A : Type}.
Implicit Types (fn : nat -> Settled A) (maxRetries initialDelay : Z).

Lemma backoff_snoc initialDelay (from k : nat) :
  backoff initialDelay from (S k)
  = backoff initialDelay from k ++ [initialDelay * 2 ^ Z.of_nat (from + k)].
Proof. unfold backoff. now rewrite seq_S, map_app. Qed.

Lemma backoff_cons initialDelay (from k : nat) :
  backoff initialDelay from (S k)
  = initialDelay * 2 ^ Z.of_nat from :: backoff initialDelay (S from) k.
Proof. reflexivity. Qed.

(** The loop always ends within [maxRetries + 1 - attempt] iterations. *)
Lemma loop_total fn maxRetries initialDelay (fuel : nat) :
  forall attempt last slept called,
    maxRetries + 1 - attempt <= Z.of_nat fuel ->
    exists r, loop fn maxRetries initialDelay fuel attempt last slept called = Some r.
Proof.
  induction fuel as [|fuel IH]; intros attempt last slept called Hfuel; simpl.
  - destruct (Z.leb_spec attempt maxRetries); [lia | eauto].
  - destruct (Z.leb_spec attempt maxRetries); [|eauto].
    destruct (fn called) as [v|error]; [eauto|].
    destruct (isTimeoutError error && (attempt <? maxRetries)); [|eauto].
    apply IH. lia.
Qed.

(** [k] timeout-classified failures in a row, each followed by a retry. *)
Lemma loop_retries fn maxRetries initialDelay (k : nat) :
  forall (fuel a : nat) last slept,
    Z.of_nat (a + k) <= maxRetries ->
    timeouts fn a k ->
    exists last',
      loop fn maxRetries initialDelay (k + fuel) (Z.of_nat a) last slept a
      = loop fn maxRetries initialDelay fuel (Z.of_nat (a + k)) last'
          (slept ++ backoff initialDelay a k) (a + k).
Proof.
  induction k as [|k IH]; intros fuel a last slept Hle Hto.
  - exists last. simpl. now rewrite Nat.add_0_r, app_nil_r.
  - destruct (Hto a ltac:(lia)) as (error & Hfn & Hcls).
    destruct (IH fuel (S a) error (slept ++ [initialDelay * 2 ^ Z.of_nat a])) as [last' Hrec].
    { lia. }
    { intros j Hj. apply Hto. lia. }
    exists last'. simpl loop.
    destruct (Z.leb_spec (Z.of_nat a) maxRetries); [|lia].
    rewrite Hfn, Hcls. simpl andb.
    destruct (Z.ltb_spec (Z.of_nat a) maxRetries); [|lia].
    replace (Z.of_nat a + 1) with (Z.of_nat (S a)) by lia.
    rewrite Hrec, backoff_cons, <- app_assoc.
    now replace (S a + k)%nat with (a + S k)%nat by lia.
Qed.

Lemma isTimeoutError_iff (error : JsValue) :
  isTimeoutError error = true <->
  exists message code,
    error = JsObject true message code /\
    (JsString.includes message "timeout" = true
     \/ JsString.includes message "TIMEOUT" = true
     \/ JsString.includes message "Connect Timeout" = true
     \/ JsString.includes message "fetch failed" = true).
Proof.
  unfold isTimeoutError. split.
  - destruct error as [| |[|] message code]; try discriminate.
    rewrite !orb_true_iff. intros H. exists message, code. tauto.
  - intros (message & code & -> & H). rewrite !orb_true_iff. tauto.
Qed.

End RetryFacts.

Section RetryClaims.
Import Retry Schedule.
Context {A : Type}.
Implicit Types (fn : nat -> Settled A) (initialDelay : Z).

(** [retryWithBackoff] always settles. *)
Lemma retryWithBackoff_total fn (maxRetries : Z) initialDelay :
  exists r, retryWithBackoff fn maxRetries initialDelay = Some r.
Proof. apply loop_total. lia. Qed.

(** With a negative [maxRetries] the operation is never called. *)
Lemma retryWithBackoff_negative fn (maxRetries : Z) initialDelay :
  maxRetries < 0 ->
  retryWithBackoff fn maxRetries initialDelay = Some (mkRun (Rejected JsUndefined) [] 0).
Proof.
  intros Hneg. unfold retryWithBackoff.
  destruct (Z.to_nat (maxRetries + 1)); simpl;
    destruct (Z.leb_spec 0 maxRetries); (lia || reflexivity).
Qed.

Lemma retry_reaches fn (m k : nat) initialDelay :
  (k <= m)%nat -> timeouts fn 0 k ->
  exists last,
    retryWithBackoff fn (Z.of_nat m) initialDelay
    = loop fn (Z.of_nat m) initialDelay (S (m - k)) (Z.of_nat k) last
        (backoff initialDelay 0 k) k.
Proof.
  intros Hk Hto. unfold retryWithBackoff.
  replace (Z.to_nat (Z.of_nat m + 1)) with (k + S (m - k))%nat by lia.
  destruct (loop_retries fn (Z.of_nat m) initialDelay k (S (m - k)) 0 JsUndefined [])
    as [last Hl]; [simpl; lia | exact Hto |].
  exists last. exact Hl.
Qed.

(** C6, as the code has it.  With [maxRetries = m]: an operation whose first
    [k <= m] calls fail with timeout-classified errors and whose next call
    succeeds yields that success value after [k] sleeps of
    [initialDelay * 2^0, ..., initialDelay * 2^(k-1)] and [k + 1] calls; an
    operation whose first [m] calls fail with timeout-classified errors and
    whose call number [m + 1] fails as well yields that last failure, after
    [m] sleeps and [m + 1] calls.  The [n]-th sleep is [initialDelay * 2^n]. *)
Theorem retry_backoff_schedule fn fn' (m k : nat) initialDelay (v : A) (error : JsValue) :
  ((k <= m)%nat -> timeouts fn 0 k -> fn k = Fulfilled v ->
   retryWithBackoff fn (Z.of_nat m) initialDelay
   = Some (mkRun (Fulfilled v) (backoff initialDelay 0 k) (S k)))
  /\ (timeouts fn' 0 m -> fn' m = Rejected error ->
      retryWithBackoff fn' (Z.of_nat m) initialDelay
      = Some (mkRun (Rejected error) (backoff initialDelay 0 m) (S m)))
  /\ (forall n, (n < m)%nat ->
        backoff initialDelay 0 m !! n = Some (initialDelay * 2 ^ Z.of_nat n)).
Proof.
  split; [|split].
  - intros Hk Hto Hfn.
    destruct (retry_reaches fn m k initialDelay Hk Hto) as [last ->].
    simpl. destruct (Z.leb_spec (Z.of_nat k) (Z.of_nat m)); [|lia].
    now rewrite Hfn.
  - intros Hto Hfn.
    destruct (retry_reaches fn' m m initialDelay (le_n m) Hto) as [last ->].
    simpl. destruct (Z.leb_spec (Z.of_nat m) (Z.of_nat m)); [|lia].
    rewrite Hfn, Z.ltb_irrefl, andb_false_r. reflexivity.
  - intros n Hn. unfold backoff. rewrite list_lookup_fmap.
    rewrite lookup_seq_lt by exact Hn. reflexivity.
Qed.

(** C7, as the code has it.  A thrown value is classified as retryable
    exactly when it is an [Error] whose message contains "timeout", "TIMEOUT",
    "Connect Timeout" or "fetch failed", letter case included.  A failure
    that is not so classified is re-raised by the attempt that raised it,
    whichever attempt that is: when the calls before call [k] failed with
    timeout-classified errors (which is how call [k] is reached) and call [k]
    fails with a value not so classified, the wrapper rejects with that value
    after [k + 1] calls and the [k] sleeps made before, none after it.  On
    the first attempt that is one call and no sleep. *)
Theorem retry_classification fn (m k : nat) initialDelay (error : JsValue) :
  (isTimeoutError error = true <->
   exists message code,
     error = JsObject true message code /\
     ((exists a b, message = a +:+ "timeout" +:+ b)
      \/ (exists a b, message = a +:+ "TIMEOUT" +:+ b)
      \/ (exists a b, message = a +:+ "Connect Timeout" +:+ b)
      \/ (exists a b, message = a +:+ "fetch failed" +:+ b)))
  /\ ((k <= m)%nat -> timeouts fn 0 k ->
      fn k = Rejected error -> isTimeoutError error = false ->
      retryWithBackoff fn (Z.of_nat m) initialDelay
      = Some (mkRun (Rejected error) (backoff initialDelay 0 k) (S k)))
  /\ (fn 0%nat = Rejected error -> isTimeoutError error = false ->
      retryWithBackoff fn (Z.of_nat m) initialDelay
      = Some (mkRun (Rejected error) [] 1)).
Proof.
  split; [|split].
  - rewrite isTimeoutError_iff. repeat setoid_rewrite <- includes_iff. reflexivity.
  - intros Hk Hto Hfn Hcls.
    destruct (retry_reaches fn m k initialDelay Hk Hto) as [last ->].
    simpl. destruct (Z.leb_spec (Z.of_nat k) (Z.of_nat m)); [|lia].
    now rewrite Hfn, Hcls.
  - intros Hfn Hcls. unfold retryWithBackoff.
    replace (Z.to_nat (Z.of_nat m + 1)) with (S m) by lia.
    simpl. destruct (Z.leb_spec 0 (Z.of_nat m)); [|lia].
    now rewrite Hfn, Hcls.
Qed.

End RetryClaims.

Lemma retry_backoff_schedule_witness :
  Retry.retryWithBackoff
    (Schedule.flaky [Sample.timeoutError; Sample.timeoutError] 42%N) 3 1000
  = Some (Retry.mkRun (Fulfilled 42%N) [1000; 2000] 3)
  /\ Retry.retryWithBackoff
       (Schedule.flaky (repeat Sample.timeoutError 4) 42%N) 3 1000
     = Some (Retry.mkRun (Rejected Sample.timeoutError) [1000; 2000; 4000] 4).
Proof.
  destruct (retry_backoff_schedule
              (Schedule.flaky [Sample.timeoutError; Sample.timeoutError] 42%N)
              (Schedule.flaky (repeat Sample.timeoutError 4) 42%N)
              3 2 1000 42%N Sample.timeoutError) as (Hok & Hfail & _).
  split.
  - apply Hok; [lia | | reflexivity].
    intros j Hj. exists Sample.timeoutError.
    destruct j as [|[|j]]; [split; reflexivity | split; reflexivity | lia].
  - apply Hfail; [|reflexivity].
    intros j Hj. exists Sample.timeoutError.
    destruct j as [|[|[|j]]]; [split; reflexivity .. | lia].
Defined.

Lemma retry_classification_witness :
  Retry.retryWithBackoff
    (Schedule.flaky [Sample.timeoutError; JsObject true "permission denied" None] 42%N)
    3 1000
  = Some (Retry.mkRun (Rejected (JsObject true "permission denied" None)) [1000] 2)
  /\ Retry.retryWithBackoff
       (Schedule.flaky [JsObject true "permission denied" None] 42%N) 3 1000
     = Some (Retry.mkRun (Rejected (JsObject true "permission denied" None)) [] 1).
Proof.
  split.
  - destruct (retry_classification
                (Schedule.flaky
                   [Sample.timeoutError; JsObject true "permission denied" None] 42%N)
                3 1 1000 (JsObject true "permission denied" None)) as (_ & Hlater & _).
    apply Hlater.
    + lia.
    + intros j Hj. exists Sample.timeoutError.
      destruct j as [|j]; [split; reflexivity | lia].
    + reflexivity.
    + reflexivity.
  - destruct (retry_classification
                (Schedule.flaky [JsObject true "permission denied" None] 42%N) 3 0 1000
                (JsObject true "permission denied" None)) as (_ & _ & Hfirst).
    apply Hfirst.
    + reflexivity.
    + reflexivity.
Defined.

Section RetryCounterexamples.
Import Retry Schedule Sample.

(** C6 as stated fails in its last part: with [maxRetries = 2], two
    timeout-classified failures are followed by a third call, whose success
    is returned; nothing is re-raised after [maxRetries] failures. *)
Lemma exhaustion_takes_one_more_failure :
  ~ (forall (fn : nat -> Settled N) (maxRetries : nat) (initialDelay : Z)
            (errors : nat -> JsValue),
       (0 < maxRetries)%nat ->
       (forall j, (j < maxRetries)%nat ->
                  fn j = Rejected (errors j) /\ isTimeoutError (errors j) = true) ->
       exists r, retryWithBackoff fn (Z.of_nat maxRetries) initialDelay = Some r
                 /\ outcome r = Rejected (errors (maxRetries - 1)%nat)).
Proof.
  intros H.
  destruct (H (flaky [timeoutError; timeoutError] 7%N) 2%nat 1000 (fun _ => timeoutError))
    as (r & Hr & Hout).
  - lia.
  - intros j Hj. destruct j as [|[|j]]; [split; reflexivity | split; reflexivity | lia].
  - vm_compute in Hr. injection Hr as <-. discriminate Hout.
Qed.

(** What the wrapper does there. *)
Example two_failures_then_success :
  retryWithBackoff (flaky [timeoutError; timeoutError] 7%N) 2 1000
  = Some (mkRun (Fulfilled 7%N) [1000; 2000] 3).
Proof. reflexivity. Qed.

(** C7 as stated fails: "Request Timeout" contains "timeout" when letter
    case is ignored, but the code does not classify it as retryable and
    rejects after the first call. *)
Lemma mixed_case_timeout_not_retried :
  let error := JsObject true "Request Timeout" None in
  spec_retryable "Request Timeout" = true
  /\ isTimeoutError error = false
  /\ retryWithBackoff (fun _ => Rejected (A:=N) error) 3 1000
     = Some (mkRun (Rejected error) [] 1).
Proof. repeat split. Qed.

(** Nor does the message alone decide: a thrown object that is not an
    [Error] is never retried. *)
Example timeout_of_non_error_not_retried :
  isTimeoutError (JsObject false "timeout" None) = false
  /\ isTimeoutError (JsPrimitive "timeout") = false.
Proof. split; reflexivity. Qed.

End RetryCounterexamples.

(** ** The identifier generator *)

Section UidFacts.
Import Uid.

Lemma length_append (a b : string) :
  String.length (a +:+ b) = (String.length a + String.length b)%nat.
Proof. induction a as [|c a IH]; simpl; [reflexivity | now rewrite IH]. Qed.

Lemma chars_append (a b : string) :
  list_ascii_of_string (a +:+ b) = list_ascii_of_string a ++ list_ascii_of_string b.
Proof. induction a as [|c a IH]; simpl; [reflexivity | now rewrite IH]. Qed.

Lemma get_chars (s : string) (k : nat) (c : ascii) :
  String.get k s = Some c -> c ∈ list_ascii_of_string s.
Proof.
  revert k. induction s as [|a s IH]; intros k; simpl; [discriminate|].
  destruct k as [|k].
  - intros [= ->]. left.
  - intros H. right. now apply (IH k).
Qed.

(** Rounding to a double moves a number by less than one unit of its last
    place, and numbers below [2^53] not at all. *)
Lemma roundToDouble_exact (n : N) : (n < 2 ^ 53)%N -> roundToDouble n = n.
Proof.
  intros Hn. unfold roundToDouble.
  destruct (N.ltb_spec n (2 ^ 53)); [reflexivity | lia].
Qed.

(** Rounding at exponent [e >= 1] adds at most half a unit of the last
    place, [2^(e-1)]. *)
Lemma round_half_up (n e : N) :
  (1 <= e)%N ->
  let q := (n / 2 ^ e)%N in
  let r := (n mod 2 ^ e)%N in
  let half := (2 ^ (e - 1))%N in
  ((if (half <? r)%N || ((r =? half)%N && N.odd q) then q + 1 else q) * 2 ^ e
   <= n + 2 ^ (e - 1))%N.
Proof.
  intros He q r half.
  assert (Hp : (2 ^ e = 2 * half)%N).
  { unfold half. rewrite <- N.pow_succ_r'. f_equal. lia. }
  assert (Hpos : (0 < half)%N) by (unfold half; apply N.neq_0_lt_0, N.pow_nonzero; discriminate).
  pose proof (N.Div0.div_mod n (2 ^ e)) as Hdm. fold q r in Hdm.
  assert (Hr : (r < 2 ^ e)%N) by (unfold r; apply N.mod_upper_bound; lia).
  fold half. rewrite Hp in *.
  destruct ((half <? r)%N || ((r =? half)%N && N.odd q)) eqn:Hc; [|nia].
  assert (half <= r)%N.
  { apply orb_true_iff in Hc as [Hc | Hc].
    - apply N.ltb_lt in Hc. lia.
    - apply andb_true_iff in Hc as [Hc _]. apply N.eqb_eq in Hc. lia. }
  nia.
Qed.

(** The product of a draw with the alphabet length, rounded as the
    multiplication rounds it, stays below the length: the largest draw,
    [1 - 2^-53], gives [37 - 37 * 2^-53], and rounding adds at most
    [32 * 2^-53]. *)
Lemma timesLength_bound (d : N) :
  (d < 2 ^ 53)%N -> (timesLength d < 37 * 2 ^ 53)%N.
Proof.
  intros Hd. unfold timesLength. change (N.of_nat (String.length uidAlphabet)) with 37%N.
  set (n := (d * 37)%N).
  assert (Hn : (n <= 37 * 2 ^ 53 - 37)%N) by (unfold n; lia).
  unfold roundToDouble.
  destruct (N.ltb_spec n (2 ^ 53)) as [Hsmall | Hbig]; [lia|].
  assert (Hpos : (0 < n)%N) by lia.
  assert (Hlo : (53 <= N.log2 n)%N) by (apply N.log2_le_pow2; assumption).
  assert (Hhi : (N.log2 n < 59)%N)
    by (apply N.log2_lt_pow2; [assumption | change (2 ^ 59)%N with (64 * 2 ^ 53)%N; lia]).
  cbv zeta. set (e := (N.log2 n - 52)%N).
  assert (He : (1 <= e <= 6)%N) by (unfold e; lia).
  pose proof (round_half_up n e (proj1 He)) as Hround. cbv zeta in Hround.
  assert (Hhalf : (2 ^ (e - 1) <= 2 ^ 5)%N) by (apply N.pow_le_mono_r; [discriminate | lia]).
  change (2 ^ 5)%N with 32%N in Hhalf. lia.
Qed.

(** Every index the random source yields is inside the alphabet. *)
Lemma pick_bound (src : RandomSource) (i : nat) :
  (pick src i < String.length uidAlphabet)%nat.
Proof.
  unfold pick. change (String.length uidAlphabet) with 37%nat.
  destruct src as [randomValues | draws].
  - assert ((randomValues i mod 2 ^ 32) mod N.of_nat 37 < N.of_nat 37)%N
      by (apply N.mod_upper_bound; discriminate).
    lia.
  - assert (Hd : (draws i mod 2 ^ 53 < 2 ^ 53)%N) by (apply N.mod_upper_bound; discriminate).
    pose proof (timesLength_bound _ Hd) as Hb. unfold floor.
    assert (timesLength (draws i mod 2 ^ 53) / 2 ^ 53 < 37)%N
      by (apply N.Div0.div_lt_upper_bound; lia).
    lia.
Qed.

(** The multiplication is not exact: for the draw [8520323619349587 / 2^53]
    the product is [35 - 2^-53], which rounds to [35], and the character is
    the one at index 35 and not the one at index 34. *)
Example pick_rounds_product :
  let src := MathRandom (fun _ => 8520323619349587%N) in
  (8520323619349587 * 37 / 2 ^ 53 = 34)%N
  /\ pick src 0 = 35%nat
  /\ String.get 0 (generateUid src 21) = Some "9"%char.
Proof. vm_compute. repeat split. Qed.

(** The alphabet holds lowercase letters, digits and the hyphen, and nothing
    else. *)
Lemma alphabet_chars :
  forallb lowerDigitHyphen (list_ascii_of_string uidAlphabet) = true.
Proof. reflexivity. Qed.

Lemma appendAt_inside (result : string) (k : nat) :
  (k < String.length uidAlphabet)%nat ->
  exists c, appendAt result k = result +:+ String c EmptyString
            /\ c ∈ list_ascii_of_string uidAlphabet
            /\ lowerDigitHyphen c = true.
Proof.
  intros Hk. unfold appendAt.
  destruct (String.get k uidAlphabet) as [c|] eqn:Hget.
  - exists c. split; [reflexivity|].
    apply get_chars in Hget. split; [exact Hget|].
    pose proof alphabet_chars as Hall. rewrite forallb_forall in Hall.
    apply Hall. now apply list_elem_of_In.
  - exfalso. revert Hget. clear -Hk.
    change (String.length uidAlphabet) with 37%nat in Hk.
    do 37 (destruct k as [|k]; [discriminate|]). lia.
Qed.

Lemma fill_spec (src : RandomSource) (n i : nat) (result : string) :
  String.length (fill src i n result) = (String.length result + n)%nat
  /\ (Forall uidChar (list_ascii_of_string result) ->
      Forall uidChar (list_ascii_of_string (fill src i n result))).
Proof.
  revert i result. induction n as [|n IH]; intros i result; simpl.
  - split; [lia | auto].
  - destruct (appendAt_inside result (pick src i) (pick_bound src i))
      as (c & -> & Hin & Hlow).
    destruct (IH (S i) (result +:+ String c EmptyString)) as [Hlen Hall].
    split.
    + rewrite Hlen, length_append. simpl. lia.
    + intros Hres. apply Hall. rewrite chars_append. apply Forall_app.
      split; [exact Hres|]. simpl. constructor; [split; assumption | constructor].
Qed.

Lemma generateUid_spec (src : RandomSource) (n : nat) :
  String.length (generateUid src n) = n
  /\ Forall uidChar (list_ascii_of_string (generateUid src n)).
Proof.
  unfold generateUid. destruct (fill_spec src n 0 EmptyString) as [Hlen Hall].
  split; [exact Hlen | apply Hall; constructor].
Qed.

End UidFacts.

Section UidClaims.
Import Uid.
Implicit Types (rng : nat -> RandomSource) (lookup : nat -> string -> QueryOutcome).

(** [k] collisions in a row. *)
Lemma rolling_collisions rng lookup (k : nat) :
  forall fuel a,
    (a + k <= maxAttempts)%nat ->
    (forall j, (a <= j < a + k)%nat -> collides rng lookup j) ->
    rolling rng lookup (k + fuel) a a = rolling rng lookup fuel (a + k) (a + k).
Proof.
  induction k as [|k IH]; intros fuel a Hle Hcol.
  - now rewrite Nat.add_0_r.
  - destruct (Hcol a ltac:(lia)) as (rows & Hlook & Hrows).
    simpl rolling. destruct (Nat.ltb_spec a maxAttempts); [|lia].
    rewrite Hlook, Hrows.
    rewrite IH; [now replace (S a + k)%nat with (a + S k)%nat by lia | lia |].
    intros j Hj. apply Hcol. lia.
Qed.

Lemma generateUid_truthy (src : RandomSource) :
  JsString.truthy (generateUid src 21) = true.
Proof.
  destruct (generateUid_spec src 21) as [Hlen _].
  destruct (generateUid src 21); [discriminate | reflexivity].
Qed.

(** The uid loop always ends. *)
Lemma rolling_total rng lookup (fuel : nat) :
  forall attempts generated,
    (maxAttempts - attempts <= fuel)%nat ->
    exists r, rolling rng lookup fuel attempts generated = Some r.
Proof.
  induction fuel as [|fuel IH]; intros attempts generated Hfuel; simpl.
  - destruct (Nat.ltb_spec attempts maxAttempts); [lia | eauto].
  - destruct (Nat.ltb_spec attempts maxAttempts); [|eauto].
    destruct (lookup generated _) as [rows|error]; [|eauto].
    destruct (noRows rows); [eauto|]. apply IH. lia.
Qed.

(** C8.  [generateUid()] yields 21 characters, each one of the alphabet and
    so a lowercase letter, a digit or the hyphen.  When the first [k < 10]
    lookups report a collision and the next one does not, [createLinktree]
    goes on with the identifier generated last, after [k + 1] calls of
    [generateUid()]; when all 10 lookups report a collision, it throws the
    exhaustion error after 10 calls. *)
Theorem uid_generation (src : RandomSource) rng lookup lookup' (k : nat) :
  (String.length (generateUid src 21) = 21%nat
   /\ Forall uidChar (list_ascii_of_string (generateUid src 21)))
  /\ ((k < maxAttempts)%nat ->
      (forall j, (j < k)%nat -> collides rng lookup j) ->
      unique rng lookup k ->
      createLinktree_uid rng lookup = Some (Fulfilled (generateUid (rng k) 21), S k))
  /\ ((forall j, (j < maxAttempts)%nat -> collides rng lookup' j) ->
      createLinktree_uid rng lookup' = Some (Rejected GenerationExhausted, maxAttempts)).
Proof.
  split; [apply generateUid_spec|]. split.
  - intros Hk Hcol (rows & Hlook & Hrows). unfold createLinktree_uid.
    replace maxAttempts with (k + S (maxAttempts - S k))%nat at 1 by lia.
    rewrite (rolling_collisions rng lookup k (S (maxAttempts - S k)) 0);
      [|simpl; lia | intros j Hj; apply Hcol; lia].
    simpl rolling. destruct (Nat.ltb_spec k maxAttempts); [|lia].
    rewrite Hlook, Hrows, generateUid_truthy.
    destruct (Nat.leb_spec maxAttempts k); [lia | reflexivity].
  - intros Hcol. unfold createLinktree_uid.
    replace maxAttempts with (maxAttempts + 0)%nat at 1 by lia.
    rewrite (rolling_collisions rng lookup' maxAttempts 0 0);
      [|simpl; lia | intros j Hj; apply Hcol; lia].
    reflexivity.
Qed.

End UidClaims.

Lemma uid_generation_witness :
  let rng := fun k => Uid.CryptoRandom (fun i => N.of_nat (7 * i + 100 * k)) in
  Uid.createLinktree_uid rng (Uid.collidingFirst 2)
  = Some (Fulfilled (Uid.generateUid (rng 2%nat) 21), 3%nat)
  /\ Uid.createLinktree_uid rng (Uid.collidingFirst 10)
     = Some (Rejected Uid.GenerationExhausted, 10%nat).
Proof.
  intros rng.
  destruct (uid_generation (rng 0%nat) rng (Uid.collidingFirst 2) (Uid.collidingFirst 10) 2)
    as (_ & Hthird & Hnone).
  split.
  - apply Hthird.
    + unfold Uid.maxAttempts. lia.
    + intros j Hj. exists (Some [Uid.generateUid (rng j) 21]). split; [|reflexivity].
      unfold Uid.collidingFirst. destruct (Nat.ltb_spec j 2); [reflexivity | lia].
    + exists (Some []). split; reflexivity.
  - apply Hnone. intros j Hj.
    exists (Some [Uid.generateUid (rng j) 21]). split; [|reflexivity].
    unfold Uid.collidingFirst. destruct (Nat.ltb_spec j 10); [reflexivity|].
    unfold Uid.maxAttempts in Hj. lia.
Defined.

(** The identifier of that run. *)
Example uid_sample :
  Uid.generateUid (Uid.CryptoRandom (fun i => N.of_nat (7 * i + 200))) 21
  = "pw3-gnu18elsz6cjqx4ah"%string.
Proof. vm_compute. reflexivity. Qed.

(** ** The [insertFn] closures *)

Section InsertFacts.
Import Pipeline Valid Insert.

Lemma collect_spec {T : Type} (width : nat) (row : T -> list SqlValue) (items : list T) :
  forall start placeholders values,
    collect width row items start placeholders values
    = (placeholders ++ map (fun k => tuple (start + width * k) width) (seq 0 (length items)),
       values ++ concat (map row items)).
Proof.
  induction items as [|item rest IH]; intros start placeholders values; simpl.
  - now rewrite !app_nil_r.
  - rewrite IH, <- !app_assoc. simpl. f_equal. f_equal.
    rewrite Nat.mul_0_r, Nat.add_0_r. f_equal.
    rewrite <- seq_shift, map_map. apply map_ext. intros k. f_equal. lia.
Qed.

(** Value number [width * i + j] of the rows laid end to end is value
    number [j] of row [i]. *)
Lemma lookup_rows {T V : Type} (width : nat) (row : T -> list V) (items : list T) :
  (forall x, length (row x) = width) ->
  forall i j item,
    items !! i = Some item -> (j < width)%nat ->
    concat (map row items) !! (width * i + j)%nat = row item !! j.
Proof.
  intros Hw. induction items as [|x rest IH]; intros i j item Hi Hj; [discriminate|].
  simpl. destruct i as [|i].
  - injection Hi as ->. rewrite Nat.mul_0_r. simpl.
    apply lookup_app_l. now rewrite Hw.
  - simpl in Hi. rewrite lookup_app_r by (rewrite Hw; lia).
    rewrite Hw. replace (width * S i + j - width)%nat with (width * i + j)%nat by lia.
    now apply IH.
Qed.

Lemma length_rows {T V : Type} (width : nat) (row : T -> list V) (items : list T) :
  (forall x, length (row x) = width) ->
  length (concat (map row items)) = (width * length items)%nat.
Proof.
  intros Hw. induction items as [|x rest IH]; simpl; [lia|].
  rewrite length_app, Hw, IH. lia.
Qed.

Lemma length_zero_iff {T : Type} (l : list T) : (length l =? 0)%nat = true <-> l = [].
Proof. destruct l; simpl; split; congruence. Qed.

Lemma insertFn_none {T : Type} kept width (row : T -> list SqlValue) head items db :
  List.filter kept items = [] ->
  insertFn kept width row head items db = (None, Fulfilled tt).
Proof.
  intros Hf. unfold insertFn. destruct (length items =? 0)%nat; [reflexivity|].
  now rewrite Hf.
Qed.

Lemma insertFn_some {T : Type} kept width (row : T -> list SqlValue) head items db :
  List.filter kept items <> [] ->
  insertFn kept width row head items db
  = (Some (mkCall
       (statement head
          (map (fun k => tuple (1 + width * k) width)
             (seq 0 (length (List.filter kept items)))))
       (concat (map row (List.filter kept items)))),
     caught db).
Proof.
  intros Hf. unfold insertFn.
  destruct (length items =? 0)%nat eqn:Hlen.
  - apply length_zero_iff in Hlen. subst items. now elim Hf.
  - destruct (length (List.filter kept items) =? 0)%nat eqn:Hlen'.
    + apply length_zero_iff in Hlen'. congruence.
    + now rewrite collect_spec.
Qed.

Lemma filled_negb_blank (x : option string) : filled x = negb (blank x).
Proof.
  destruct x as [s|]; simpl; [|reflexivity].
  now rewrite negb_orb, !negb_involutive.
Qed.

Lemma viewKept_guard (v : ViewRecord) : viewKept v = negb (viewSkipped (Some v)).
Proof. unfold viewKept. simpl. now rewrite !filled_negb_blank, negb_orb. Qed.

Lemma clickKept_guard (c : ClickRecord) : clickKept c = negb (clickSkipped (Some c)).
Proof. unfold clickKept. simpl. now rewrite !filled_negb_blank, !negb_orb. Qed.

Lemma caught_classifier (db : Settled unit) :
  caught db = match db with
              | Fulfilled _ => Fulfilled tt
              | Rejected error =>
                  if BatchQueue.isIgnorableError error then Fulfilled tt else Rejected error
              end.
Proof.
  destruct db as [v|error]; [reflexivity|]. unfold caught, BatchQueue.isIgnorableError.
  destruct error as [| |b message [code|]]; simpl; try reflexivity.
  now rewrite <- negb_orb, if_negb.
Qed.

End InsertFacts.

(** ** Invariants of the two module-level queues *)

Section HistoryInvariant.
Import Pipeline Valid.
Variable Iv : BatchQueue.Sys ViewRecord -> Prop.
Variable Ic : BatchQueue.Sys ClickRecord -> Prop.
Hypothesis Iv_boot : Iv (BatchQueue.boot 1000).
Hypothesis Ic_boot : Ic (BatchQueue.boot 1000).
Hypothesis Iv_step : forall s op,
  (forall x, op = BatchQueue.Enqueue x -> validView x) -> Iv s -> Iv (BatchQueue.step s op).
Hypothesis Ic_step : forall s op,
  (forall x, op = BatchQueue.Enqueue x -> validClick x) -> Ic s -> Ic (BatchQueue.step s op).

Local Abbreviation Both := (Lift.Both Iv Ic).

Lemma initializeQueues_Both (g : Globals) : Both g -> Both (initializeQueues g).
Proof.
  intros [Hv Hc]. unfold initializeQueues.
  destruct (serverSide g); simpl; [|now split].
  split; simpl.
  - destruct (viewQueue g) as [s0|]; intros s [= <-]; [now apply Hv | exact Iv_boot].
  - destruct (clickQueue g) as [s0|]; intros s [= <-]; [now apply Hc | exact Ic_boot].
Qed.

Lemma react_Both (g : Globals) (e : Event) : Both g -> Both (react g e).
Proof.
  intros Hb. destruct e as [view|click| |op|op]; simpl.
  - unfold addView. destruct view as [v|]; [|exact Hb].
    destruct (viewSkipped (Some v)) eqn:Hskip; [exact Hb|].
    apply viewSkipped_false_iff in Hskip.
    set (g1 := match viewQueue g with None => initializeQueues g | Some _ => g end).
    assert (Hb1 : Both g1).
    { unfold g1. destruct (viewQueue g); [exact Hb | now apply initializeQueues_Both]. }
    destruct (viewQueue g1) as [s|] eqn:Hq; [|exact Hb1].
    destruct Hb1 as [Hv Hc]. split; simpl; [|exact Hc].
    intros s' [= <-]. apply (Iv_step s (BatchQueue.Enqueue v)); [|now apply Hv].
    now intros x [= <-].
  - unfold addClick. destruct click as [c|]; [|exact Hb].
    destruct (clickSkipped (Some c)) eqn:Hskip; [exact Hb|].
    apply clickSkipped_false_iff in Hskip.
    set (g1 := match clickQueue g with None => initializeQueues g | Some _ => g end).
    assert (Hb1 : Both g1).
    { unfold g1. destruct (clickQueue g); [exact Hb | now apply initializeQueues_Both]. }
    destruct (clickQueue g1) as [s|] eqn:Hq; [|exact Hb1].
    destruct Hb1 as [Hv Hc]. split; simpl; [exact Hv|].
    intros s' [= <-]. apply (Ic_step s (BatchQueue.Enqueue c)); [|now apply Hc].
    now intros x [= <-].
  - now apply initializeQueues_Both.
  - destruct (external op) eqn:Hext; [|exact Hb].
    destruct Hb as [Hv Hc]. split; simpl; [|exact Hc].
    destruct (viewQueue g) as [s0|]; simpl; intros s [= <-].
    apply (Iv_step s0 op); [|now apply Hv]. intros x ->. discriminate.
  - destruct (external op) eqn:Hext; [|exact Hb].
    destruct Hb as [Hv Hc]. split; simpl; [exact Hv|].
    destruct (clickQueue g) as [s0|]; simpl; intros s [= <-].
    apply (Ic_step s0 op); [|now apply Hc]. intros x ->. discriminate.
Qed.

Lemma history_Both (server : bool) (es : list Event) : Both (history server es).
Proof.
  unfold history.
  assert (H0 : Both (loaded server)) by (split; intros s [=]).
  revert H0. generalize (loaded server).
  induction es as [|e es IH]; intros g Hg; simpl; [exact Hg|].
  apply IH. now apply react_Both.
Qed.

End HistoryInvariant.

Section InsertClaims.
Import Pipeline Valid Insert.

Lemma flushing_submitted {T : Type} (s : BatchQueue.Sys T) by_ (q : BatchQueue.t T) :
  BatchQueue.submitted (Inv.flushing s by_ q) = BatchQueue.submitted s
  \/ (BatchQueue.queue q <> []
      /\ BatchQueue.submitted (Inv.flushing s by_ q)
         = BatchQueue.submitted s ++ [BatchQueue.queue q]).
Proof.
  unfold Inv.flushing.
  destruct (flush_begin_cases q) as [H | (_ & Hne & H)]; rewrite H; simpl; auto.
Qed.

(** No empty batch is ever handed to [insertFn]. *)
Lemma step_submitted_nonempty {T : Type} (s : BatchQueue.Sys T) (op : BatchQueue.Op T) :
  Forall (fun b => b <> []) (BatchQueue.submitted s) ->
  Forall (fun b => b <> []) (BatchQueue.submitted (BatchQueue.step s op)).
Proof.
  intros Hs.
  destruct (step_shape s op) as
    [(by_ & q & -> & _ & _) | [(q & -> & _ & _) | [-> | H]]].
  - destruct (flushing_submitted s by_ q) as [-> | (Hne & ->)]; [exact Hs|].
    apply Forall_app. split; [exact Hs|]. now constructor.
  - exact Hs.
  - exact Hs.
  - destruct H as (outcome & by_ & items & rest & _ & _ & _ & -> & _). exact Hs.
Qed.

Lemma filter_all {T : Type} (kept : T -> bool) (l : list T) :
  Forall (fun x => kept x = true) l -> List.filter kept l = l.
Proof.
  induction 1 as [|x l Hx _ IH]; simpl; [reflexivity|]. now rewrite Hx, IH.
Qed.

Lemma Forall_concat_elem {T : Type} (P : T -> Prop) (ls : list (list T)) (b : list T) :
  Forall P (concat ls) -> b ∈ ls -> Forall P b.
Proof.
  intros Hall Hb. rewrite Forall_forall in *. intros x Hx.
  apply Hall. apply list_elem_of_In, in_concat. exists b.
  split; now apply list_elem_of_In.
Qed.

(** X1.  A closure rejects exactly when it called [query], [query] rejected,
    and [flush] would not classify the error as ignorable; it then rejects
    with that error. *)
Theorem closure_rejects_only_retryable
    (views : list ViewRecord) (clicks : list ClickRecord)
    (db : Settled unit) (error : JsValue) :
  (snd (viewInsertFn views db) = Rejected error <->
   List.filter viewKept views <> [] /\ db = Rejected error
   /\ BatchQueue.isIgnorableError error = false)
  /\ (snd (clickInsertFn clicks db) = Rejected error <->
      List.filter clickKept clicks <> [] /\ db = Rejected error
      /\ BatchQueue.isIgnorableError error = false).
Proof.
  assert (Hc : caught db = Rejected error <->
               db = Rejected error /\ BatchQueue.isIgnorableError error = false).
  { rewrite caught_classifier. destruct db as [v|e]; [split; [discriminate | now intros [? _]]|].
    destruct (BatchQueue.isIgnorableError e) eqn:He.
    - split; [discriminate | intros [[= ->] He']; congruence].
    - split; [intros [= ->]; auto | now intros [[= ->] _]]. }
  unfold viewInsertFn, clickInsertFn. split.
  - destruct (List.filter viewKept views) eqn:Hf.
    + rewrite insertFn_none by exact Hf. split; [discriminate | now intros [? _]].
    + rewrite insertFn_some by (rewrite Hf; discriminate). simpl snd. rewrite Hc.
      split; [intros H; split; [discriminate | exact H] | now intros [_ H]].
  - destruct (List.filter clickKept clicks) eqn:Hf.
    + rewrite insertFn_none by exact Hf. split; [discriminate | now intros [? _]].
    + rewrite insertFn_some by (rewrite Hf; discriminate). simpl snd. rewrite Hc.
      split; [intros H; split; [discriminate | exact H] | now intros [_ H]].
Qed.

(** X2.  A closure calls [query] only when some item passes its filter.  The
    statement then has one placeholder group per passing item, numbered
    consecutively from [$1], four per view and five per click, and the value
    bound to parameter [$(w*i + j + 1)] is field [j] of passing item [i]. *)
Theorem bulk_insert_alignment (views : list ViewRecord) (clicks : list ClickRecord)
    (db : Settled unit) :
  (List.filter viewKept views = [] -> viewInsertFn views db = (None, Fulfilled tt))
  /\ (List.filter clickKept clicks = [] -> clickInsertFn clicks db = (None, Fulfilled tt))
  /\ (List.filter viewKept views <> [] ->
      exists call,
        fst (viewInsertFn views db) = Some call
        /\ text call = statement viewHead
             (map (fun k => tuple (1 + 4 * k) 4)
                (seq 0 (length (List.filter viewKept views))))
        /\ length (values call) = (4 * length (List.filter viewKept views))%nat
        /\ forall i j item,
             List.filter viewKept views !! i = Some item -> (j < 4)%nat ->
             values call !! (4 * i + j)%nat = viewValues item !! j)
  /\ (List.filter clickKept clicks <> [] ->
      exists call,
        fst (clickInsertFn clicks db) = Some call
        /\ text call = statement clickHead
             (map (fun k => tuple (1 + 5 * k) 5)
                (seq 0 (length (List.filter clickKept clicks))))
        /\ length (values call) = (5 * length (List.filter clickKept clicks))%nat
        /\ forall i j item,
             List.filter clickKept clicks !! i = Some item -> (j < 5)%nat ->
             values call !! (5 * i + j)%nat = clickValues item !! j).
Proof.
  unfold viewInsertFn, clickInsertFn.
  split; [apply insertFn_none|]. split; [apply insertFn_none|]. split.
  - intros Hf. rewrite insertFn_some by exact Hf. eexists. split; [reflexivity|].
    simpl text. simpl values. split; [reflexivity|]. split.
    + now apply length_rows.
    + intros i j item Hi Hj. now apply lookup_rows.
  - intros Hf. rewrite insertFn_some by exact Hf. eexists. split; [reflexivity|].
    simpl text. simpl values. split; [reflexivity|]. split.
    + now apply length_rows.
    + intros i j item Hi Hj. now apply lookup_rows.
Qed.

(** X3.  Whatever is done with the two queues, every batch a queue hands to
    its closure is non-empty and passes the closure's filter unchanged, so
    the closure calls [query] with 4 values per view and 5 per click of the
    batch. *)
Theorem queue_batches_pass_filter (server : bool) (es : list Event) (db : Settled unit) :
  (forall s b, viewQueue (history server es) = Some s -> b ∈ BatchQueue.submitted s ->
     b <> [] /\ List.filter viewKept b = b
     /\ exists call, fst (viewInsertFn b db) = Some call
                     /\ length (values call) = (4 * length b)%nat)
  /\ (forall s b, clickQueue (history server es) = Some s -> b ∈ BatchQueue.submitted s ->
        b <> [] /\ List.filter clickKept b = b
        /\ exists call, fst (clickInsertFn b db) = Some call
                        /\ length (values call) = (5 * length b)%nat).
Proof.
  destruct (history_Both
    (fun s => Inv.Clean validView s /\ Forall (fun b => b <> []) (BatchQueue.submitted s))
    (fun s => Inv.Clean validClick s /\ Forall (fun b => b <> []) (BatchQueue.submitted s)))
    with (server := server) (es := es) as [Hv Hc].
  - split; [apply boot_Clean | constructor].
  - split; [apply boot_Clean | constructor].
  - intros s op Hop [H1 H2]. split; [now apply step_Clean | now apply step_submitted_nonempty].
  - intros s op Hop [H1 H2]. split; [now apply step_Clean | now apply step_submitted_nonempty].
  - split.
    + intros s b Hs Hb. destruct (Hv s Hs) as [(_ & _ & Hall) Hne].
      rewrite Forall_forall in Hne. pose proof (Hne b Hb) as Hb0.
      assert (Hf : List.filter viewKept b = b).
      { apply filter_all. eapply Forall_impl; [exact (Forall_concat_elem _ _ _ Hall Hb)|].
        intros v Hvalid. rewrite viewKept_guard.
        apply viewSkipped_false_iff in Hvalid. now rewrite Hvalid. }
      split; [exact Hb0|]. split; [exact Hf|].
      unfold viewInsertFn. rewrite insertFn_some by (rewrite Hf; exact Hb0).
      eexists. split; [reflexivity|]. simpl values. rewrite Hf. now apply length_rows.
    + intros s b Hs Hb. destruct (Hc s Hs) as [(_ & _ & Hall) Hne].
      rewrite Forall_forall in Hne. pose proof (Hne b Hb) as Hb0.
      assert (Hf : List.filter clickKept b = b).
      { apply filter_all. eapply Forall_impl; [exact (Forall_concat_elem _ _ _ Hall Hb)|].
        intros c Hvalid. rewrite clickKept_guard.
        apply clickSkipped_false_iff in Hvalid. now rewrite Hvalid. }
      split; [exact Hb0|]. split; [exact Hf|].
      unfold clickInsertFn. rewrite insertFn_some by (rewrite Hf; exact Hb0).
      eexists. split; [reflexivity|]. simpl values. rewrite Hf. now apply length_rows.
Qed.

End InsertClaims.

Lemma bulk_insert_alignment_witness :
  (exists call,
     fst (Insert.viewInsertFn
            [Drain.sampleView "10.0.0.1";
             Pipeline.mkView None (Some "10.0.0.2"%string) None "t";
             Drain.sampleView "10.0.0.3"] (Fulfilled tt)) = Some call
     /\ length (Insert.values call) = 8%nat)
  /\ Insert.clickInsertFn [Pipeline.mkClick None None None None "t"] (Fulfilled tt)
     = (None, Fulfilled tt).
Proof.
  destruct (bulk_insert_alignment
    [Drain.sampleView "10.0.0.1"; Pipeline.mkView None (Some "10.0.0.2"%string) None "t";
     Drain.sampleView "10.0.0.3"]
    [Pipeline.mkClick None None None None "t"] (Fulfilled tt))
    as (_ & Hnone & Hsome & _).
  split.
  - destruct Hsome as (call & Hcall & _ & Hlen & _); [discriminate|].
    exists call. split; [exact Hcall | exact Hlen].
  - apply Hnone. reflexivity.
Defined.

(** The statement for two views that pass the filter and one that does not. *)
Example bulk_insert_sample :
  fst (Insert.viewInsertFn
         [Drain.sampleView "10.0.0.1"; Pipeline.mkView None (Some "10.0.0.2"%string) None "t";
          Drain.sampleView "10.0.0.3"] (Fulfilled tt))
  = Some (Insert.mkCall
      "INSERT INTO page_views (linktree_id, ip_address, session_id, viewed_at) VALUES ($1, $2, $3, $4), ($5, $6, $7, $8) ON CONFLICT DO NOTHING"
      [Insert.SqlText "page-1"; Insert.SqlText "10.0.0.1"; Insert.SqlNull;
       Insert.SqlText "2024-01-01T00:00:00.000Z";
       Insert.SqlText "page-1"; Insert.SqlText "10.0.0.3"; Insert.SqlNull;
       Insert.SqlText "2024-01-01T00:00:00.000Z"]).
Proof. vm_compute. reflexivity. Qed.

Lemma queue_batches_pass_filter_witness :
  List.filter Insert.viewKept [Drain.sampleView "10.0.0.1"] = [Drain.sampleView "10.0.0.1"].
Proof.
  destruct (queue_batches_pass_filter true
    [Pipeline.AddView (Some (Drain.sampleView "10.0.0.1"));
     Pipeline.OnViews BatchQueue.Flush] (Fulfilled tt)) as [Hv _].
  apply (Hv (BatchQueue.mkSys (BatchQueue.mk [] 1000 true true)
               [(BatchQueue.ByCaller, [Drain.sampleView "10.0.0.1"])]
               [[Drain.sampleView "10.0.0.1"]] 1 [] [])).
  - reflexivity.
  - left.
Defined.

(** ** [destroy()], the timer and the shutdown handlers *)

Section DrainFacts.
Import BatchQueue Inv Drain.
Context {T : Type}.
Implicit Types (q : BatchQueue.t T) (s : Sys T) (op : Op T).

Lemma flush_begin_interval q : flushInterval (fst (flush_begin q)) = flushInterval q.
Proof. destruct (flush_begin_cases q) as [-> | (_ & _ & ->)]; reflexivity. Qed.

Lemma flush_settle_interval q items (outcome : Settled unit) :
  flushInterval (fst (fst (flush_settle q items outcome))) = flushInterval q.
Proof.
  unfold flush_settle. destruct outcome as [v|error]; [reflexivity|].
  destruct (negb _); [|reflexivity]. destruct (_ <? _)%nat; reflexivity.
Qed.

Lemma record_obj s by_ (r : BatchQueue.t T * Triggered T) : obj (record s by_ r) = fst r.
Proof. destruct r as [q [|[items|]]]; reflexivity. Qed.

(** Nothing arms the timer again. *)
Lemma step_keeps_disarmed s op :
  flushInterval (obj s) = false -> flushInterval (obj (step s op)) = false.
Proof.
  intros Hoff. destruct op as [x| | |outcome|]; simpl.
  - rewrite record_obj. unfold add. destruct (_ >=? _); [|exact Hoff].
    pose proof (flush_begin_interval (set_queue (queue (obj s) ++ [x]) (obj s))) as H.
    destruct (flush_begin _) as [q2 p]. simpl in *. congruence.
  - pose proof (flush_begin_interval (obj s)) as H.
    destruct (flush_begin _) as [q2 [items|]]; simpl in *; congruence.
  - now rewrite Hoff.
  - destruct (inflight s) as [|[by_ items] rest]; [exact Hoff|].
    pose proof (flush_settle_interval (obj s) items outcome) as H.
    destruct (flush_settle _ _ _) as [[q r] c]. destruct (deliver by_ r). simpl in *.
    congruence.
  - rewrite record_obj. unfold destroy. rewrite Hoff.
    destruct (0 <? _)%nat; [|exact Hoff].
    pose proof (flush_begin_interval (obj s)) as H.
    destruct (flush_begin _) as [q2 p]. simpl in *. congruence.
Qed.

Lemma destroy_disarms s : flushInterval (obj (step s Destroy)) = false.
Proof.
  simpl. rewrite record_obj. unfold destroy.
  set (q1 := if flushInterval (obj s) then set_flushInterval false (obj s) else obj s).
  assert (Hq1 : flushInterval q1 = false).
  { unfold q1. destruct (flushInterval (obj s)) eqn:E; [reflexivity | exact E]. }
  destruct (0 <? _)%nat; [|exact Hq1].
  pose proof (flush_begin_interval q1) as H.
  destruct (flush_begin _) as [q2 p]. simpl in *. congruence.
Qed.

Lemma run_without_ticks (ops : list (Op T)) s :
  flushInterval (obj s) = false ->
  run s ops = run s (List.filter notTick ops)
  /\ flushInterval (obj (run s ops)) = false.
Proof.
  revert s. induction ops as [|op ops IH]; intros s Hoff; [now split|].
  destruct (notTick op) eqn:Hop.
  - simpl List.filter. rewrite Hop. simpl run.
    apply IH. now apply step_keeps_disarmed.
  - destruct op; try discriminate. simpl List.filter. simpl run. rewrite Hoff.
    now apply IH.
Qed.

(** X4.  [destroy()] on a queue with no flush pending and a non-empty buffer
    hands the whole buffer to [insertFn] as one batch, and a rejection of
    that flush reaches no caller; on a queue with a flush pending it submits
    nothing and keeps the buffer.  After [destroy()] the timer never fires
    again: whatever follows, the firings of the timer change nothing and the
    timer stays disarmed. *)
Theorem destroy_last_flush_and_timer s s' (ops : list (Op T)) :
  (isProcessing (obj s) = false -> queue (obj s) <> [] ->
   submitted (step s Destroy) = submitted s ++ [queue (obj s)]
   /\ inflight (step s Destroy) = inflight s ++ [(ByDestroy, queue (obj s))]
   /\ queue (obj (step s Destroy)) = []
   /\ forall result, deliver ByDestroy result = ([], []))
  /\ (isProcessing (obj s') = true ->
      submitted (step s' Destroy) = submitted s'
      /\ inflight (step s' Destroy) = inflight s'
      /\ queue (obj (step s' Destroy)) = queue (obj s'))
  /\ run (step s Destroy) ops = run (step s Destroy) (List.filter notTick ops)
  /\ flushInterval (obj (run (step s Destroy) ops)) = false.
Proof.
  split; [|split].
  - intros Hp Hq. simpl. unfold destroy.
    set (q1 := if flushInterval (obj s) then set_flushInterval false (obj s) else obj s).
    assert (Hq1 : isProcessing q1 = false /\ queue q1 = queue (obj s)).
    { unfold q1. destruct (flushInterval (obj s)); auto. }
    destruct Hq1 as [Hp1 Hqq]. rewrite Hqq.
    destruct (queue (obj s)) as [|x l] eqn:E; [congruence|]. simpl (0 <? _)%nat.
    rewrite flush_begin_takes by (rewrite ?Hqq; congruence). simpl. rewrite Hqq.
    repeat split. intros [v|e]; reflexivity.
  - intros Hp. simpl. unfold destroy.
    set (q1 := if flushInterval (obj s') then set_flushInterval false (obj s') else obj s').
    assert (Hq1 : isProcessing q1 = true /\ queue q1 = queue (obj s')).
    { unfold q1. destruct (flushInterval (obj s')); auto. }
    destruct Hq1 as [Hp1 Hqq].
    destruct (0 <? _)%nat; [|simpl; auto].
    rewrite flush_begin_noop by (now left). simpl. auto.
  - apply run_without_ticks, destroy_disarms.
Qed.

(** X5.  The promise of [flush()] is rejected only with the error the insert
    was rejected with, and never with one classified as ignorable; so the
    handler of the timer callback logs every rejection it receives, and the
    rejection of a timer-driven flush reaches no caller. *)
Theorem flush_rejects_only_retryable q (items : list T) (outcome : Settled unit)
    (error : JsValue) :
  snd (fst (flush_settle q items outcome)) = Rejected error ->
  outcome = Rejected error
  /\ isIgnorableError error = false
  /\ autoFlushLog error = ["Auto-flush error:"%string]
  /\ deliver ByTimer (Rejected error) = ([], ["Auto-flush error:"%string]).
Proof.
  unfold flush_settle. destruct outcome as [v|e]; [discriminate|].
  destruct (isIgnorableError e) eqn:He; simpl; [discriminate|].
  assert (Hlog : autoFlushLog e = ["Auto-flush error:"%string])
    by (unfold autoFlushLog; now rewrite He).
  destruct (_ <? _)%nat; simpl; intros [= <-]; now rewrite Hlog.
Qed.

End DrainFacts.

Lemma destroy_last_flush_and_timer_witness :
  let s := Inv.pushed (BatchQueue.boot 1000) [1%N; 2%N] in
  BatchQueue.submitted (BatchQueue.step s BatchQueue.Destroy) = [[1%N; 2%N]]
  /\ BatchQueue.queue (BatchQueue.obj
       (BatchQueue.step (BatchQueue.step s BatchQueue.Flush) BatchQueue.Destroy)) = [].
Proof.
  intros s.
  destruct (destroy_last_flush_and_timer s (BatchQueue.step s BatchQueue.Flush) [])
    as (Hidle & Hbusy & _).
  split.
  - destruct Hidle as (H & _); [reflexivity | discriminate | exact H].
  - destruct Hbusy as (_ & _ & H); [reflexivity | exact H].
Defined.

Lemma flush_rejects_only_retryable_witness :
  BatchQueue.isIgnorableError Sample.networkError = false.
Proof.
  apply (flush_rejects_only_retryable (BatchQueue.mk [] 1000 true true) [1%N]
           (Rejected Sample.networkError) Sample.networkError).
  reflexivity.
Defined.

Section PipelineRuns.
Import BatchQueue Pipeline Valid Inv Drain.

Lemma addView_valid (g : Globals) (v : ViewRecord) (s : Sys ViewRecord) :
  validView v -> viewQueue g = Some s ->
  fst (addView g (Some v))
  = mkGlobals (serverSide g) (Some (step s (Enqueue v))) (clickQueue g).
Proof.
  intros Hv Hq. unfold addView.
  apply viewSkipped_false_iff in Hv. rewrite Hv, Hq. simpl. now rewrite Hq.
Qed.

Lemma addViews_valid (views : list ViewRecord) (g : Globals) (s : Sys ViewRecord) :
  Forall validView views -> viewQueue g = Some s ->
  fold_left react (map (fun v => AddView (Some v)) views) g
  = mkGlobals (serverSide g) (Some (run s (map Enqueue views))) (clickQueue g).
Proof.
  revert g s. induction views as [|v views IH]; intros g s Hall Hq.
  - simpl. rewrite <- Hq. now destruct g.
  - inversion Hall as [|? ? Hv Hrest]; subst.
    change (fold_left react (map (fun v => AddView (Some v)) (v :: views)) g)
      with (fold_left react (map (fun v => AddView (Some v)) views)
              (fst (addView g (Some v)))).
    rewrite (addView_valid g v s Hv Hq).
    rewrite (IH _ (step s (Enqueue v))); [reflexivity | exact Hrest | reflexivity].
Qed.

Lemma addView_first (v : ViewRecord) :
  validView v ->
  fst (addView (loaded true) (Some v))
  = mkGlobals true (Some (step (boot 1000) (Enqueue v))) (Some (boot 1000)).
Proof.
  intros Hv. unfold addView. apply viewSkipped_false_iff in Hv. now rewrite Hv.
Qed.

(** The views of a server that has only received valid views. *)
Lemma history_of_views (views : list ViewRecord) :
  Forall validView views -> views <> [] ->
  history true (map (fun v => AddView (Some v)) views)
  = mkGlobals true (Some (run (boot 1000) (map Enqueue views))) (Some (boot 1000)).
Proof.
  intros Hall Hne. destruct views as [|v views]; [congruence|].
  inversion Hall as [|? ? Hv Hrest]; subst. unfold history.
  change (fold_left react (map (fun v => AddView (Some v)) (v :: views)) (loaded true))
    with (fold_left react (map (fun v => AddView (Some v)) views)
            (fst (addView (loaded true) (Some v)))).
  rewrite (addView_first v Hv).
  rewrite (addViews_valid views _ (step (boot 1000) (Enqueue v))); [reflexivity | exact Hrest |].
  reflexivity.
Qed.

(** X6.  On the server, a freshly loaded module that receives fewer than
    1000 valid views and then a call of [flushAllQueues()] has handed the
    views to [insertFn] as exactly one batch, in the order they arrived, and
    its buffer is empty; the click queue has submitted nothing.  When that
    insert succeeds nothing is pending, nothing was raised and the buffer is
    still empty. *)
Theorem views_flushed_as_one_batch (views : list ViewRecord) :
  Forall validView views -> views <> [] -> (length views < 1000)%nat ->
  let g := flushAllQueues (history true (map (fun v => AddView (Some v)) views)) in
  exists sv sc,
    viewQueue g = Some sv /\ clickQueue g = Some sc
    /\ submitted sv = [views]
    /\ inflight sv = [(ByCaller, views)]
    /\ queue (obj sv) = []
    /\ submitted sc = []
    /\ (let sv' := step sv (Settle (Fulfilled tt)) in
        inflight sv' = [] /\ queue (obj sv') = [] /\ raised sv' = []
        /\ isProcessing (obj sv') = false).
Proof.
  intros Hall Hne Hlen. cbv zeta.
  rewrite (history_of_views views Hall Hne).
  rewrite enqueue_many_below by (simpl; lia).
  unfold flushAllQueues. simpl.
  rewrite flush_begin_takes; [|reflexivity | simpl; exact Hne].
  simpl. eexists. eexists. repeat split.
Qed.

(** X7.  In the browser ([window] defined) the queues are never created:
    whatever is called, the module state stays as loaded, so no event is ever
    buffered, and [flushAllQueues()] does nothing. *)
Theorem client_side_never_queues (es : list Event) :
  history false es = loaded false
  /\ flushAllQueues (history false es) = loaded false
  /\ held (viewQueue (history false es)) = []
  /\ held (clickQueue (history false es)) = [].
Proof.
  assert (H : history false es = loaded false).
  { unfold history. induction es as [|e es IH]; [reflexivity|]. simpl.
    replace (react (loaded false) e) with (loaded false); [exact IH|].
    destruct e as [[v|]|[c|]| |op|op]; unfold react; try reflexivity.
    - unfold addView. now destruct (viewSkipped (Some v)).
    - unfold addClick. now destruct (clickSkipped (Some c)).
    - now destruct (external op).
    - now destruct (external op). }
  rewrite H. repeat split.
Qed.

End PipelineRuns.

Lemma views_flushed_as_one_batch_witness :
  let views := [Drain.sampleView "10.0.0.1"; Drain.sampleView "10.0.0.2";
                Drain.sampleView "10.0.0.3"] in
  exists sv,
    Pipeline.viewQueue
      (Drain.flushAllQueues
         (Pipeline.history true (map (fun v => Pipeline.AddView (Some v)) views)))
    = Some sv
    /\ BatchQueue.submitted sv = [views].
Proof.
  intros views.
  destruct (views_flushed_as_one_batch views) as (sv & sc & Hv & _ & Hs & _).
  - repeat constructor; (eexists; split; [reflexivity | discriminate]).
  - discriminate.
  - simpl. lia.
  - exists sv. split; [exact Hv | exact Hs].
Defined.

Section Shutdown.
Import BatchQueue Pipeline Inv Drain.

Lemma step_Flush_takes {T : Type} (s : Sys T) :
  isProcessing (obj s) = false -> queue (obj s) <> [] ->
  step s Flush
  = mkSys (mk [] (maxBatchSize (obj s)) true (flushInterval (obj s)))
      (inflight s ++ [(ByCaller, queue (obj s))]) (submitted s ++ [queue (obj s)])
      (S (flushCalls s)) (raised s) (console s).
Proof. intros Hp Hq. simpl. now rewrite flush_begin_takes. Qed.

Lemma awaited_rejected {T : Type} (s : Sys T) (error : JsValue) :
  isProcessing (obj s) = false -> inflight s = [] -> queue (obj s) <> [] ->
  isIgnorableError error = false ->
  awaited s (Rejected error)
  = (mkSys (mk (queue (obj s)) (maxBatchSize (obj s)) false (flushInterval (obj s)))
       [] (submitted s ++ [queue (obj s)]) (S (flushCalls s))
       (raised s ++ [error]) (console s ++ ["Batch insert error:"%string]),
     Rejected error).
Proof.
  intros Hp Hin Hq He. unfold awaited.
  rewrite flush_begin_takes by assumption.
  rewrite step_Flush_takes by assumption. rewrite Hin.
  simpl. rewrite He. simpl. now rewrite !app_nil_r.
Qed.

Lemma drainOne_fulfilled {T : Type} (s : Sys T) :
  isProcessing (obj s) = false -> inflight s = [] ->
  exists s',
    drainOne (Some s) (Fulfilled tt) = (Some s', Fulfilled tt)
    /\ queue (obj s') = [] /\ flushInterval (obj s') = false
    /\ inflight s' = [] /\ isProcessing (obj s') = false
    /\ concat (submitted s') = concat (submitted s) ++ queue (obj s).
Proof.
  intros Hp Hin. unfold drainOne, awaited.
  destruct (queue (obj s)) as [|x l] eqn:Hq.
  - rewrite flush_begin_noop by (now right). simpl.
    rewrite flush_begin_noop by (now right). simpl. unfold destroy.
    destruct (flushInterval (obj s)) eqn:Hf; simpl; rewrite Hq; simpl;
      eexists; (split; [reflexivity|]); simpl; rewrite ?app_nil_r; auto 10.
  - rewrite flush_begin_takes by (rewrite ?Hq; congruence).
    rewrite step_Flush_takes by (rewrite ?Hq; congruence). rewrite Hin, Hq.
    simpl. unfold destroy. simpl.
    destruct (flushInterval (obj s)) eqn:Hf; simpl;
      eexists; (split; [reflexivity|]); simpl;
      rewrite ?concat_app; simpl; rewrite ?app_nil_r; auto 10.
Qed.

(** X8.  At shutdown, when the flush of the view queue is rejected, the
    handler stops there: the failed batch is back in the view buffer, the
    view timer is left as it was, the click queue is not touched at all and
    [process.exit(0)] is not reached.  When both queues are idle and both
    flushes succeed, both buffers end empty, both timers are disarmed,
    everything buffered has been handed to [insertFn], and [process.exit(0)]
    is reached. *)
Theorem shutdown_stops_at_failed_flush (g g' : Globals)
    (sv sv' : Sys ViewRecord) (sc' : Sys ClickRecord)
    (error : JsValue) (clicks : Settled unit) :
  (viewQueue g = Some sv ->
   isProcessing (obj sv) = false -> inflight sv = [] -> queue (obj sv) <> [] ->
   isIgnorableError error = false ->
   exists sv1,
     onSignal g (Rejected error) clicks
     = (mkGlobals (serverSide g) (Some sv1) (clickQueue g), false)
     /\ queue (obj sv1) = queue (obj sv)
     /\ flushInterval (obj sv1) = flushInterval (obj sv)
     /\ raised sv1 = raised sv ++ [error])
  /\ (viewQueue g' = Some sv' -> clickQueue g' = Some sc' ->
      isProcessing (obj sv') = false -> inflight sv' = [] ->
      isProcessing (obj sc') = false -> inflight sc' = [] ->
      exists sv2 sc2,
        onSignal g' (Fulfilled tt) (Fulfilled tt)
        = (mkGlobals (serverSide g') (Some sv2) (Some sc2), true)
        /\ queue (obj sv2) = [] /\ queue (obj sc2) = []
        /\ flushInterval (obj sv2) = false /\ flushInterval (obj sc2) = false
        /\ concat (submitted sv2) = concat (submitted sv') ++ queue (obj sv')
        /\ concat (submitted sc2) = concat (submitted sc') ++ queue (obj sc')).
Proof.
  split.
  - intros Hq Hp Hin Hne He. unfold onSignal, flushAll, drainOne. rewrite Hq.
    rewrite awaited_rejected by assumption.
    eexists. split; [reflexivity|]. simpl. auto.
  - intros Hv Hc Hpv Hiv Hpc Hic. unfold onSignal, flushAll. rewrite Hv, Hc.
    destruct (drainOne_fulfilled sv' Hpv Hiv) as (sv2 & -> & Hv2).
    destruct (drainOne_fulfilled sc' Hpc Hic) as (sc2 & -> & Hc2).
    exists sv2, sc2. split; [reflexivity|]. tauto.
Qed.

End Shutdown.

Lemma shutdown_stops_at_failed_flush_witness :
  let g := Pipeline.mkGlobals true
             (Some (Inv.pushed (BatchQueue.boot 1000) [Drain.sampleView "10.0.0.1"]))
             (Some (Inv.pushed (BatchQueue.boot 1000) [Drain.sampleClick "10.0.0.1"])) in
  snd (Drain.onSignal g (Rejected Sample.networkError) (Fulfilled tt)) = false
  /\ snd (Drain.onSignal g (Fulfilled tt) (Fulfilled tt)) = true.
Proof.
  intros g.
  destruct (shutdown_stops_at_failed_flush g g
    (Inv.pushed (BatchQueue.boot 1000) [Drain.sampleView "10.0.0.1"])
    (Inv.pushed (BatchQueue.boot 1000) [Drain.sampleView "10.0.0.1"])
    (Inv.pushed (BatchQueue.boot 1000) [Drain.sampleClick "10.0.0.1"])
    Sample.networkError (Fulfilled tt)) as [Hfail Hok].
  split.
  - destruct Hfail as (sv1 & H & _);
      [reflexivity | reflexivity | reflexivity | discriminate | reflexivity |].
    now rewrite H.
  - destruct Hok as (sv2 & sc2 & H & _);
      [reflexivity | reflexivity | reflexivity | reflexivity | reflexivity | reflexivity |].
    now rewrite H.
Defined.

(** ** What every run of the retry wrapper looks like *)

Section RetryRuns.
Import Retry Schedule Reads.
Context {A : Type}.
Implicit Types (fn : nat -> Settled A) (initialDelay : Z).

Lemma total_backoff initialDelay (k : nat) :
  total (backoff initialDelay 0 k) = initialDelay * (2 ^ Z.of_nat k - 1).
Proof.
  induction k as [|k IH]; [simpl; lia|].
  rewrite backoff_snoc. unfold total in *. rewrite fold_right_app. simpl.
  assert (Hshift : forall (l : list Z) (z : Z),
            fold_right Z.add z l = fold_right Z.add 0 l + z).
  { induction l as [|x l IHl]; intros z; simpl; [lia | rewrite IHl; lia]. }
  rewrite Hshift, IH. rewrite Nat2Z.inj_succ, Z.pow_succ_r by lia. lia.
Qed.

(** The shape of a run from the state of the loop before call number [a]. *)
Lemma loop_shape fn (m : nat) initialDelay (fuel : nat) :
  forall (a : nat) last,
    (a <= m)%nat -> (m + 1 - a <= fuel)%nat -> timeouts fn 0 a ->
    exists r,
      loop fn (Z.of_nat m) initialDelay fuel (Z.of_nat a) last (backoff initialDelay 0 a) a
      = Some r
      /\ (a < calls r <= m + 1)%nat
      /\ delays r = backoff initialDelay 0 (calls r - 1)
      /\ outcome r = fn (calls r - 1)%nat
      /\ timeouts fn 0 (calls r - 1)
      /\ (forall e, outcome r = Rejected e -> (calls r <= m)%nat -> isTimeoutError e = false).
Proof.
  induction fuel as [|fuel IH]; intros a last Ha Hfuel Hto; [lia|].
  simpl loop. destruct (Z.leb_spec (Z.of_nat a) (Z.of_nat m)); [|lia].
  destruct (fn a) as [v|error] eqn:Hfn.
  - eexists. split; [reflexivity|]. simpl. rewrite Nat.sub_0_r.
    split; [lia|]. split; [reflexivity|]. split; [now rewrite Hfn|].
    split; [exact Hto | discriminate].
  - destruct (isTimeoutError error) eqn:Hcls; simpl andb.
    + destruct (Z.ltb_spec (Z.of_nat a) (Z.of_nat m)).
      * replace (Z.of_nat a + 1) with (Z.of_nat (S a)) by lia.
        replace (backoff initialDelay 0 a ++ [initialDelay * 2 ^ Z.of_nat a])
          with (backoff initialDelay 0 (S a)) by (now rewrite backoff_snoc).
        destruct (IH (S a) error) as (r & Hr & Hcalls & Hrest); [lia | lia | |].
        { intros j Hj. destruct (Nat.eq_dec j a) as [-> | Hne].
          - now exists error.
          - apply Hto. lia. }
        exists r. split; [exact Hr|]. split; [lia | exact Hrest].
      * eexists. split; [reflexivity|]. simpl. rewrite Nat.sub_0_r.
        split; [lia|]. split; [reflexivity|]. split; [now rewrite Hfn|].
        split; [exact Hto|]. intros e _ Hle. lia.
    + eexists. split; [reflexivity|]. simpl. rewrite Nat.sub_0_r.
      split; [lia|]. split; [reflexivity|]. split; [now rewrite Hfn|].
      split; [exact Hto|]. intros e [= <-] _. exact Hcls.
Qed.

(** X9.  Every run of the wrapper with [maxRetries = m >= 0] calls the
    operation at least once and at most [m + 1] times; it settles to what the
    last call settled to; every earlier call failed with a timeout-classified
    error; the sleeps are [initialDelay * 2^0, 2^1, ...], one per earlier
    call, and for a non-negative [initialDelay] they add up to at most
    [initialDelay * (2^m - 1)]; and a run that rejects before call number
    [m + 1] rejects with an error that is not timeout-classified.  With a
    negative [maxRetries] the operation is never called and the wrapper
    rejects with [undefined]. *)
Theorem retry_run_shape fn (m : nat) initialDelay (negative : Z) :
  (exists r,
     retryWithBackoff fn (Z.of_nat m) initialDelay = Some r
     /\ (1 <= calls r <= m + 1)%nat
     /\ outcome r = fn (calls r - 1)%nat
     /\ timeouts fn 0 (calls r - 1)
     /\ delays r = backoff initialDelay 0 (calls r - 1)
     /\ (0 <= initialDelay -> 0 <= total (delays r) <= initialDelay * (2 ^ Z.of_nat m - 1))
     /\ (forall e, outcome r = Rejected e -> (calls r <= m)%nat -> isTimeoutError e = false))
  /\ (negative < 0 ->
      retryWithBackoff fn negative initialDelay = Some (mkRun (Rejected JsUndefined) [] 0)).
Proof.
  split; [|apply retryWithBackoff_negative].
  unfold retryWithBackoff.
  destruct (loop_shape fn m initialDelay (Z.to_nat (Z.of_nat m + 1)) 0 JsUndefined)
    as (r & Hr & Hcalls & Hdel & Hout & Hto & Hcls); [lia | lia | intros j Hj; lia |].
  exists r. split; [exact Hr|]. split; [lia|].
  split; [exact Hout|]. split; [exact Hto|]. split; [exact Hdel|]. split; [|exact Hcls].
  intros Hd. rewrite Hdel, total_backoff.
  assert (1 <= 2 ^ Z.of_nat (calls r - 1) <= 2 ^ Z.of_nat m).
  { split; [|apply Z.pow_le_mono_r; lia].
    pose proof (Z.pow_pos_nonneg 2 (Z.of_nat (calls r - 1))). lia. }
  nia.
Qed.

End RetryRuns.

Lemma retry_run_shape_witness :
  Retry.retryWithBackoff (Schedule.flaky [Sample.timeoutError] 42%N) (-1) 1000
  = Some (Retry.mkRun (Rejected JsUndefined) [] 0).
Proof.
  apply (retry_run_shape (Schedule.flaky [Sample.timeoutError] 42%N) 3 1000 (-1)).
  lia.
Defined.

Section ReadsFacts.
Import Retry Reads.
Context {Link : Type}.

(** X10.  [getLinksByLinktreeId] runs its query at most 4 times, sleeps at
    most 1000 + 2000 + 4000 ms in all, and settles to what its last query
    settled to: the rows of that query ([[]] when the result has none), or
    the error it threw. *)
Theorem getLinks_bounded (db : nat -> Settled (option (list Link))) :
  exists r,
    getLinksByLinktreeId db = Some r
    /\ (1 <= calls r <= 4)%nat
    /\ 0 <= total (delays r) <= 7000
    /\ match db (calls r - 1)%nat with
       | Fulfilled rows => outcome r = Fulfilled (rowsOrEmpty rows)
       | Rejected error => outcome r = Rejected error
       end.
Proof.
  unfold getLinksByLinktreeId.
  destruct (retry_run_shape
              (fun k => match db k with
                        | Fulfilled rows => Fulfilled (rowsOrEmpty rows)
                        | Rejected error => Rejected error
                        end) 3 1000 (-1))
    as [(r & Hr & Hcalls & Hout & _ & _ & Htotal & _) _].
  exists r. split; [exact Hr|]. split; [exact Hcalls|].
  split; [apply Htotal; lia|].
  rewrite Hout. now destruct (db (calls r - 1)%nat).
Qed.

End ReadsFacts.

(** ** Default messages and [batchCreateLinks] *)

Section MessageFacts.
Import Messages.

Lemma isMessaging_iff (platform : string) :
  isMessaging platform = true <->
  platform = "whatsapp"%string \/ platform = "telegram"%string \/ platform = "viber"%string.
Proof.
  unfold isMessaging, messagingPlatforms. cbn [existsb].
  rewrite orb_false_r, !orb_true_iff, !String.eqb_eq. tauto.
Qed.

Lemma orNull_not_given (x : option string) : given x = false -> orNull x = PNull.
Proof. intros H. unfold orNull. now rewrite H. Qed.

(** X11.  [createLink] computes its default message exactly as
    [getDefaultMessageForPlatform] does: a non-empty message given by the
    caller is kept, otherwise whatsapp, telegram and viber get the empty
    string and every other platform [null].  [batchCreateLinks] computes the
    same value but binds [default_message || null], which is [null] whenever
    no non-empty message was given, for the three messaging platforms too. *)
Theorem default_message_paths (name : string) (custom : option string)
    (link : NewLink) :
  createLink_defaultMessage name custom = getDefaultMessageForPlatform name custom
  /\ (given custom = true -> getDefaultMessageForPlatform name custom = custom)
  /\ (given custom = false ->
      getDefaultMessageForPlatform name custom
      = if isMessaging name then Some EmptyString else None)
  /\ (isMessaging name = true <->
      name = "whatsapp"%string \/ name = "telegram"%string \/ name = "viber"%string)
  /\ row (prepared link) !! 5%nat
     = Some (if given (default_message link)
             then orNull (default_message link) else PNull).
Proof.
  split; [reflexivity|].
  split; [unfold getDefaultMessageForPlatform; now intros ->|].
  split; [unfold getDefaultMessageForPlatform; now intros ->|].
  split; [apply isMessaging_iff|].
  simpl. f_equal. unfold createLink_defaultMessage.
  destruct (given (default_message link)) eqn:Hg; [reflexivity|].
  now destruct (isMessaging (platform link)).
Qed.

Lemma batch_collect_spec (links : list NewLink) :
  forall start placeholders values,
    collect links start placeholders values
    = (placeholders ++ map (fun k => tuple9 (start + 9 * k)) (seq 0 (length links)),
       values ++ concat (map row links)).
Proof.
  induction links as [|link rest IH]; intros start placeholders values; simpl.
  - now rewrite !app_nil_r.
  - rewrite IH, <- !app_assoc. simpl. f_equal. f_equal.
    rewrite Nat.add_0_r. f_equal.
    rewrite <- seq_shift, map_map. apply map_ext. intros k. f_equal. lia.
Qed.

(** X12.  [batchCreateLinks] with no links returns without calling [query].
    Otherwise the statement has one placeholder group per link, numbered
    consecutively from [$1], nine per link, and the value bound to parameter
    [$(9*i + j + 1)] is field [j] of link [i] as prepared; [click_count] is
    always bound to 0. *)
Theorem batch_create_alignment (links : list NewLink) :
  (links = [] -> batchCreateLinks links = None)
  /\ (links <> [] ->
      exists placeholders values,
        batchCreateLinks links = Some (placeholders, values)
        /\ placeholders = map (fun k => tuple9 (1 + 9 * k)) (seq 0 (length links))
        /\ length values = (9 * length links)%nat
        /\ forall i j link,
             links !! i = Some link -> (j < 9)%nat ->
             values !! (9 * i + j)%nat = row (prepared link) !! j
             /\ values !! (9 * i + 7)%nat = Some (PNum 0)).
Proof.
  split; [now intros ->|].
  intros Hne. unfold batchCreateLinks.
  destruct (length links =? 0)%nat eqn:Hlen.
  { apply length_zero_iff in Hlen. congruence. }
  rewrite batch_collect_spec. simpl app. rewrite length_map.
  eexists. eexists. split; [reflexivity|]. split; [reflexivity|]. split.
  - rewrite (length_rows 9 row) by reflexivity. now rewrite length_map.
  - intros i j link Hi Hj.
    assert (Hi' : map prepared links !! i = Some (prepared link))
      by (now rewrite list_lookup_fmap, Hi).
    split; [now apply (lookup_rows 9 row)|].
    now rewrite (lookup_rows 9 row _ (fun _ => eq_refl) i 7 (prepared link) Hi') by lia.
Qed.

End MessageFacts.

Lemma default_message_paths_witness :
  Messages.getDefaultMessageForPlatform "whatsapp" None = Some EmptyString
  /\ Messages.getDefaultMessageForPlatform "instagram" (Some "hello"%string)
     = Some "hello"%string.
Proof.
  split.
  - apply (default_message_paths "whatsapp" None
             (Messages.mkNewLink "t" "whatsapp" "u" 0 None None None None)).
    reflexivity.
  - apply (default_message_paths "instagram" (Some "hello"%string)
             (Messages.mkNewLink "t" "whatsapp" "u" 0 None None None None)).
    reflexivity.
Defined.

Lemma batch_create_alignment_witness :
  Messages.batchCreateLinks [] = None
  /\ exists placeholders values,
       Messages.batchCreateLinks
         [Messages.mkNewLink "t" "whatsapp" "https://wa.me/1" 0 None None None None]
       = Some (placeholders, values)
       /\ length values = 9%nat.
Proof.
  split.
  - apply (batch_create_alignment []). reflexivity.
  - destruct (batch_create_alignment
      [Messages.mkNewLink "t" "whatsapp" "https://wa.me/1" 0 None None None None])
      as (_ & H).
    destruct H as (placeholders & values & Hcall & _ & Hlen & _); [discriminate|].
    exists placeholders, values. split; [exact Hcall | exact Hlen].
Defined.

(** The call made for one whatsapp link without a message: the default
    message is bound to [null]. *)
Example batch_create_sample :
  Messages.batchCreateLinks
    [Messages.mkNewLink "t" "whatsapp" "https://wa.me/1" 0 None None None None]
  = Some (["($1, $2, $3, $4, $5, $6, $7, $8, $9::jsonb)"%string],
          [Messages.PText "t"; Messages.PText "whatsapp"; Messages.PText "https://wa.me/1";
           Messages.PNull; Messages.PNull; Messages.PNull;
           Messages.PNum 0; Messages.PNum 0; Messages.PText "{}"]).
Proof. vm_compute. reflexivity. Qed.

(** ** Identifier checks before deleting links *)

Section UuidFacts.
Import Uuid.








End UuidFacts.


(** ** The dynamic [UPDATE] statements *)

Section UpdateFacts.
Import Update.

Lemma givenSlots_length (slots : list Slot) :
  length (givenSlots slots) = length (givenValues slots).
Proof.
  induction slots as [|sl rest IH]; [reflexivity|].
  unfold givenSlots, givenValues in *. simpl.
  destruct (pushed sl); simpl; now rewrite IH.
Qed.

Lemma assign_spec (slots : list Slot) :
  forall start fields values,
    assign slots start fields values
    = ((start + length (givenValues slots))%nat,
       fields ++ imap (fun i sl => assignment sl (start + i)) (givenSlots slots),
       values ++ givenValues slots).
Proof.
  induction slots as [|sl rest IH]; intros start fields values.
  - simpl. now rewrite Nat.add_0_r, !app_nil_r.
  - simpl assign. unfold givenSlots, givenValues in *. simpl.
    destruct (pushed sl) as [v|] eqn:Hp; simpl.
    + rewrite IH, <- !app_assoc. simpl.
      rewrite Nat.add_0_r, <- Nat.add_succ_r.
      rewrite (imap_ext ((fun i sl0 => assignment sl0 (start + i)) ∘ S)
                 (fun i sl0 => assignment sl0 (S (start + i))));
        [reflexivity|].
      intros i x _. simpl. f_equal. lia.
    + apply IH.
Qed.

Lemma assign_from_one (slots : list Slot) :
  assign slots 1 [] []
  = (S (length (givenValues slots)),
     imap (fun i sl => assignment sl (S i)) (givenSlots slots),
     givenValues slots).
Proof. now rewrite assign_spec. Qed.

Lemma length_imap_given (slots : list Slot) :
  (length (imap (fun i sl => assignment sl (S i)) (givenSlots slots)) =? 0)%nat
  = (length (givenValues slots) =? 0)%nat.
Proof. now rewrite length_imap, givenSlots_length. Qed.

Lemma image_given (data : UpdateLinktreeData) :
  image data <> None -> givenValues (linktreeSlots data) <> [].
Proof.
  intros Himg. unfold givenValues, linktreeSlots. simpl.
  destruct (image data) as [img|]; [|congruence].
  destruct (name data), (subtitle data), (slug data); simpl; discriminate.
Qed.

(** X14.  [updateLinktree] asks for the old image exactly when [data.image]
    is given, and throws before building anything when that query throws or
    its result has no rows array.  It only reads the row, sending no
    [UPDATE], exactly when no field is given.  In every other case it sends
    the [UPDATE]: the [SET] entries are those of the given fields, in the
    order of the source and numbered [$1 .. $k]; the values are the [k]
    given values followed by the id; and the parameter of [WHERE id = $n] is
    [k + 1], the number of the id among the values: every placeholder has
    its value and every value its placeholder. *)
Theorem updateLinktree_parameters (id : string) (data : UpdateLinktreeData)
    (existing : ImageLookup) :
  (forall error, updateLinktree id data existing = Raised error <->
     image data <> None
     /\ (existing = ImageThrows error
         \/ (existing = ImageRows None /\ error = rowsUndefined)))
  /\ (updateLinktree id data existing = ReadOnly <-> givenValues (linktreeSlots data) = [])
  /\ ((exists st, updateLinktree id data existing = Updates st) <->
      givenValues (linktreeSlots data) <> []
      /\ (image data = None \/ exists rows, existing = ImageRows (Some rows)))
  /\ forall st, updateLinktree id data existing = Updates st ->
       sets st = imap (fun i sl => assignment sl (S i)) (givenSlots (linktreeSlots data))
                 ++ ["updated_at = NOW()"%string]
       /\ values st = givenValues (linktreeSlots data) ++ [VText id]
       /\ whereIndex st = length (values st)
       /\ values st !! (whereIndex st - 1)%nat = Some (VText id).
Proof.
  pose proof (image_given data) as Himg.
  unfold updateLinktree, readOldImage. rewrite assign_from_one, length_imap_given.
  destruct (givenValues (linktreeSlots data)) as [|v vs] eqn:Hg; simpl (length _ =? 0)%nat.
  - destruct (image data) as [img|]; [exfalso; now apply Himg|].
    split; [|split; [|split]].
    + intros error. split; [discriminate | intros [H _]; congruence].
    + split; reflexivity.
    + split; [intros [st H]; discriminate | intros [H _]; congruence].
    + discriminate.
  - assert (Hsent : forall st,
      Updates (mkStatement
                 (imap (fun i sl => assignment sl (S i)) (givenSlots (linktreeSlots data))
                  ++ ["updated_at = NOW()"%string]) (S (length (v :: vs)))
                 ((v :: vs) ++ [VText id])) = Updates st ->
      sets st = imap (fun i sl => assignment sl (S i)) (givenSlots (linktreeSlots data))
                ++ ["updated_at = NOW()"%string]
      /\ values st = (v :: vs) ++ [VText id]
      /\ whereIndex st = length (values st)
      /\ values st !! (whereIndex st - 1)%nat = Some (VText id)).
    { intros st [= <-]. simpl. rewrite length_app. simpl.
      split; [reflexivity|]. split; [reflexivity|]. split; [lia|].
      rewrite lookup_app_r by lia. now rewrite Nat.sub_diag. }
    destruct (image data) as [img|].
    + destruct existing as [[rows|]|thrown].
      * split; [|split; [|split]].
        -- intros error. split; [discriminate|].
           intros [_ [H | [H _]]]; discriminate.
        -- split; discriminate.
        -- split; [intros _; split; [discriminate | right; eauto] | eauto].
        -- exact Hsent.
      * split; [|split; [|split]].
        -- intros error. split.
           ++ intros [= <-]. split; [discriminate | right; split; reflexivity].
           ++ intros [_ [H | [_ ->]]]; [discriminate | reflexivity].
        -- split; discriminate.
        -- split; [intros [st H]; discriminate|].
           intros [_ [H | [rows H]]]; discriminate.
        -- discriminate.
      * split; [|split; [|split]].
        -- intros error. split.
           ++ intros [= <-]. split; [discriminate | left; reflexivity].
           ++ intros [_ [[= ->] | [H _]]]; [reflexivity | discriminate].
        -- split; discriminate.
        -- split; [intros [st H]; discriminate|].
           intros [_ [H | [rows H]]]; discriminate.
        -- discriminate.
    + split; [|split; [|split]].
      * intros error. split; [discriminate | intros [H _]; congruence].
      * split; discriminate.
      * split; [intros _; split; [discriminate | left; reflexivity] | eauto].
      * exact Hsent.
Qed.

(** X15.  [updateLink] builds its statement the same way, but its parameter
    of [WHERE id = $n] is [k + 2] for [k] given fields, one more than the
    number of values: the [WHERE] clause names a parameter that has no value,
    and the id, value number [k + 1], has no placeholder. *)
Theorem updateLink_where_unbound (id : string) (data : UpdateLinkData) :
  (updateLink id data = None <-> givenValues (linkSlots data) = [])
  /\ forall st, updateLink id data = Some st ->
       sets st = imap (fun i sl => assignment sl (S i)) (givenSlots (linkSlots data))
                 ++ ["updated_at = NOW()"%string]
       /\ values st = givenValues (linkSlots data) ++ [VText id]
       /\ whereIndex st = S (length (values st))
       /\ values st !! (whereIndex st - 1)%nat = None
       /\ values st !! (whereIndex st - 2)%nat = Some (VText id).
Proof.
  unfold updateLink. rewrite assign_from_one, length_imap_given.
  destruct (givenValues (linkSlots data)) as [|v vs] eqn:Hg; simpl (length _ =? 0)%nat.
  - split; [split; reflexivity | discriminate].
  - split; [split; discriminate|].
    intros st [= <-]. simpl. rewrite length_app. simpl.
    split; [reflexivity|]. split; [reflexivity|]. split; [lia|]. split.
    + apply lookup_ge_None_2. rewrite length_app. simpl. lia.
    + rewrite lookup_app_r by lia. now rewrite Nat.sub_diag.
Qed.

End UpdateFacts.

Lemma updateLinktree_parameters_witness :
  exists st,
    Update.updateLinktree "id-1"
      (Update.mkLinktreeData (Some "Ali"%string) None None (Some None) None None None None
         (Some true))
      (Update.ImageRows (Some [Some "old.png"%string])) = Update.Updates st
    /\ Update.whereIndex st = length (Update.values st).
Proof.
  destruct (updateLinktree_parameters "id-1"
              (Update.mkLinktreeData (Some "Ali"%string) None None (Some None) None None None
                 None (Some true))
              (Update.ImageRows (Some [Some "old.png"%string]))) as (_ & _ & _ & H).
  eexists. split; [reflexivity|].
  apply H. reflexivity.
Defined.

Lemma updateLink_where_unbound_witness :
  exists st,
    Update.updateLink "id-1"
      (Update.mkLinkData None (Some "https://example.org"%string) None None None None None)
    = Some st
    /\ Update.whereIndex st = S (length (Update.values st)).
Proof.
  destruct (updateLink_where_unbound "id-1"
              (Update.mkLinkData None (Some "https://example.org"%string) None None None
                 None None)) as [_ H].
  eexists. split; [reflexivity|].
  apply H. reflexivity.
Defined.

(** The two statements for one given field each; and an image update
    whose query for the old image fails sends nothing. *)
Example update_samples :
  Update.updateLinktree "id-1"
    (Update.mkLinktreeData (Some "Ali"%string) None None None None None None None None)
    (Update.ImageThrows Sample.networkError)
  = Update.Updates
      (Update.mkStatement ["name = $1::varchar"; "updated_at = NOW()"]%string 2
         [Update.VText "Ali"; Update.VText "id-1"])
  /\ Update.updateLinktree "id-1"
       (Update.mkLinktreeData None None None (Some (Some "new.png"%string)) None None None
          None None)
       (Update.ImageThrows Sample.networkError)
     = Update.Raised Sample.networkError
  /\ Update.updateLink "id-1"
       (Update.mkLinkData None (Some "https://example.org"%string) None None None None None)
     = Some (Update.mkStatement ["url = $1"; "updated_at = NOW()"]%string 3
               [Update.VText "https://example.org"; Update.VText "id-1"]).
Proof. repeat split; vm_compute; reflexivity. Qed.

(** ** Trimming twice *)

Section TrimFacts.
Import JsString.

Lemma trimEnd_cons_ink (c : ascii) (r : string) :
  isWhiteSpace c = false -> trimEnd (String c r) = String c (trimEnd r).
Proof. intros Hc. simpl. rewrite Hc. now destruct (trimEnd r). Qed.

Lemma trimEnd_idem (s : string) : trimEnd (trimEnd s) = trimEnd s.
Proof.
  induction s as [|c r IH]; [reflexivity|]. simpl.
  destruct (trimEnd r) as [|x t] eqn:Hr.
  - destruct (isWhiteSpace c) eqn:Hc; [reflexivity|]. simpl. now rewrite Hc.
  - change (trimEnd (String c (String x t))) with
      (match trimEnd (String x t) with
       | EmptyString => if isWhiteSpace c then EmptyString else String c EmptyString
       | r' => String c r'
       end).
    now rewrite IH.
Qed.

Lemma trimStart_shape (s : string) :
  trimStart s = EmptyString
  \/ exists c r, trimStart s = String c r /\ isWhiteSpace c = false.
Proof.
  induction s as [|c r IH]; [now left|]. simpl.
  destruct (isWhiteSpace c) eqn:Hc; [exact IH|]. right. now exists c, r.
Qed.

(** [s.trim().trim()] is [s.trim()]. *)
Lemma trim_idem (s : string) : trim (trim s) = trim s.
Proof.
  unfold trim. destruct (trimStart_shape s) as [-> | (c & r & -> & Hc)]; [reflexivity|].
  rewrite (trimEnd_cons_ink c r Hc). simpl trimStart. rewrite Hc.
  rewrite (trimEnd_cons_ink c _ Hc). now rewrite trimEnd_idem.
Qed.

Lemma filled_trim (s : string) :
  truthy (trim s) = true -> Insert.filled (Some (trim s)) = true.
Proof. intros H. simpl. now rewrite trim_idem, H. Qed.

End TrimFacts.

(** ** The uid-to-id cache *)

Section CacheFacts.
Import Cache.
Implicit Types (cache : Cache.t) (key uid : string) (e : Entry).

Lemma get_set_same cache key e : get (set cache key e) key = Some e.
Proof.
  induction cache as [|[k e'] rest IH]; simpl.
  - now rewrite String.eqb_refl.
  - destruct (String.eqb k key) eqn:Hk; simpl; now rewrite Hk.
Qed.

Lemma get_delete_other cache key key' :
  key <> key' -> get (delete cache key) key' = get cache key'.
Proof.
  intros Hne. induction cache as [|[k e'] rest IH]; [reflexivity|].
  unfold delete in *. simpl.
  destruct (String.eqb_spec k key) as [-> | Hk]; simpl.
  - rewrite IH. now destruct (String.eqb_spec key key').
  - now rewrite IH.
Qed.

Lemma get_None_iff cache key : get cache key = None <-> key ∉ keys cache.
Proof.
  induction cache as [|[k e'] rest IH]; simpl.
  - split; [intros _ H; inversion H | reflexivity].
  - rewrite not_elem_of_cons. destruct (String.eqb_spec k key) as [-> | Hk].
    + split; [discriminate | intros [H _]; congruence].
    + rewrite IH. split; [intros H; split; congruence | now intros [_ H]].
Qed.

Lemma set_present cache key e :
  key ∈ keys cache ->
  keys (set cache key e) = keys cache /\ length (set cache key e) = length cache.
Proof.
  induction cache as [|[k e'] rest IH]; simpl; intros Hin; [inversion Hin|].
  destruct (String.eqb_spec k key) as [-> | Hk]; [now split|].
  apply elem_of_cons in Hin as [-> | Hin]; [congruence|].
  destruct (IH Hin) as [Hkeys Hlen]. simpl. now rewrite Hkeys, Hlen.
Qed.

Lemma set_absent cache key e :
  key ∉ keys cache -> set cache key e = cache ++ [(key, e)].
Proof.
  induction cache as [|[k e'] rest IH]; simpl; intros Hnin; [reflexivity|].
  apply not_elem_of_cons in Hnin as [Hne Hnin].
  destruct (String.eqb_spec k key) as [-> | Hk]; [congruence|]. now rewrite IH.
Qed.

Lemma keys_delete_sub cache key : keys (delete cache key) `sublist_of` keys cache.
Proof.
  unfold keys, delete. induction cache as [|[k e'] rest IH]; simpl; [constructor|].
  destruct (negb _); simpl; [now constructor | now constructor].
Qed.

Lemma delete_head_length (k : string) e (rest : Cache.t) :
  (length (delete ((k, e) :: rest) k) <= length rest)%nat.
Proof.
  unfold delete. simpl. rewrite String.eqb_refl. simpl. apply List.filter_length_le.
Qed.

Lemma limit_Bounded cache :
  NoDup (keys cache) -> (length cache <= 1001)%nat -> EmptyString ∉ keys cache ->
  Bounded (limit cache).
Proof.
  intros Hnd Hlen Hne. unfold limit.
  destruct (Nat.ltb_spec 1000 (length cache)) as [Hbig | Hsmall]; [|now repeat split; try lia].
  destruct cache as [|[k e] rest]; [simpl in Hbig; lia|].
  assert (Hk : JsString.truthy k = true).
  { destruct k; [|reflexivity]. exfalso. apply Hne. left. }
  rewrite Hk. split; [|split].
  - eapply sublist_NoDup; [exact Hnd | apply keys_delete_sub].
  - pose proof (delete_head_length k e rest). simpl in Hlen. lia.
  - intros H. apply Hne. eapply elem_of_sublist; [exact H | apply keys_delete_sub].
Qed.

Lemma get_limit_set cache uid e :
  Bounded cache -> get (limit (set cache uid e)) uid = Some e.
Proof.
  intros (Hnd & Hlen & Hne). unfold limit.
  destruct (Nat.ltb_spec 1000 (length (set cache uid e))) as [Hbig | _];
    [|apply get_set_same].
  destruct (set cache uid e) as [|[k e'] rest] eqn:Hset; [simpl in Hbig; lia|].
  destruct (JsString.truthy k); [|rewrite <- Hset; apply get_set_same].
  assert (Hnin : uid ∉ keys cache).
  { intros Hin. destruct (set_present cache uid e Hin) as [_ Hl].
    rewrite Hset in Hl. lia. }
  rewrite get_delete_other; [rewrite <- Hset; apply get_set_same|].
  intros ->. rewrite set_absent in Hset by exact Hnin.
  destruct cache as [|[k0 e0] rest0].
  - simpl in Hset. injection Hset as _ Hrest. subst rest. simpl in Hbig. lia.
  - simpl in Hset. injection Hset as -> _ _. apply Hnin. left.
Qed.

Lemma set_Bounded cache uid e :
  uid <> EmptyString -> Bounded cache -> Bounded (limit (set cache uid e)).
Proof.
  intros Huid (Hnd & Hlen & Hne).
  destruct (decide (uid ∈ keys cache)) as [Hin | Hnin].
  - destruct (set_present cache uid e Hin) as [Hkeys Hl].
    apply limit_Bounded; rewrite ?Hkeys, ?Hl; auto; lia.
  - rewrite (set_absent cache uid e Hnin). apply limit_Bounded.
    + unfold keys. rewrite map_app. simpl. apply NoDup_app. split; [exact Hnd|].
      split; [|apply NoDup_singleton].
      intros x Hx Hx'. apply list_elem_of_singleton in Hx' as ->. now apply Hnin.
    + rewrite length_app. simpl. lia.
    + unfold keys. rewrite map_app. simpl. intros H.
      apply elem_of_app in H as [H | H]; [now apply Hne|].
      apply list_elem_of_singleton in H. congruence.
Qed.

Lemma get_set_other cache key key' e :
  key <> key' -> get (set cache key e) key' = get cache key'.
Proof.
  intros Hne. induction cache as [|[k e'] rest IH]; simpl.
  - now destruct (String.eqb_spec key key').
  - destruct (String.eqb_spec k key) as [-> | Hk]; simpl.
    + now destruct (String.eqb_spec key key').
    + now rewrite IH.
Qed.

Lemma get_delete_same cache key : get (delete cache key) key = None.
Proof.
  apply get_None_iff. unfold keys, delete. intros Hin.
  apply list_elem_of_fmap in Hin as ([k e] & -> & Hin).
  apply list_elem_of_In, List.filter_In in Hin as [_ Hin]. simpl in Hin.
  now rewrite String.eqb_refl in Hin.
Qed.

Lemma truthy_nonempty (s : string) : s <> EmptyString -> JsString.truthy s = true.
Proof. destruct s; [congruence | reflexivity]. Qed.

(** What caching another key does to the entry of [uid]: nothing, unless
    the cache is full and [uid] is its oldest key, which is then deleted. *)
Lemma limit_set_other cache uid uid' e :
  Bounded cache -> uid' <> uid ->
  get (limit (set cache uid' e)) uid = get cache uid
  \/ (length cache = 1000%nat /\ head (keys cache) = Some uid /\ (uid' ∉ keys cache)
      /\ get (limit (set cache uid' e)) uid = None).
Proof.
  intros (Hnd & Hlen & Hne) Hother. unfold limit.
  destruct (Nat.ltb_spec 1000 (length (set cache uid' e))) as [Hbig | _];
    [|left; now apply get_set_other].
  destruct (decide (uid' ∈ keys cache)) as [Hin | Hnin].
  { destruct (set_present cache uid' e Hin) as [_ Hl]. lia. }
  pose proof (get_set_other cache uid' uid e Hother) as Hget.
  rewrite set_absent in * by exact Hnin. rewrite length_app in Hbig. cbn [length] in Hbig.
  destruct cache as [|[k e0] rest]; [cbn [length] in Hbig; lia|].
  cbn [app]. cbn [app] in Hget.
  rewrite truthy_nonempty by (intros ->; apply Hne; left).
  destruct (String.eqb_spec k uid) as [-> | Hk].
  - right. split; [lia|]. split; [reflexivity|]. split; [exact Hnin|].
    apply get_delete_same.
  - left. rewrite get_delete_other by exact Hk. exact Hget.
Qed.

(** X16.  With a cache of at most 1000 entries, distinct non-empty keys, and
    a non-empty [uid]: the cache stays that way after the call.  A cached
    entry younger than 24 hours is returned without calling [query] and
    without touching the cache.  When the query is made and finds a row, its
    id is returned and cached, so that the next call for the same [uid], made
    on the cache as this call left it and within 24 hours of that moment,
    returns it without calling [query]; when it finds no row, [null] is
    returned and nothing is cached; when it throws, the error is passed on
    and nothing is cached.  A call for another uid leaves the entry of [uid]
    as it is, with one exception: when the cache holds 1000 entries, [uid] is
    the oldest key and the other uid is new, caching the other uid deletes
    the entry of [uid], and a call for [uid] after that queries again, however
    recently the entry was cached. *)
Theorem uid_cache_roundtrip cache uid (now later : Z) (db : Uid.QueryOutcome) :
  uid <> EmptyString -> Bounded cache ->
  let call := getLinktreeIdByUid cache uid now later db in
  Bounded (after call)
  /\ (forall e, get cache uid = Some e -> now - timestamp e < CACHE_TTL ->
        call = mkCall cache (Fulfilled (Some (id e))) false)
  /\ (queried call = true ->
      match db with
      | Uid.QueryThrows error => result call = Rejected error /\ after call = cache
      | Uid.QueryRows (Some (rowId :: _)) =>
          result call = Fulfilled (Some rowId)
          /\ forall now' later' db', now' - later < CACHE_TTL ->
               getLinktreeIdByUid (after call) uid now' later' db'
               = mkCall (after call) (Fulfilled (Some rowId)) false
      | Uid.QueryRows _ => result call = Fulfilled None /\ after call = cache
      end)
  /\ (forall uid' now' later' db', uid' <> uid ->
        let other := getLinktreeIdByUid cache uid' now' later' db' in
        get (after other) uid = get cache uid
        \/ (length cache = 1000%nat /\ head (keys cache) = Some uid /\ (uid' ∉ keys cache)
            /\ get (after other) uid = None))
  /\ (forall uid' now' later' rowId rest,
        length cache = 1000%nat -> head (keys cache) = Some uid -> uid' ∉ keys cache ->
        let other :=
          getLinktreeIdByUid cache uid' now' later' (Uid.QueryRows (Some (rowId :: rest))) in
        get (after other) uid = None
        /\ forall now2 later2 db2,
             queried (getLinktreeIdByUid (after other) uid now2 later2 db2) = true).
Proof.
  intros Huid Hb call. unfold call, getLinktreeIdByUid.
  set (miss := match db with
               | Uid.QueryThrows error => mkCall cache (Rejected error) true
               | Uid.QueryRows (Some (rowId :: _)) =>
                   mkCall (limit (set cache uid (mkEntry rowId later)))
                     (Fulfilled (Some rowId)) true
               | Uid.QueryRows _ => mkCall cache (Fulfilled None) true
               end).
  assert (Hmiss :
    Bounded (after miss)
    /\ match db with
       | Uid.QueryThrows error => result miss = Rejected error /\ after miss = cache
       | Uid.QueryRows (Some (rowId :: _)) =>
           result miss = Fulfilled (Some rowId)
           /\ forall now' later' db', now' - later < CACHE_TTL ->
                getLinktreeIdByUid (after miss) uid now' later' db'
                = mkCall (after miss) (Fulfilled (Some rowId)) false
       | Uid.QueryRows _ => result miss = Fulfilled None /\ after miss = cache
       end).
  { unfold miss. destruct db as [[[|rowId rest]|]|error]; simpl; auto.
    split; [now apply set_Bounded|]. split; [reflexivity|].
    intros now' later' db' Hfresh. unfold getLinktreeIdByUid.
    rewrite get_limit_set by exact Hb. simpl.
    destruct (Z.ltb_spec (now' - later) CACHE_TTL); [reflexivity | lia]. }
  destruct Hmiss as [Hmb Hmr].
  assert (Hothers :
    (forall uid' now' later' db', uid' <> uid ->
       let other := getLinktreeIdByUid cache uid' now' later' db' in
       get (after other) uid = get cache uid
       \/ (length cache = 1000%nat /\ head (keys cache) = Some uid /\ (uid' ∉ keys cache)
           /\ get (after other) uid = None))
    /\ (forall uid' now' later' rowId rest,
          length cache = 1000%nat -> head (keys cache) = Some uid -> uid' ∉ keys cache ->
          let other :=
            getLinktreeIdByUid cache uid' now' later'
              (Uid.QueryRows (Some (rowId :: rest))) in
          get (after other) uid = None
          /\ forall now2 later2 db2,
               queried (getLinktreeIdByUid (after other) uid now2 later2 db2) = true)).
  { split.
    - intros uid' now' later' db' Hother other. unfold other, getLinktreeIdByUid.
      assert (Hrow : forall rowId,
        get (limit (set cache uid' (mkEntry rowId later'))) uid = get cache uid
        \/ (length cache = 1000%nat /\ head (keys cache) = Some uid /\ (uid' ∉ keys cache)
            /\ get (limit (set cache uid' (mkEntry rowId later'))) uid = None))
        by (intros rowId; now apply limit_set_other).
      destruct (get cache uid') as [cached|];
        [destruct (now' - timestamp cached <? CACHE_TTL); [now left|]|];
        destruct db' as [[[|rowId rest]|]|error]; simpl; auto.
    - intros uid' now' later' rowId rest Hfull Hhead Hnin other.
      assert (Hother : uid' <> uid).
      { intros ->. apply Hnin. destruct cache as [|[k e0] tl]; [discriminate|].
        injection Hhead as ->. left. }
      assert (Hgone : get (after other) uid = None).
      { unfold other, getLinktreeIdByUid.
        apply get_None_iff in Hnin as Hnone. rewrite Hnone. cbn [after].
        destruct (limit_set_other cache uid uid' (mkEntry rowId later') Hb Hother)
          as [Hkept | (_ & _ & _ & Hnow)]; [|exact Hnow].
        exfalso. unfold limit in Hkept.
        rewrite set_absent in Hkept by exact Hnin.
        destruct (Nat.ltb_spec 1000 (length (cache ++ [(uid', mkEntry rowId later')])))
          as [_ | Hsmall]; [|rewrite length_app in Hsmall; cbn [length] in Hsmall; lia].
        destruct cache as [|[k e0] tl]; [discriminate|].
        injection Hhead as ->. cbn [app] in Hkept.
        rewrite truthy_nonempty, get_delete_same in Hkept by exact Huid.
        simpl in Hkept. rewrite String.eqb_refl in Hkept. discriminate. }
      split; [exact Hgone|].
      intros now2 later2 db2. unfold getLinktreeIdByUid. rewrite Hgone.
      now destruct db2 as [[[|r2 rest2]|]|error2]. }
  destruct Hothers as [Hkeep Hevict].
  destruct (get cache uid) as [cached|] eqn:Hget.
  - destruct (Z.ltb_spec (now - timestamp cached) CACHE_TTL) as [Hfresh | Hstale].
    + simpl. split; [exact Hb|]. split; [|split; [discriminate | split; assumption]].
      intros e [= <-] _. reflexivity.
    + split; [exact Hmb|]. split; [|split; [intros _; exact Hmr | split; assumption]].
      intros e [= <-] Hlt. lia.
  - split; [exact Hmb|]. split; [|split; [intros _; exact Hmr | split; assumption]].
    intros e [=].
Qed.

End CacheFacts.

Lemma uid_cache_roundtrip_witness :
  Cache.getLinktreeIdByUid
    [("ali"%string, Cache.mkEntry "id-1" 1000)] "ali" 2000 2001 (Uid.QueryRows None)
  = Cache.mkCall [("ali"%string, Cache.mkEntry "id-1" 1000)]
      (Fulfilled (Some "id-1"%string)) false.
Proof.
  destruct (uid_cache_roundtrip [("ali"%string, Cache.mkEntry "id-1" 1000)] "ali"
              2000 2001 (Uid.QueryRows None)) as (_ & Hhit & _).
  - discriminate.
  - split; [|split].
    + repeat constructor. intros H. inversion H.
    + simpl. lia.
    + intros H. apply list_elem_of_singleton in H. discriminate.
  - apply (Hhit (Cache.mkEntry "id-1" 1000)).
    + reflexivity.
    + unfold Cache.CACHE_TTL. simpl. lia.
Defined.

(** A full cache: [u0] was cached first, 999 other uids after it.  A lookup
    of a new uid one minute later deletes the entry of [u0], so a call for
    [u0] one more minute later queries again, well within 24 hours. *)
Example eviction_sample :
  let cache := Cache.warmed 1000 in
  let other :=
    Cache.getLinktreeIdByUid cache "new" 60000 60000 (Uid.QueryRows (Some ["id-new"%string])) in
  Cache.get cache "u0" = Some (Cache.mkEntry "id" 0)
  /\ Cache.get (Cache.after other) "u0" = None
  /\ length (Cache.after other) = 1000%nat
  /\ Cache.queried
       (Cache.getLinktreeIdByUid (Cache.after other) "u0" 120000 120000
          (Uid.QueryRows (Some ["id"%string]))) = true.
Proof. vm_compute. repeat split. Qed.

(** ** The links of a new linktree *)

Section NewLinksFacts.
Import NewLinks.
Variable linkMetadata : string -> list LinkMetadata.

Local Abbreviation kept := (fun url => negb (skipped url)).

Lemma forEach_spec (platform : string) (metadataArray : list LinkMetadata)
    (urls : list string) :
  forall index rows d,
    exists rows',
      forEach platform metadataArray urls index (rows, d)
      = (rows ++ rows', (d + length rows')%nat)
      /\ map r_url rows' = map JsString.trim (List.filter kept urls)
      /\ map r_display_order rows' = seq d (length rows').
Proof.
  induction urls as [|url rest IH]; intros index rows d.
  - exists []. simpl. now rewrite app_nil_r, Nat.add_0_r.
  - simpl forEach. unfold visit. simpl List.filter.
    destruct (skipped url) eqn:Hs; simpl negb; cbv iota.
    + apply IH.
    + match goal with
      | |- context [forEach _ _ _ _ (rows ++ [?r], _)] =>
          destruct (IH (S index) (rows ++ [r]) (S d)) as (rows' & -> & Hurl & Hord);
          exists (r :: rows')
      end.
      rewrite <- app_assoc. simpl. rewrite Hurl, Hord.
      split; [f_equal; lia | split; reflexivity].
Qed.

Lemma entries_spec (links : list (string * list string)) :
  forall rows d,
    exists rows',
      entries linkMetadata links (rows, d) = (rows ++ rows', (d + length rows')%nat)
      /\ map r_url rows' = map JsString.trim (List.filter kept (allUrls links))
      /\ map r_display_order rows' = seq d (length rows').
Proof.
  induction links as [|[platform urls] rest IH]; intros rows d.
  - exists []. simpl. now rewrite app_nil_r, Nat.add_0_r.
  - simpl entries. unfold allUrls in *. simpl concat.
    destruct (length urls =? 0)%nat eqn:Hlen.
    + apply length_zero_iff in Hlen. subst urls. simpl. apply IH.
    + destruct (forEach_spec platform (linkMetadata platform) urls 0 rows d)
        as (r1 & -> & Hurl1 & Hord1).
      destruct (IH (rows ++ r1) (d + length r1)%nat) as (r2 & -> & Hurl2 & Hord2).
      exists (r1 ++ r2). rewrite <- app_assoc, length_app, !map_app, List.filter_app, map_app.
      rewrite Hurl1, Hurl2, Hord1, Hord2, seq_app.
      split; [f_equal; lia | split; reflexivity].
Qed.

(** X17.  [createLinktree] throws "No links provided" when [data.links] is
    missing or has no platform, and "No valid links provided - all links were
    empty" when every url is empty or blank.  Otherwise the rows it inserts
    are, in the order the urls are visited, the trimmed urls that are not
    blank; each stored url is non-empty and already trimmed; and the display
    orders are 0, 1, 2, ... without a gap, whatever was skipped. *)
Theorem new_links_rows (links : list (string * list string)) :
  linksToInsert linkMetadata None = Rejected noLinks
  /\ linksToInsert linkMetadata (Some []) = Rejected noLinks
  /\ (links <> [] -> List.filter kept (allUrls links) = [] ->
      linksToInsert linkMetadata (Some links) = Rejected noValidLinks)
  /\ (links <> [] -> List.filter kept (allUrls links) <> [] ->
      exists rows,
        linksToInsert linkMetadata (Some links) = Fulfilled rows
        /\ map r_url rows = map JsString.trim (List.filter kept (allUrls links))
        /\ map r_display_order rows = seq 0 (length rows)
        /\ Forall (fun r => r_url r <> EmptyString /\ JsString.trim (r_url r) = r_url r) rows).
Proof.
  split; [reflexivity|]. split; [reflexivity|].
  destruct (entries_spec links [] 0%nat) as (rows & Hrun & Hurl & Hord).
  simpl in Hrun.
  assert (Hlen : length rows = length (List.filter kept (allUrls links))).
  { rewrite <- (length_map r_url rows), Hurl. now rewrite length_map. }
  assert (Hcall : links <> [] ->
    linksToInsert linkMetadata (Some links)
    = if (0 <? length rows)%nat then Fulfilled rows else Rejected noValidLinks).
  { intros Hne. unfold linksToInsert. rewrite Hrun. cbn [fst].
    destruct links; [congruence | reflexivity]. }
  split.
  - intros Hne Hnone. rewrite (Hcall Hne). rewrite Hnone in Hlen.
    destruct rows; [reflexivity | discriminate].
  - intros Hne Hsome. rewrite (Hcall Hne).
    destruct rows as [|r rows'] eqn:Hrows.
    { destruct (List.filter kept (allUrls links)); [congruence | discriminate]. }
    rewrite <- Hrows in *. replace (0 <? length rows)%nat with true
      by (rewrite Hrows; reflexivity).
    exists rows. split; [reflexivity|]. split; [exact Hurl|]. split; [exact Hord|].
    apply Forall_forall. intros row Hrow.
    assert (Hin : r_url row ∈ map JsString.trim (List.filter kept (allUrls links))).
    { rewrite <- Hurl. now apply list_elem_of_fmap_2. }
    apply list_elem_of_fmap in Hin as (u & -> & Hu).
    apply list_elem_of_In, List.filter_In in Hu as [_ Hu].
    unfold skipped in Hu. rewrite negb_orb, andb_true_iff, !negb_true_iff in Hu.
    destruct Hu as [_ Hu]. split; [|apply trim_idem].
    intros Hempty. rewrite Hempty in Hu. discriminate.
Qed.

End NewLinksFacts.

Lemma new_links_rows_witness :
  exists rows,
    NewLinks.linksToInsert (fun _ => [])
      (Some [("whatsapp", ["  https://wa.me/1 "; "   "]); ("empty", []);
             ("telegram", [""; "https://t.me/x"])]%string)
    = Fulfilled rows
    /\ map NewLinks.r_display_order rows = seq 0 (length rows).
Proof.
  destruct (new_links_rows (fun _ => [])
    [("whatsapp", ["  https://wa.me/1 "; "   "]); ("empty", []);
     ("telegram", [""; "https://t.me/x"])]%string) as (_ & _ & _ & H).
  destruct H as (rows & Hrows & _ & Hord & _); [discriminate | discriminate |].
  exists rows. split; [exact Hrows | exact Hord].
Defined.

(** The rows of that call. *)
Example new_links_sample :
  NewLinks.linksToInsert (fun _ => [])
    (Some [("whatsapp", ["  https://wa.me/1 "; "   "]); ("empty", []);
           ("telegram", [""; "https://t.me/x"])]%string)
  = Fulfilled
      [NewLinks.mkRow "whatsapp" "https://wa.me/1" None (Some EmptyString) "{}" 0;
       NewLinks.mkRow "telegram" "https://t.me/x" None (Some EmptyString) "{}" 1].
Proof. vm_compute. reflexivity. Qed.

(** ** The click route *)

Section ClickRouteFacts.
Import Pipeline ClickRoute.

Lemma blank_trim (s : string) :
  JsString.truthy (JsString.trim s) = true -> blank (Some (JsString.trim s)) = false.
Proof.
  intros H. rewrite <- (negb_involutive (blank _)), <- filled_negb_blank.
  now rewrite filled_trim.
Qed.

Lemma filled_Some (s : string) :
  Insert.filled (Some s) = true -> JsString.truthy (JsString.trim s) = true.
Proof. simpl. now intros [_ H]%andb_true_iff. Qed.

(** X18.  Every record the click route passes to [addClick] passes the guard
    of [addClick]: its link id is the trimmed route parameter, a well-formed
    UUID, and its page id and address are trimmed and not empty; so on a
    server with a click queue it is pushed onto that queue.  A route
    parameter that is not a UUID after trimming yields no record. *)
Theorem click_route_passes_guard (id : string) (bodyLinktreeId : option string)
    (rows : option (list (option string))) (analytics : Analytics) (now : string)
    (g : Globals) (s : BatchQueue.Sys ClickRecord) :
  (Uuid.test (JsString.trim id) = false ->
   clickOf id bodyLinktreeId rows analytics now = None)
  /\ forall c, clickOf id bodyLinktreeId rows analytics now = Some c ->
       clickSkipped (Some c) = false
       /\ c_link_id c = Some (JsString.trim id)
       /\ Uuid.test (JsString.trim id) = true
       /\ (clickQueue g = Some s ->
           fst (addClick g (Some c))
           = mkGlobals (serverSide g) (viewQueue g)
               (Some (BatchQueue.step s (BatchQueue.Enqueue c)))).
Proof.
  split.
  - intros Ht. unfold clickOf. rewrite Ht.
    now destruct (negb (JsString.truthy id) || negb (JsString.truthy (JsString.trim id))).
  - intros c Hc.
    assert (Hgood : clickSkipped (Some c) = false
                    /\ c_link_id c = Some (JsString.trim id)
                    /\ Uuid.test (JsString.trim id) = true).
    { unfold clickOf in Hc.
      destruct (JsString.truthy id) eqn:Hid; [|discriminate]. simpl in Hc.
      destruct (JsString.truthy (JsString.trim id)) eqn:Htid; [|discriminate]. simpl in Hc.
      destruct (Uuid.test (JsString.trim id)) eqn:Ht; [|discriminate]. simpl in Hc.
      assert (Hbuild : forall l ip,
        Insert.filled (Some l) = true -> Insert.filled (Some ip) = true ->
        clickSkipped (Some (mkClick (Some (JsString.trim id)) (Some (JsString.trim l))
          (Some (JsString.trim ip)) (sessionOf (session_id analytics)) now)) = false).
      { intros l ip Hl Hip. unfold clickSkipped. cbn [c_link_id c_linktree_id c_ip_address].
        rewrite !blank_trim; [reflexivity |  | | ]; auto using filled_Some. }
      cbv zeta in Hc.
      set (linktreeId := match bodyLinktreeId with
                         | Some s0 => if JsString.truthy s0 then Some s0 else None
                         | None => None
                         end) in Hc.
      clearbody linktreeId. unfold filled in Hc.
      destruct (Insert.filled linktreeId) eqn:Hbody.
      - destruct linktreeId as [l|]; [|discriminate].
        destruct (ip_address analytics) as [ip|]; [|discriminate].
        destruct (JsString.truthy ip && JsString.truthy (JsString.trim ip)) eqn:Hip;
          [|discriminate].
        injection Hc as <-. split; [now apply Hbuild | now split].
      - destruct rows as [[|[l|] rest]|]; try discriminate.
        destruct (JsString.truthy l && JsString.truthy (JsString.trim l)) eqn:Hl;
          [|discriminate].
        destruct (ip_address analytics) as [ip|]; [|discriminate].
        cbn [andb Insert.filled] in Hc.
        destruct (JsString.truthy ip && JsString.truthy (JsString.trim ip)) eqn:Hip;
          [|discriminate].
        injection Hc as <-. split; [now apply Hbuild | now split]. }
    destruct Hgood as (Hskip & Hlink & Ht). repeat split; try assumption.
    intros Hq. unfold addClick. rewrite Hskip. cbv zeta. rewrite !Hq. reflexivity.
Qed.

End ClickRouteFacts.

Lemma click_route_passes_guard_witness :
  ClickRoute.clickOf "not-a-uuid" None None (ClickRoute.mkAnalytics None None) "t" = None
  /\ Pipeline.clickSkipped
       (Some (Pipeline.mkClick (Some "123e4567-e89b-12d3-a456-426614174000"%string)
                (Some "page-1"%string) (Some "10.0.0.1"%string) None "t")) = false.
Proof.
  split.
  - apply (click_route_passes_guard "not-a-uuid" None None
             (ClickRoute.mkAnalytics None None) "t" (Pipeline.loaded true)
             (BatchQueue.boot 1000)).
    reflexivity.
  - apply (click_route_passes_guard " 123e4567-e89b-12d3-a456-426614174000 "
             (Some " page-1"%string) None
             (ClickRoute.mkAnalytics (Some "10.0.0.1 "%string) None) "t"
             (Pipeline.loaded true) (BatchQueue.boot 1000)).
    reflexivity.
Defined.
